(** * BusTub: LRU-K replacer, buffer pool manager, page guards, the
      disk-resident extendible hash table, the sequential scan and the
      persistent trie.

    Shallow embedding of
      - src/buffer/lru_k_replacer.cpp,
      - src/buffer/buffer_pool_manager.cpp,
      - src/storage/page/page_guard.cpp,
      - src/container/disk/hash/disk_extendible_hash_table.cpp,
      - src/execution/seq_scan_executor.cpp (Next),
      - src/primer/trie.cpp,
    with explicit state passing.  C++ exceptions and failed [assert]s are
    outcomes of their own, next to a normal return.

    The classes whose code is not among the sources (LRUKNode, the header,
    directory and bucket pages, DeallocatePage, the disk scheduler, the
    page latch, the trie nodes) are modelled from the specification; each
    such definition says so.  The sequential scan is modelled over any
    implementation of the table iterator.  The hash table sees the buffer
    pool as a store of typed pages addressed by page id that never runs out
    of frames.  The mutex of the pool is not modelled; the page latches are
    modelled for the page guards, where a latch that cannot be taken is an
    outcome of its own.  FlushAllPages, which starts its writes without
    waiting for them, is left out. *)

From Stdlib Require Import ZArith Lia List Bool String.
From stdpp Require Import base option list functions gmap.
Import ListNotations.
Local Open Scope Z_scope.

(** ** Outcomes of a call *)

Inductive outcome (A : Type) : Type :=
| Return (a : A)              (* normal return *)
| Throw (msg : string)        (* ExecutionException / Exception *)
| AssertFailed                (* a failed assert(...) aborts the process *)
| OutOfFuel.                  (* recursion budget of the model exhausted *)
Arguments Return {A} a.
Arguments Throw {A} msg.
Arguments AssertFailed {A}.
Arguments OutOfFuel {A}.

(** ** Machine integers *)

Definition INT32_MAX : Z := 2147483647.
Definition INVALID_PAGE_ID : Z := -1.

(** size_t arithmetic wraps modulo 2^64. *)
Definition size_t_wrap (z : Z) : Z := z mod 2 ^ 64.

(** static_cast<frame_id_t>(size_t): keep the low 32 bits, read as signed. *)
Definition cast_frame_id (z : Z) : Z :=
  let w := z mod 2 ^ 32 in
  if w <? 2 ^ 31 then w else w - 2 ^ 32.

(** uint32_t arithmetic of the hash table. *)
Definition u32 (z : Z) : Z := z mod 2 ^ 32.

(** * LRU-K replacer (src/buffer/lru_k_replacer.cpp) *)

Module Replacer.

(** Modelled from the spec: class LRUKNode is declared in
    buffer/lru_k_replacer.h, which is not among the sources.  The spec's
    replacer node holds the frame id, the evictable flag and the bounded
    history of the last K access timestamps (oldest first); the current
    history length is the length of that list. *)
Record LRUKNode : Type := mkNode {
  fid_ : Z;
  is_evictable_ : bool;
  history_ : list Z
}.

(** Modelled from the spec: LRUKNode(frame_id), a node created on first
    access, not evictable and without history. *)
Definition new_node (frame_id : Z) : LRUKNode :=
  {| fid_ := frame_id; is_evictable_ := false; history_ := [] |}.

(** Modelled from the spec: the node's evictable flag. *)
Definition GetEvictable (n : LRUKNode) : bool := is_evictable_ n.

(** Modelled from the spec: LRUKNode::SetEvictable sets the flag. *)
Definition SetNodeEvictable (n : LRUKNode) (b : bool) : LRUKNode :=
  {| fid_ := fid_ n; is_evictable_ := b; history_ := history_ n |}.

(** Modelled from the spec: GetK is the current history length. *)
Definition GetK (n : LRUKNode) : Z := Z.of_nat (length (history_ n)).

(** The last [k] elements of a list. *)
Definition keep_last {A} (k : nat) (l : list A) : list A :=
  skipn (length l - k)%nat l.

(** Modelled from the spec: AddHistory appends the timestamp and retains
    only the most recent K entries; K is the replacer's [k_]. *)
Definition AddHistory (k : Z) (ts : Z) (n : LRUKNode) : LRUKNode :=
  {| fid_ := fid_ n; is_evictable_ := is_evictable_ n;
     history_ := keep_last (Z.to_nat k) (history_ n ++ [ts]) |}.

(** Modelled from the spec: the value Evict compares.  With at least K
    accesses it is the timestamp of the K-th most recent access, with fewer
    the earliest-seen timestamp t1.  Evict keeps the node with the smallest
    such value, that is the largest backward distance from the current time. *)
Definition GetKDistance (k : Z) (n : LRUKNode) : Z :=
  hd 0 (keep_last (Z.to_nat k) (history_ n)).

(** node_store_ is a std::unordered_map: an association list with unique
    keys whose order is the (unspecified) iteration order. *)
Definition node_store := list (Z * LRUKNode).

Fixpoint find (m : node_store) (f : Z) : option LRUKNode :=
  match m with
  | [] => None
  | (u, v) :: m' => if u =? f then Some v else find m' f
  end.

Fixpoint erase (m : node_store) (f : Z) : node_store :=
  match m with
  | [] => []
  | (u, v) :: m' => if u =? f then erase m' f else (u, v) :: erase m' f
  end.

(** Overwrite the node stored under a key that is present. *)
Fixpoint update (m : node_store) (f : Z) (n : LRUKNode) : node_store :=
  match m with
  | [] => []
  | (u, v) :: m' => if u =? f then (u, n) :: m' else (u, v) :: update m' f n
  end.

(** emplace: insert at a key that is absent. *)
Definition emplace (m : node_store) (f : Z) (n : LRUKNode) : node_store :=
  match find m f with
  | Some _ => m
  | None => m ++ [(f, n)]
  end.

Record LRUKReplacer : Type := mkReplacer {
  node_store_ : node_store;
  current_timestamp_ : Z;
  curr_size_ : Z;
  replacer_size_ : Z;
  k_ : Z
}.

Definition init (num_frames k : Z) : LRUKReplacer :=
  {| node_store_ := []; current_timestamp_ := 0; curr_size_ := 0;
     replacer_size_ := num_frames; k_ := k |}.

Definition set_store (r : LRUKReplacer) (m : node_store) : LRUKReplacer :=
  {| node_store_ := m; current_timestamp_ := current_timestamp_ r;
     curr_size_ := curr_size_ r; replacer_size_ := replacer_size_ r;
     k_ := k_ r |}.

Definition set_size (r : LRUKReplacer) (n : Z) : LRUKReplacer :=
  {| node_store_ := node_store_ r; current_timestamp_ := current_timestamp_ r;
     curr_size_ := n; replacer_size_ := replacer_size_ r; k_ := k_ r |}.

Definition set_timestamp (r : LRUKReplacer) (t : Z) : LRUKReplacer :=
  {| node_store_ := node_store_ r; current_timestamp_ := t;
     curr_size_ := curr_size_ r; replacer_size_ := replacer_size_ r;
     k_ := k_ r |}.

(** *** Evict *)

(** The three locals of the scan: f_id, dist and less_k. *)
Record scan : Type := mkScan {
  f_id : Z;
  dist : Z;
  less_k : bool
}.

Definition scan_init : scan :=
  {| f_id := -1; dist := INT32_MAX; less_k := false |}.

(** One iteration of [for (auto &[u, v] : node_store_)]. *)
Definition scan_step (k : Z) (a : scan) (uv : Z * LRUKNode) : scan :=
  let (u, v) := uv in
  if negb (GetEvictable v) then a
  else if GetK v <? k then
    if negb (less_k a) then
      {| f_id := u; dist := GetKDistance k v; less_k := true |}
    else if GetKDistance k v <? dist a then
      {| f_id := u; dist := GetKDistance k v; less_k := less_k a |}
    else a
  else
    if negb (less_k a) && (GetKDistance k v <? dist a) then
      {| f_id := u; dist := GetKDistance k v; less_k := less_k a |}
    else a.

Definition scan_all (k : Z) (m : node_store) : scan :=
  fold_left (scan_step k) m scan_init.

(** Evict: [None] stands for [return false], [Some f] for [return true]
    with [*frame_id = f]. *)
Definition Evict (r : LRUKReplacer) : option Z * LRUKReplacer :=
  if curr_size_ r =? 0 then (None, r)
  else
    let a := scan_all (k_ r) (node_store_ r) in
    (Some (f_id a),
     set_size (set_store r (erase (node_store_ r) (f_id a)))
              (size_t_wrap (curr_size_ r - 1))).

(** *** RecordAccess *)

Definition RecordAccess (frame_id : Z) (r : LRUKReplacer)
  : outcome unit * LRUKReplacer :=
  let r1 := set_timestamp r (size_t_wrap (current_timestamp_ r + 1)) in
  if cast_frame_id (replacer_size_ r1) <? frame_id then
    (Throw "Frame ID is invalid.", r1)
  else
    let m := match find (node_store_ r1) frame_id with
             | None => emplace (node_store_ r1) frame_id (new_node frame_id)
             | Some _ => node_store_ r1
             end in
    match find m frame_id with
    | Some temp =>
        (Return tt,
         set_store r1 (update m frame_id
                         (AddHistory (k_ r1) (current_timestamp_ r1) temp)))
    | None => (Throw "unordered_map::at", set_store r1 m)
    end.

(** *** SetEvictable *)

Definition SetEvictable (frame_id : Z) (set_evictable : bool) (r : LRUKReplacer)
  : outcome unit * LRUKReplacer :=
  match find (node_store_ r) frame_id with
  | Some n =>
      if Bool.eqb (GetEvictable n) set_evictable then (Return tt, r)
      else
        (Return tt,
         set_size (set_store r (update (node_store_ r) frame_id
                                  (SetNodeEvictable n set_evictable)))
                  (size_t_wrap (curr_size_ r + (if set_evictable then 1 else -1))))
  | None =>
      (Throw "Frame ID not found in node store. Cannot set evictable status.", r)
  end.

(** *** Remove *)

Definition Remove (frame_id : Z) (r : LRUKReplacer)
  : outcome unit * LRUKReplacer :=
  match find (node_store_ r) frame_id with
  | None => (Return tt, r)
  | Some n =>
      if negb (GetEvictable n) then (Throw "The Frame ID is not evictable.", r)
      else (Return tt,
            set_size (set_store r (erase (node_store_ r) frame_id))
                     (size_t_wrap (curr_size_ r - 1)))
  end.

Definition Size (r : LRUKReplacer) : Z := curr_size_ r.

(** *** The k-distance policy, as the spec words it *)

(** t1, the earliest recorded access. *)
Definition first_access (n : LRUKNode) : Z := hd 0 (history_ n).

(** The timestamp of the K-th most recent access. *)
Definition kth_recent_access (k : Z) (n : LRUKNode) : Z :=
  nth (length (history_ n) - Z.to_nat k) (history_ n) 0.

Inductive distance : Type :=
| Finite (d : Z)
| Infinite.

(** kdist(n): infinite with fewer than k accesses, else the current time
    minus the timestamp of the K-th most recent access. *)
Definition backward_k_distance (now k : Z) (n : LRUKNode) : distance :=
  if GetK n <? k then Infinite else Finite (now - kth_recent_access k n).

Definition distance_le (a b : distance) : Prop :=
  match a, b with
  | _, Infinite => True
  | Finite x, Finite y => x <= y
  | Infinite, Finite _ => False
  end.

Definition evictable_count (m : node_store) : Z :=
  Z.of_nat (length (List.filter (fun uv => GetEvictable (snd uv)) m)).

(** The state Evict expects: unique keys, [curr_size_] counts the evictable
    nodes and fits a size_t, and the compared timestamp of an evictable
    node with at least k accesses lies below the initial [dist]. *)
Record replacer_ok (r : LRUKReplacer) : Prop := mkReplacerOk {
  ok_keys : List.NoDup (map fst (node_store_ r));
  ok_size : curr_size_ r = evictable_count (node_store_ r);
  ok_size_t : curr_size_ r < 2 ^ 64;
  ok_stamps : forall u n, In (u, n) (node_store_ r) ->
                GetEvictable n = true -> k_ r <= GetK n ->
                kth_recent_access (k_ r) n < INT32_MAX
}.

(** What the locals of the scan hold after the nodes [seen]. *)
Definition scan_ok (k : Z) (seen : node_store) (a : scan) : Prop :=
  if less_k a then
    exists n, In (f_id a, n) seen /\ GetEvictable n = true /\ GetK n < k /\
              dist a = GetKDistance k n /\
              forall u m, In (u, m) seen -> GetEvictable m = true -> GetK m < k ->
                          dist a <= GetKDistance k m
  else
    (forall u m, In (u, m) seen -> GetEvictable m = true -> k <= GetK m) /\
    ((dist a = INT32_MAX /\
      forall u m, In (u, m) seen -> GetEvictable m = false) \/
     (exists n, In (f_id a, n) seen /\ GetEvictable n = true /\
                dist a = GetKDistance k n /\
                forall u m, In (u, m) seen -> GetEvictable m = true ->
                            dist a <= GetKDistance k m)).

(** *** Reachable replacers *)

(** frame_id_t is a 32-bit signed integer. *)
Definition int32_range (z : Z) : Prop := - 2 ^ 31 <= z < 2 ^ 31.

(** What the public operations keep while the clock stays below the initial
    [dist] of Evict: unique 32-bit keys, [curr_size_] counting the evictable
    nodes, and recorded timestamps that do not exceed the clock. *)
Record replacer_inv (r : LRUKReplacer) : Prop := mkReplacerInv {
  inv_keys : List.NoDup (map fst (node_store_ r));
  inv_int32 : forall u, In u (map fst (node_store_ r)) -> int32_range u;
  inv_size : curr_size_ r = evictable_count (node_store_ r);
  inv_clock : 0 <= current_timestamp_ r < INT32_MAX;
  inv_stamps : forall u n ts, In (u, n) (node_store_ r) -> In ts (history_ n) ->
                 0 <= ts <= current_timestamp_ r
}.

(** The replacers the public operations produce from a fresh one, as long
    as the clock stays below INT32_MAX. *)
Inductive replacer_reachable : LRUKReplacer -> Prop :=
| rr_init (num_frames k : Z) : replacer_reachable (init num_frames k)
| rr_RecordAccess (r : LRUKReplacer) (frame_id : Z) :
    replacer_reachable r -> int32_range frame_id ->
    current_timestamp_ r + 1 < INT32_MAX ->
    replacer_reachable (snd (RecordAccess frame_id r))
| rr_SetEvictable (r : LRUKReplacer) (frame_id : Z) (set_evictable : bool) :
    replacer_reachable r ->
    replacer_reachable (snd (SetEvictable frame_id set_evictable r))
| rr_Remove (r : LRUKReplacer) (frame_id : Z) :
    replacer_reachable r -> replacer_reachable (snd (Remove frame_id r))
| rr_Evict (r : LRUKReplacer) :
    replacer_reachable r -> replacer_reachable (snd (Evict r)).

End Replacer.

(** * Buffer pool manager (src/buffer/buffer_pool_manager.cpp) *)

Module BufferPool.

Definition BUSTUB_PAGE_SIZE : nat := 4096.

(** Modelled from the spec: class Page is declared in storage/page/page.h,
    which is not among the sources.  A frame holds the page bytes and the
    metadata {resident page id, pin count, dirty flag}; the members are the
    ones buffer_pool_manager.cpp reads and writes. *)
Record Page : Type := mkPage {
  data_ : list Z;
  page_id_ : Z;
  pin_count_ : Z;
  is_dirty_ : bool
}.

(** Modelled from the spec: the getters of class Page. *)
Definition GetPinCount (p : Page) : Z := pin_count_ p.
Definition GetPageId (p : Page) : Z := page_id_ p.
Definition IsDirty (p : Page) : bool := is_dirty_ p.

(** Modelled from the spec: ResetMemory zeroes the page bytes. *)
Definition ResetMemory (p : Page) : Page :=
  {| data_ := repeat 0 BUSTUB_PAGE_SIZE; page_id_ := page_id_ p;
     pin_count_ := pin_count_ p; is_dirty_ := is_dirty_ p |}.

Definition set_pin_count (p : Page) (n : Z) : Page :=
  {| data_ := data_ p; page_id_ := page_id_ p;
     pin_count_ := n; is_dirty_ := is_dirty_ p |}.

Definition set_is_dirty (p : Page) (b : bool) : Page :=
  {| data_ := data_ p; page_id_ := page_id_ p;
     pin_count_ := pin_count_ p; is_dirty_ := b |}.

Definition set_page_id (p : Page) (i : Z) : Page :=
  {| data_ := data_ p; page_id_ := i;
     pin_count_ := pin_count_ p; is_dirty_ := is_dirty_ p |}.

(** The pool.  [pages_] is the frame array indexed by frame id,
    [page_table_] the unordered_map from page id to frame id, [free_list_]
    and [free_ids_] the two std::list members. *)
Record BufferPoolManager : Type := mkBPM {
  pool_size_ : Z;
  pages_ : Z -> Page;
  page_table_ : gmap Z Z;
  free_list_ : list Z;
  replacer_ : Replacer.LRUKReplacer;
  next_page_id_ : Z;
  free_ids_ : list Z
}.

Definition set_page (s : BufferPoolManager) (fit : Z) (p : Page) : BufferPoolManager :=
  {| pool_size_ := pool_size_ s; pages_ := <[fit := p]> (pages_ s);
     page_table_ := page_table_ s; free_list_ := free_list_ s;
     replacer_ := replacer_ s; next_page_id_ := next_page_id_ s;
     free_ids_ := free_ids_ s |}.

Definition set_replacer (s : BufferPoolManager) (r : Replacer.LRUKReplacer)
  : BufferPoolManager :=
  {| pool_size_ := pool_size_ s; pages_ := pages_ s;
     page_table_ := page_table_ s; free_list_ := free_list_ s;
     replacer_ := r; next_page_id_ := next_page_id_ s;
     free_ids_ := free_ids_ s |}.

Definition set_page_table (s : BufferPoolManager) (m : gmap Z Z) : BufferPoolManager :=
  {| pool_size_ := pool_size_ s; pages_ := pages_ s;
     page_table_ := m; free_list_ := free_list_ s;
     replacer_ := replacer_ s; next_page_id_ := next_page_id_ s;
     free_ids_ := free_ids_ s |}.

Definition set_free_list (s : BufferPoolManager) (l : list Z) : BufferPoolManager :=
  {| pool_size_ := pool_size_ s; pages_ := pages_ s;
     page_table_ := page_table_ s; free_list_ := l;
     replacer_ := replacer_ s; next_page_id_ := next_page_id_ s;
     free_ids_ := free_ids_ s |}.

Definition set_free_ids (s : BufferPoolManager) (l : list Z) : BufferPoolManager :=
  {| pool_size_ := pool_size_ s; pages_ := pages_ s;
     page_table_ := page_table_ s; free_list_ := free_list_ s;
     replacer_ := replacer_ s; next_page_id_ := next_page_id_ s;
     free_ids_ := l |}.

(** *** UnpinPage *)

Definition UnpinPage (page_id : Z) (is_dirty : bool) (s : BufferPoolManager)
  : outcome bool * BufferPoolManager :=
  match page_table_ s !! page_id with
  | None => (Return false, s)
  | Some fit =>
      let page := pages_ s fit in
      if GetPinCount page =? 0 then (Return false, s)
      else
        let page1 := set_pin_count page (pin_count_ page - 1) in
        let page2 := if is_dirty then set_is_dirty page1 is_dirty else page1 in
        let s1 := set_page s fit page2 in
        if GetPinCount page2 =? 0 then
          match Replacer.SetEvictable fit true (replacer_ s1) with
          | (Return _, r') => (Return true, set_replacer s1 r')
          | (Throw msg, r') => (Throw msg, set_replacer s1 r')
          | (AssertFailed, r') => (AssertFailed, set_replacer s1 r')
          | (OutOfFuel, r') => (OutOfFuel, set_replacer s1 r')
          end
        else (Return true, s1)
  end.

(** *** AllocatePage and DeallocatePage *)

Definition AllocatePage (s : BufferPoolManager) : Z * BufferPoolManager :=
  match free_ids_ s with
  | id :: rest => (id, set_free_ids s rest)
  | [] =>
      (next_page_id_ s,
       {| pool_size_ := pool_size_ s; pages_ := pages_ s;
          page_table_ := page_table_ s; free_list_ := free_list_ s;
          replacer_ := replacer_ s; next_page_id_ := next_page_id_ s + 1;
          free_ids_ := free_ids_ s |})
  end.

(** Modelled from the spec: DeallocatePage is defined in
    buffer/buffer_pool_manager.h, which is not among the sources.  The spec
    has DeletePage deallocate the page id by appending it to the
    recycled-ids list, the list AllocatePage pops from. *)
Definition DeallocatePage (page_id : Z) (s : BufferPoolManager) : BufferPoolManager :=
  set_free_ids s (free_ids_ s ++ [page_id]).

(** *** DeletePage *)

Definition DeletePage (page_id : Z) (s : BufferPoolManager)
  : outcome bool * BufferPoolManager :=
  match page_table_ s !! page_id with
  | None => (Return true, s)
  | Some fit =>
      let page := pages_ s fit in
      if 0 <? GetPinCount page then (Return false, s)
      else
        let page1 := set_page_id (set_is_dirty (ResetMemory page) false)
                                 INVALID_PAGE_ID in
        let s1 := set_page s fit page1 in
        let s2 := set_page_table s1 (delete page_id (page_table_ s1)) in
        let s3 := set_free_list s2 (free_list_ s2 ++ [fit]) in
        match Replacer.Remove fit (replacer_ s3) with
        | (Return _, r') =>
            (Return true, DeallocatePage page_id (set_replacer s3 r'))
        | (Throw msg, r') => (Throw msg, set_replacer s3 r')
        | (AssertFailed, r') => (AssertFailed, set_replacer s3 r')
        | (OutOfFuel, r') => (OutOfFuel, set_replacer s3 r')
        end
  end.

End BufferPool.

(** * Buffer pool manager: frames, disk and the remaining operations
      (src/buffer/buffer_pool_manager.cpp) *)

Module BufferPoolDisk.

Import BufferPool.

(** Modelled from the spec: DiskScheduler and DiskManager are declared in
    storage/disk, which is not among the sources.  The persisted layout is
    a flat file indexed by page id.  A write request stores the bytes of
    the buffer at the page, a read request copies the bytes of the page
    into the buffer, and the caller waits on the completion handle
    ([future.get()]) before it goes on, so the request has taken effect
    when the wait returns. *)
Definition Disk : Type := Z -> list Z.

(** Modelled from the spec: a served write request. *)
Definition WritePage (d : Disk) (page_id : Z) (data : list Z) : Disk :=
  <[page_id := data]> d.

(** Modelled from the spec: a served read request. *)
Definition ReadPage (d : Disk) (page_id : Z) : list Z := d page_id.

(** The pool together with the disk behind its scheduler. *)
Record Pool : Type := mkPool {
  bpm_ : BufferPoolManager;
  disk_ : Disk
}.

(** Modelled from the spec: a default-constructed Page (page.h) has zeroed
    bytes, no page id, pin count 0 and a clear dirty flag. *)
Definition fresh_page : Page :=
  {| data_ := repeat 0 BUSTUB_PAGE_SIZE; page_id_ := INVALID_PAGE_ID;
     pin_count_ := 0; is_dirty_ := false |}.

(** The constructor: every frame is in the free list, in index order. *)
Definition new_pool (pool_size replacer_k : Z) : BufferPoolManager :=
  {| pool_size_ := pool_size;
     pages_ := fun _ => fresh_page;
     page_table_ := ∅;
     free_list_ := map (fun i => cast_frame_id (Z.of_nat i))
                       (seq 0 (Z.to_nat pool_size));
     replacer_ := Replacer.init pool_size replacer_k;
     next_page_id_ := 0;
     free_ids_ := [] |}.

(** The block NewPage and FetchPage share (lines 44-64 and 88-107): take
    the first frame of the free list, or else evict one, unmap the page it
    holds, write that page back when it is dirty, and zero the frame.
    [None] stands for a failed Evict. *)
Definition take_frame (p : Pool) : option (Z * Pool) :=
  let s := bpm_ p in
  match free_list_ s with
  | [] =>
      match Replacer.Evict (replacer_ s) with
      | (None, _) => None
      | (Some fit, r') =>
          let s1 := set_replacer s r' in
          let page := pages_ s1 fit in
          let temp := GetPageId page in
          let s2 := set_page_table s1 (delete temp (page_table_ s1)) in
          let page1 := if IsDirty page then set_is_dirty page false else page in
          let d1 := if IsDirty page then WritePage (disk_ p) temp (data_ page)
                    else disk_ p in
          Some (fit, {| bpm_ := set_page s2 fit (ResetMemory page1);
                        disk_ := d1 |})
      end
  | fit :: rest =>
      Some (fit, {| bpm_ := set_free_list s rest; disk_ := disk_ p |})
  end.

(** [replacer_->RecordAccess(fit); replacer_->SetEvictable(fit, false);]:
    an exception of either call leaves through the caller. *)
Definition touch (fit : Z) (s : BufferPoolManager)
  : outcome unit * BufferPoolManager :=
  match Replacer.RecordAccess fit (replacer_ s) with
  | (Return _, r1) =>
      let (o, r2) := Replacer.SetEvictable fit false r1 in
      (o, set_replacer s r2)
  | (o, r1) => (o, set_replacer s r1)
  end.

(** *** NewPage

    [Return None] stands for [return nullptr] (the caller's [*page_id] is
    not written: the assignment [page_id = nullptr] changes the local
    pointer only), [Return (Some (pit, fit))] for [*page_id = pit] and
    [return &pages_[fit]]. *)
Definition NewPage (p : Pool) : outcome (option (Z * Z)) * Pool :=
  match take_frame p with
  | None => (Return None, p)
  | Some (fit, p1) =>
      let (pit, s2) := AllocatePage (bpm_ p1) in
      let s3 := set_page_table s2 (<[pit := fit]> (page_table_ s2)) in
      match touch fit s3 with
      | (Return _, s4) =>
          let page := pages_ s4 fit in
          let page' := {| data_ := data_ page; page_id_ := pit;
                          pin_count_ := 0 + 1; is_dirty_ := false |} in
          (Return (Some (pit, fit)),
           {| bpm_ := set_page s4 fit page'; disk_ := disk_ p1 |})
      | (Throw msg, s4) => (Throw msg, {| bpm_ := s4; disk_ := disk_ p1 |})
      | (AssertFailed, s4) => (AssertFailed, {| bpm_ := s4; disk_ := disk_ p1 |})
      | (OutOfFuel, s4) => (OutOfFuel, {| bpm_ := s4; disk_ := disk_ p1 |})
      end
  end.

(** *** FetchPage

    [Return None] stands for [return nullptr], [Return (Some fit)] for
    [return &pages_[fit]].  [pin_count_] is an int; the model is of the
    runs in which it stays below INT_MAX. *)
Definition FetchPage (page_id : Z) (p : Pool) : outcome (option Z) * Pool :=
  let s := bpm_ p in
  match page_table_ s !! page_id with
  | Some fit =>
      match touch fit s with
      | (Return _, s1) =>
          let page := pages_ s1 fit in
          (Return (Some fit),
           {| bpm_ := set_page s1 fit (set_pin_count page (pin_count_ page + 1));
              disk_ := disk_ p |})
      | (Throw msg, s1) => (Throw msg, {| bpm_ := s1; disk_ := disk_ p |})
      | (AssertFailed, s1) => (AssertFailed, {| bpm_ := s1; disk_ := disk_ p |})
      | (OutOfFuel, s1) => (OutOfFuel, {| bpm_ := s1; disk_ := disk_ p |})
      end
  | None =>
      match take_frame p with
      | None => (Return None, p)
      | Some (fit, p1) =>
          let s1 := bpm_ p1 in
          let s2 := set_page_table s1 (<[page_id := fit]> (page_table_ s1)) in
          match touch fit s2 with
          | (Return _, s3) =>
              let page := pages_ s3 fit in
              let page' := {| data_ := ReadPage (disk_ p1) page_id;
                              page_id_ := page_id;
                              pin_count_ := pin_count_ page + 1;
                              is_dirty_ := is_dirty_ page |} in
              (Return (Some fit),
               {| bpm_ := set_page s3 fit page'; disk_ := disk_ p1 |})
          | (Throw msg, s3) => (Throw msg, {| bpm_ := s3; disk_ := disk_ p1 |})
          | (AssertFailed, s3) => (AssertFailed, {| bpm_ := s3; disk_ := disk_ p1 |})
          | (OutOfFuel, s3) => (OutOfFuel, {| bpm_ := s3; disk_ := disk_ p1 |})
          end
      end
  end.

(** *** FlushPage *)
Definition FlushPage (page_id : Z) (p : Pool) : bool * Pool :=
  let s := bpm_ p in
  match page_table_ s !! page_id with
  | None => (false, p)
  | Some fit =>
      let page := pages_ s fit in
      (true, {| bpm_ := set_page s fit (set_is_dirty page false);
                disk_ := WritePage (disk_ p) page_id (data_ page) |})
  end.

(** UnpinPage and DeletePage do no I/O: they act on the pool and leave the
    disk alone. *)
Definition on_bpm {A : Type}
    (f : BufferPoolManager -> outcome A * BufferPoolManager) (p : Pool)
  : outcome A * Pool :=
  let (o, s) := f (bpm_ p) in (o, {| bpm_ := s; disk_ := disk_ p |}).

(** *** The state the operations keep *)

(** What the replacer knows of a frame: untracked, or tracked with its
    evictable flag. *)
Definition status (r : Replacer.LRUKReplacer) (f : Z) : option bool :=
  option_map Replacer.GetEvictable (Replacer.find (Replacer.node_store_ r) f).

(** A page id that AllocatePage has handed out and DeallocatePage has not
    taken back. *)
Definition allocated (s : BufferPoolManager) (page_id : Z) : Prop :=
  0 <= page_id < next_page_id_ s /\ ~ In page_id (free_ids_ s).

Definition zeroed : list Z := repeat 0 BUSTUB_PAGE_SIZE.

(** A frame of the free list: untracked, unmapped and as constructed. *)
Definition frame_free (s : BufferPoolManager) (f : Z) : Prop :=
  In f (free_list_ s) /\ status (replacer_ s) f = None /\
  pages_ s f = fresh_page /\
  forall pid, page_table_ s !! pid <> Some f.

(** A frame that holds a page: mapped from the page id it records, tracked
    by the replacer, and evictable exactly when nobody pins it. *)
Definition frame_resident (s : BufferPoolManager) (f : Z) : Prop :=
  ~ In f (free_list_ s) /\ 0 <= pin_count_ (pages_ s f) /\
  status (replacer_ s) f = Some (pin_count_ (pages_ s f) =? 0) /\
  page_table_ s !! page_id_ (pages_ s f) = Some f.

(** The frame NewPage or FetchPage has taken and not yet given a page. *)
Definition frame_taken (s : BufferPoolManager) (f : Z) : Prop :=
  ~ In f (free_list_ s) /\ status (replacer_ s) f = None /\
  (forall pid, page_table_ s !! pid <> Some f) /\
  pin_count_ (pages_ s f) = 0 /\ is_dirty_ (pages_ s f) = false /\
  data_ (pages_ s f) = zeroed.

(** The invariant, between two calls ([taken = None]) and in the middle of
    NewPage or FetchPage ([taken = Some f]). *)
Record pool_inv_at (taken : option Z) (s : BufferPoolManager) : Prop := mkPoolInv {
  pi_size : 0 <= pool_size_ s < 2 ^ 31;
  pi_rsize : Replacer.replacer_size_ (replacer_ s) = pool_size_ s;
  pi_replacer : Replacer.replacer_inv (replacer_ s);
  pi_free_nodup : List.NoDup (free_list_ s);
  pi_free_range : forall f, In f (free_list_ s) -> 0 <= f < pool_size_ s;
  pi_status_range : forall f, status (replacer_ s) f <> None ->
                      0 <= f < pool_size_ s;
  pi_frames : forall f, 0 <= f < pool_size_ s ->
                if decide (taken = Some f) then frame_taken s f
                else frame_free s f \/ frame_resident s f;
  pi_table : forall pid f, page_table_ s !! pid = Some f ->
               0 <= f < pool_size_ s /\ page_id_ (pages_ s f) = pid /\
               allocated s pid;
  pi_ids_nodup : List.NoDup (free_ids_ s);
  pi_ids_range : forall pid, In pid (free_ids_ s) -> 0 <= pid < next_page_id_ s;
  pi_next : 0 <= next_page_id_ s
}.

Definition pool_inv : BufferPoolManager -> Prop := pool_inv_at None.

(** RecordAccess may run once more before the clock reaches INT32_MAX. *)
Definition clock_ok (s : BufferPoolManager) : Prop :=
  Replacer.current_timestamp_ (replacer_ s) + 1 < INT32_MAX.

(** The pools the public operations produce from a fresh one, FetchPage
    being called on allocated page ids only. *)
Inductive pool_reachable : Pool -> Prop :=
| pr_new (pool_size replacer_k : Z) (d : Disk) :
    0 <= pool_size < 2 ^ 31 ->
    pool_reachable {| bpm_ := new_pool pool_size replacer_k; disk_ := d |}
| pr_NewPage (p : Pool) :
    pool_reachable p -> clock_ok (bpm_ p) ->
    pool_reachable (snd (NewPage p))
| pr_FetchPage (p : Pool) (page_id : Z) :
    pool_reachable p -> clock_ok (bpm_ p) -> allocated (bpm_ p) page_id ->
    pool_reachable (snd (FetchPage page_id p))
| pr_UnpinPage (p : Pool) (page_id : Z) (is_dirty : bool) :
    pool_reachable p ->
    pool_reachable (snd (on_bpm (UnpinPage page_id is_dirty) p))
| pr_FlushPage (p : Pool) (page_id : Z) :
    pool_reachable p -> pool_reachable (snd (FlushPage page_id p))
| pr_DeletePage (p : Pool) (page_id : Z) :
    pool_reachable p ->
    pool_reachable (snd (on_bpm (DeletePage page_id) p)).

(** What a page reads as: the bytes of its frame when it is resident, the
    bytes on disk otherwise. *)
Definition contents (p : Pool) (page_id : Z) : list Z :=
  match page_table_ (bpm_ p) !! page_id with
  | Some f => data_ (pages_ (bpm_ p) f)
  | None => disk_ p page_id
  end.

(** A resident page is in step with the disk when it is flagged dirty or
    equal to its disk copy. *)
Definition in_step (p : Pool) (page_id : Z) : Prop :=
  match page_table_ (bpm_ p) !! page_id with
  | Some f => is_dirty_ (pages_ (bpm_ p) f) = true \/
              data_ (pages_ (bpm_ p) f) = disk_ p page_id
  | None => True
  end.

End BufferPoolDisk.

(** Pools of two frames with LRU-2: fresh, after one NewPage, and after two
    (both frames pinned). *)
Module PoolExamples.

Import BufferPool BufferPoolDisk.

Definition pool_2_2 : Pool := {| bpm_ := new_pool 2 2; disk_ := fun _ => [] |}.
Definition pool_one_page : Pool := snd (NewPage pool_2_2).
Definition pool_two_pages : Pool := snd (NewPage pool_one_page).

(** Page 0 unpinned with the dirty flag, page 1 still pinned. *)
Definition pool_page_0_released : Pool :=
  snd (on_bpm (UnpinPage 0 true) pool_two_pages).

End PoolExamples.

(** * Disk extendible hash table
      (src/container/disk/hash/disk_extendible_hash_table.cpp) *)

Module ExtendibleHash.

(** ** Header and directory pages *)

(** Modelled from the spec: ExtendibleHTableHeaderPage is defined in
    storage/page/extendible_htable_header_page.cpp, which is not among the
    sources.  The header is an array of directory page ids, all
    INVALID_PAGE_ID after Init, and a hash is routed by its top
    header_max_depth bits. *)
Record Header : Type := mkHeader {
  h_max_depth_ : Z;
  directory_page_ids_ : Z -> Z
}.

(** Modelled from the spec: after Init every entry is INVALID_PAGE_ID. *)
Definition HeaderInit (max_depth : Z) : Header :=
  {| h_max_depth_ := max_depth; directory_page_ids_ := fun _ => INVALID_PAGE_ID |}.

(** Modelled from the spec: directory_index(h) is the top header_max_depth
    bits of the 32-bit hash. *)
Definition HashToDirectoryIndex (h : Header) (hash : Z) : Z :=
  if h_max_depth_ h =? 0 then 0 else Z.shiftr hash (32 - h_max_depth_ h).

(** Modelled from the spec: read of one header entry. *)
Definition GetDirectoryPageId (h : Header) (idx : Z) : Z := directory_page_ids_ h idx.

(** Modelled from the spec: write of one header entry. *)
Definition SetDirectoryPageId (h : Header) (idx page_id : Z) : Header :=
  {| h_max_depth_ := h_max_depth_ h;
     directory_page_ids_ := <[idx := page_id]> (directory_page_ids_ h) |}.

(** Modelled from the spec: ExtendibleHTableDirectoryPage is defined in
    storage/page/extendible_htable_directory_page.cpp, which is not among
    the sources.  The directory holds the global depth, and per slot a local
    depth and a bucket page id; the two arrays are indexed by slot number. *)
Record Directory : Type := mkDirectory {
  max_depth_ : Z;
  global_depth_ : Z;
  local_depths_ : Z -> Z;
  bucket_page_ids_ : Z -> Z
}.

(** Modelled from the spec: a fresh directory has global depth 0, local
    depths 0 and no bucket. *)
Definition DirInit (max_depth : Z) : Directory :=
  {| max_depth_ := max_depth; global_depth_ := 0;
     local_depths_ := fun _ => 0;
     bucket_page_ids_ := fun _ => INVALID_PAGE_ID |}.

(** Modelled from the spec: the getters of the directory page. *)
Definition GetGlobalDepth (d : Directory) : Z := global_depth_ d.
Definition GetLocalDepth (d : Directory) (idx : Z) : Z := local_depths_ d idx.
Definition GetBucketPageId (d : Directory) (idx : Z) : Z := bucket_page_ids_ d idx.

(** Modelled from the spec: bucket_index(h, gd) is the low gd bits of h. *)
Definition HashToBucketIndex (d : Directory) (hash : Z) : Z :=
  Z.land hash (Z.shiftl 1 (global_depth_ d) - 1).

(** Modelled from the spec: local_depth_mask(ld) = (1 << ld) - 1. *)
Definition GetLocalDepthMask (d : Directory) (idx : Z) : Z :=
  Z.shiftl 1 (local_depths_ d idx) - 1.

(** Modelled from the spec: split_image_index(i, ld) = i XOR (1 << (ld - 1)),
    at the slot's current local depth. *)
Definition GetSplitImageIndex (d : Directory) (idx : Z) : Z :=
  Z.lxor idx (Z.shiftl 1 (local_depths_ d idx - 1)).

(** Modelled from the spec: write of one bucket pointer. *)
Definition SetBucketPageId (d : Directory) (idx page_id : Z) : Directory :=
  {| max_depth_ := max_depth_ d; global_depth_ := global_depth_ d;
     local_depths_ := local_depths_ d;
     bucket_page_ids_ := <[idx := page_id]> (bucket_page_ids_ d) |}.

(** Modelled from the spec: write of one local depth. *)
Definition SetLocalDepth (d : Directory) (idx ld : Z) : Directory :=
  {| max_depth_ := max_depth_ d; global_depth_ := global_depth_ d;
     local_depths_ := <[idx := ld]> (local_depths_ d);
     bucket_page_ids_ := bucket_page_ids_ d |}.

(** Modelled from the spec: ld[idx] is incremented. *)
Definition IncrLocalDepth (d : Directory) (idx : Z) : Directory :=
  SetLocalDepth d idx (local_depths_ d idx + 1).

(** Modelled from the spec: ld[idx] is decremented. *)
Definition DecrLocalDepth (d : Directory) (idx : Z) : Directory :=
  SetLocalDepth d idx (local_depths_ d idx - 1).

(** Modelled from the spec: doubling the directory, each new upper-half slot
    inherits the pointer and the local depth of its lower-half counterpart. *)
Definition double (gd : Z) (a : Z -> Z) : Z -> Z :=
  fun j => if (2 ^ gd <=? j) && (j <? 2 ^ (gd + 1)) then a (j - 2 ^ gd) else a j.

(** Modelled from the spec: the global depth grows only below
    directory_max_depth (Insert re-reads it to see whether it grew). *)
Definition IncrGlobalDepth (d : Directory) : Directory :=
  if max_depth_ d <=? global_depth_ d then d
  else
    {| max_depth_ := max_depth_ d; global_depth_ := global_depth_ d + 1;
       local_depths_ := double (global_depth_ d) (local_depths_ d);
       bucket_page_ids_ := double (global_depth_ d) (bucket_page_ids_ d) |}.

(** Modelled from the spec: shrinking decrements gd. *)
Definition DecrGlobalDepth (d : Directory) : Directory :=
  {| max_depth_ := max_depth_ d; global_depth_ := global_depth_ d - 1;
     local_depths_ := local_depths_ d;
     bucket_page_ids_ := bucket_page_ids_ d |}.

(** The live slots 0 .. 2^gd - 1. *)
Definition slots (d : Directory) : list Z :=
  map Z.of_nat (seq 0 (Z.to_nat (2 ^ global_depth_ d))).

(** Modelled from the spec: CanShrink holds when every ld[i] < gd. *)
Definition CanShrink (d : Directory) : bool :=
  (0 <? global_depth_ d) &&
  forallb (fun i => local_depths_ d i <? global_depth_ d) (slots d).

(** The directory invariant of the spec: two live slots share a bucket
    exactly when they agree modulo 2^ld and have the same local depth. *)
Definition same_bucket (d : Directory) (i j : Z) : bool :=
  bucket_page_ids_ d i =? bucket_page_ids_ d j.

Definition should_share (d : Directory) (i j : Z) : bool :=
  (i mod 2 ^ local_depths_ d i =? j mod 2 ^ local_depths_ d i) &&
  (local_depths_ d i =? local_depths_ d j).

Definition directory_invariant (d : Directory) : bool :=
  forallb (fun i =>
    forallb (fun j => Bool.eqb (same_bucket d i j) (should_share d i j)) (slots d))
    (slots d).

(** After a split whose image is slot [split_idx]: every live slot with the
    low ld bits of [split_idx] points to the sibling page. *)
Definition image_slots_retargeted (d : Directory) (split_idx sibling : Z) : bool :=
  let m := GetLocalDepthMask d split_idx in
  forallb (fun i =>
    implb (Z.land i m =? Z.land split_idx m) (bucket_page_ids_ d i =? sibling))
    (slots d).

(** The directory one completed split round leaves behind. *)
Definition split_directory (d : Directory) (bucket_idx split_id : Z) : Directory :=
  let d1 := if GetLocalDepth d bucket_idx =? GetGlobalDepth d
            then IncrGlobalDepth d else d in
  let d2 := IncrLocalDepth d1 bucket_idx in
  let d3 := IncrLocalDepth d2 (GetSplitImageIndex d2 bucket_idx) in
  SetBucketPageId d3 (GetSplitImageIndex d2 bucket_idx) split_id.

(** Depths of a directory in range: 0 <= gd <= max_depth and
    0 <= ld[i] <= gd on the live slots. *)
Definition dir_ok (d : Directory) : Prop :=
  0 <= global_depth_ d <= max_depth_ d /\
  forall i, 0 <= i < 2 ^ global_depth_ d ->
            0 <= local_depths_ d i <= global_depth_ d.

(** What the coalescing loop keeps about [indexes]: no repetition, the
    current slot is among them, and every collected slot has the current
    slot's local depth and its low ld bits. *)
Definition indexes_ok (d : Directory) (bucket_idx : Z) (indexes : list Z) : Prop :=
  List.NoDup indexes /\ In bucket_idx indexes /\
  forall idx, In idx indexes ->
    local_depths_ d idx = local_depths_ d bucket_idx /\
    idx mod 2 ^ local_depths_ d bucket_idx
    = bucket_idx mod 2 ^ local_depths_ d bucket_idx.

(** ** Bucket pages and the table *)

Section Table.

Context {K V : Type}.
(** The user comparator (0 means equal) and the user hash function. *)
Variable cmp : K -> K -> Z.
Variable hash_fn : K -> Z.

Definition Hash (key : K) : Z := u32 (hash_fn key).

(** Modelled from the spec: ExtendibleHTableBucketPage is defined in
    storage/page/extendible_htable_bucket_page.cpp, which is not among the
    sources.  A bucket is an ordered array of at most max_size key/value
    pairs with unique keys: Insert fails on a full bucket and on a key
    that is present, Lookup and Remove scan with the comparator. *)
Record Bucket : Type := mkBucket {
  b_max_size_ : Z;
  entries_ : list (K * V)
}.

(** Modelled from the spec: Init leaves the bucket empty. *)
Definition BucketInit (max_size : Z) : Bucket :=
  {| b_max_size_ := max_size; entries_ := [] |}.

(** Modelled from the spec: Size, IsFull and IsEmpty of a bucket page. *)
Definition BucketSize (b : Bucket) : Z := Z.of_nat (length (entries_ b)).
Definition IsFull (b : Bucket) : bool := b_max_size_ b <=? BucketSize b.
Definition IsEmpty (b : Bucket) : bool := BucketSize b =? 0.

(** Modelled from the spec: two keys are equal when the comparator says 0. *)
Definition key_matches (key : K) (e : K * V) : bool := cmp (fst e) key =? 0.

(** Modelled from the spec: Lookup is a linear scan with the comparator. *)
Definition Lookup (b : Bucket) (key : K) : option V :=
  match List.find (key_matches key) (entries_ b) with
  | Some e => Some (snd e)
  | None => None
  end.

(** Modelled from the spec: Insert appends the pair unless the bucket is
    full or the key is present. *)
Definition BucketInsert (b : Bucket) (key : K) (value : V) : bool * Bucket :=
  if IsFull b then (false, b)
  else match Lookup b key with
       | Some _ => (false, b)
       | None => (true, {| b_max_size_ := b_max_size_ b;
                           entries_ := entries_ b ++ [(key, value)] |})
       end.

(** Modelled from the spec: Remove deletes the entry of the key, keeping the
    order of the others. *)
Fixpoint remove_first (key : K) (l : list (K * V)) : option (list (K * V)) :=
  match l with
  | [] => None
  | e :: l' =>
      if key_matches key e then Some l'
      else match remove_first key l' with
           | Some r => Some (e :: r)
           | None => None
           end
  end.

(** Modelled from the spec: Remove reports whether the key was present. *)
Definition BucketRemove (b : Bucket) (key : K) : bool * Bucket :=
  match remove_first key (entries_ b) with
  | Some l => (true, {| b_max_size_ := b_max_size_ b; entries_ := l |})
  | None => (false, b)
  end.

(** The table with the pages it reaches through the buffer pool.  The pool
    is abstracted to a store of typed pages addressed by page id: a guard's
    pointer is the page id, a write through the pointer updates the store.
    NewPageGuarded hands out increasing page ids; [delete_calls_] logs the
    arguments of the DeletePage calls. *)
Record HashTable : Type := mkTable {
  header_max_depth_ : Z;
  directory_max_depth_ : Z;
  bucket_max_size_ : Z;
  header_ : Header;
  dirs_ : Z -> Directory;
  bkts_ : Z -> Bucket;
  next_page_id_ : Z;
  delete_calls_ : list Z
}.

Definition set_header (t : HashTable) (h : Header) : HashTable :=
  {| header_max_depth_ := header_max_depth_ t;
     directory_max_depth_ := directory_max_depth_ t;
     bucket_max_size_ := bucket_max_size_ t;
     header_ := h; dirs_ := dirs_ t; bkts_ := bkts_ t;
     next_page_id_ := next_page_id_ t; delete_calls_ := delete_calls_ t |}.

Definition set_dir (t : HashTable) (page_id : Z) (d : Directory) : HashTable :=
  {| header_max_depth_ := header_max_depth_ t;
     directory_max_depth_ := directory_max_depth_ t;
     bucket_max_size_ := bucket_max_size_ t;
     header_ := header_ t; dirs_ := <[page_id := d]> (dirs_ t); bkts_ := bkts_ t;
     next_page_id_ := next_page_id_ t; delete_calls_ := delete_calls_ t |}.

Definition set_bucket (t : HashTable) (page_id : Z) (b : Bucket) : HashTable :=
  {| header_max_depth_ := header_max_depth_ t;
     directory_max_depth_ := directory_max_depth_ t;
     bucket_max_size_ := bucket_max_size_ t;
     header_ := header_ t; dirs_ := dirs_ t; bkts_ := <[page_id := b]> (bkts_ t);
     next_page_id_ := next_page_id_ t; delete_calls_ := delete_calls_ t |}.

Definition NewPageGuarded (t : HashTable) : Z * HashTable :=
  (next_page_id_ t,
   {| header_max_depth_ := header_max_depth_ t;
      directory_max_depth_ := directory_max_depth_ t;
      bucket_max_size_ := bucket_max_size_ t;
      header_ := header_ t; dirs_ := dirs_ t; bkts_ := bkts_ t;
      next_page_id_ := next_page_id_ t + 1; delete_calls_ := delete_calls_ t |}).

(** [bpm_->DeletePage(page_id)] as the table sees it: the call is logged. *)
Definition bpm_DeletePage (t : HashTable) (page_id : Z) : HashTable :=
  {| header_max_depth_ := header_max_depth_ t;
     directory_max_depth_ := directory_max_depth_ t;
     bucket_max_size_ := bucket_max_size_ t;
     header_ := header_ t; dirs_ := dirs_ t; bkts_ := bkts_ t;
     next_page_id_ := next_page_id_ t;
     delete_calls_ := delete_calls_ t ++ [page_id] |}.

(** The constructor: the header page is the first page of the pool. *)
Definition new_table (header_max_depth directory_max_depth bucket_max_size : Z)
  : HashTable :=
  {| header_max_depth_ := header_max_depth;
     directory_max_depth_ := directory_max_depth;
     bucket_max_size_ := bucket_max_size;
     header_ := HeaderInit header_max_depth;
     dirs_ := fun _ => DirInit directory_max_depth;
     bkts_ := fun _ => BucketInit bucket_max_size;
     next_page_id_ := 1; delete_calls_ := [] |}.

(** ** GetValue *)

Definition GetValue (key : K) (result : list V) (t : HashTable) : bool * list V :=
  let hash_value := Hash key in
  let dir_id :=
    GetDirectoryPageId (header_ t) (HashToDirectoryIndex (header_ t) hash_value) in
  if dir_id =? INVALID_PAGE_ID then (false, result)
  else
    let dir := dirs_ t dir_id in
    let bucket_id := GetBucketPageId dir (HashToBucketIndex dir hash_value) in
    if bucket_id =? INVALID_PAGE_ID then (false, result)
    else
      match Lookup (bkts_ t bucket_id) key with
      | Some ans => (true, result ++ [ans])
      | None => (false, result)
      end.

(** ** Insert *)

Definition InsertToNewBucket (t : HashTable) (dir_page bucket_idx : Z)
    (key : K) (value : V) : outcome bool * HashTable :=
  let (new_id, t1) := NewPageGuarded t in
  let t2 := set_bucket t1 new_id (BucketInit (bucket_max_size_ t1)) in
  let t3 := set_dir t2 dir_page
              (SetBucketPageId (dirs_ t2 dir_page) bucket_idx new_id) in
  let (ok, b) := BucketInsert (bkts_ t3 new_id) key value in
  (Return ok, set_bucket t3 new_id b).

Definition InsertToNewDirectory (t : HashTable) (directory_idx hash : Z)
    (key : K) (value : V) : outcome bool * HashTable :=
  let (new_dir_id, t1) := NewPageGuarded t in
  let t2 := set_dir t1 new_dir_id (DirInit (directory_max_depth_ t1)) in
  let t3 := set_header t2 (SetDirectoryPageId (header_ t2) directory_idx new_dir_id) in
  let bucket_id := HashToBucketIndex (dirs_ t3 new_dir_id) hash in
  InsertToNewBucket t3 new_dir_id bucket_id key value.

(** UpdateDirectoryMapping writes one slot; the other three arguments are
    not used. *)
Definition UpdateDirectoryMapping (d : Directory)
    (new_bucket_idx new_bucket_page_id new_local_depth local_depth_mask : Z)
  : Directory :=
  SetBucketPageId d new_bucket_idx new_bucket_page_id.

(** The second loop over temp_arr: an entry whose slot now points to the
    sibling page moves there, any other must still route to the old page. *)
Fixpoint redistribute (temp_arr : list (K * V)) (dir_page split_id bucket_page : Z)
    (t : HashTable) : outcome unit * HashTable :=
  match temp_arr with
  | [] => (Return tt, t)
  | (k, v) :: rest =>
      let dir := dirs_ t dir_page in
      let insert_idx := HashToBucketIndex dir (Hash k) in
      let insert_page := GetBucketPageId dir insert_idx in
      if insert_page =? split_id then
        let t1 := set_bucket t split_id (snd (BucketInsert (bkts_ t split_id) k v)) in
        let t2 := set_bucket t1 bucket_page
                    (snd (BucketRemove (bkts_ t1 bucket_page) k)) in
        redistribute rest dir_page split_id bucket_page t2
      else if insert_page =? bucket_page then
        redistribute rest dir_page split_id bucket_page t
      else (AssertFailed, t)
  end.

(** What one pass over a full bucket ends in: a return value, or the
    recursive call [return Insert(key, value, transaction)]. *)
Inductive round : Type :=
| Finished (b : bool)
| Again.

(** Lines 119-175 of Insert: the bucket at [bucket_page] is full. *)
Definition SplitRound (t : HashTable) (dir_page bucket_idx bucket_page : Z)
    (key : K) (value : V) : outcome round * HashTable :=
  let hash_value := Hash key in
  if negb (IsFull (bkts_ t bucket_page)) then (AssertFailed, t)
  else
    let grow := GetLocalDepth (dirs_ t dir_page) bucket_idx
                =? GetGlobalDepth (dirs_ t dir_page) in
    let t1 := if grow then set_dir t dir_page (IncrGlobalDepth (dirs_ t dir_page))
              else t in
    if grow && (GetLocalDepth (dirs_ t1 dir_page) bucket_idx
                =? GetGlobalDepth (dirs_ t1 dir_page))
    then (Return (Finished false), t1)
    else
      let t2 := set_dir t1 dir_page (IncrLocalDepth (dirs_ t1 dir_page) bucket_idx) in
      let (split_id, t3) := NewPageGuarded t2 in
      let t4 := set_bucket t3 split_id (BucketInit (bucket_max_size_ t3)) in
      let mask := GetLocalDepthMask (dirs_ t4 dir_page) bucket_idx in
      let split_idx := GetSplitImageIndex (dirs_ t4 dir_page) bucket_idx in
      let t5 := set_dir t4 dir_page (IncrLocalDepth (dirs_ t4 dir_page) split_idx) in
      if negb (GetLocalDepth (dirs_ t5 dir_page) bucket_idx
               =? GetLocalDepth (dirs_ t5 dir_page) split_idx)
      then (AssertFailed, t5)
      else
        let t6 := set_dir t5 dir_page
                    (UpdateDirectoryMapping (dirs_ t5 dir_page) split_idx split_id
                       (GetLocalDepth (dirs_ t5 dir_page) split_idx) mask) in
        let temp_arr := entries_ (bkts_ t6 bucket_page) in
        match redistribute temp_arr dir_page split_id bucket_page t6 with
        | (Return _, t7) =>
            let insert_idx := HashToBucketIndex (dirs_ t7 dir_page) hash_value in
            let insert_page := GetBucketPageId (dirs_ t7 dir_page) insert_idx in
            if insert_page =? split_id then
              let (is_succ, b) := BucketInsert (bkts_ t7 split_id) key value in
              (Return (if is_succ then Finished true else Again),
               set_bucket t7 split_id b)
            else if insert_page =? bucket_page then
              let (is_succ, b) := BucketInsert (bkts_ t7 bucket_page) key value in
              (Return (if is_succ then Finished true else Again),
               set_bucket t7 bucket_page b)
            else (AssertFailed, t7)
        | (Throw msg, t7) => (Throw msg, t7)
        | (AssertFailed, t7) => (AssertFailed, t7)
        | (OutOfFuel, t7) => (OutOfFuel, t7)
        end.

(** Insert; [fuel] bounds the depth of the recursion. *)
Fixpoint Insert (fuel : nat) (key : K) (value : V) (t : HashTable)
  : outcome bool * HashTable :=
  match fuel with
  | O => (OutOfFuel, t)
  | S fuel' =>
      let hash_value := Hash key in
      let dir_idx := HashToDirectoryIndex (header_ t) hash_value in
      let dir_page := GetDirectoryPageId (header_ t) dir_idx in
      if dir_page =? INVALID_PAGE_ID then
        InsertToNewDirectory t dir_idx hash_value key value
      else
        let bucket_idx := HashToBucketIndex (dirs_ t dir_page) hash_value in
        let bucket_page := GetBucketPageId (dirs_ t dir_page) bucket_idx in
        if bucket_page =? INVALID_PAGE_ID then
          InsertToNewBucket t dir_page bucket_idx key value
        else
          match BucketInsert (bkts_ t bucket_page) key value with
          | (true, b) => (Return true, set_bucket t bucket_page b)
          | (false, _) =>
              match Lookup (bkts_ t bucket_page) key with
              | Some _ => (Return false, t)
              | None =>
                  match SplitRound t dir_page bucket_idx bucket_page key value with
                  | (Return (Finished b), t') => (Return b, t')
                  | (Return Again, t') => Insert fuel' key value t'
                  | (Throw msg, t') => (Throw msg, t')
                  | (AssertFailed, t') => (AssertFailed, t')
                  | (OutOfFuel, t') => (OutOfFuel, t')
                  end
              end
          end
  end.

(** ** Remove *)

(** The body of [for (auto idx : indexes)]. *)
Definition retarget (set_page : Z) (d : Directory) (idx : Z) : Directory :=
  SetBucketPageId (DecrLocalDepth d idx) idx set_page.

(** The coalescing loop [while (dir_ptr->GetLocalDepth(bucket_idx) > 0)]. *)
Fixpoint merge_loop (fuel : nat) (dir_page bucket_idx bucket_page : Z)
    (indexes : list Z) (t : HashTable) : outcome unit * HashTable :=
  match fuel with
  | O => (OutOfFuel, t)
  | S fuel' =>
      let dir := dirs_ t dir_page in
      if 0 <? GetLocalDepth dir bucket_idx then
        let split_idx := GetSplitImageIndex dir bucket_idx in
        if negb (GetLocalDepth dir bucket_idx =? GetLocalDepth dir split_idx)
        then (Return tt, t)
        else
          let split_page := GetBucketPageId dir split_idx in
          if negb (IsEmpty (bkts_ t bucket_page)) && negb (IsEmpty (bkts_ t split_page))
          then (Return tt, t)
          else
            let indexes' := indexes ++ [split_idx] in
            let set_page :=
              if IsEmpty (bkts_ t bucket_page) then split_page else bucket_page in
            let t1 := set_dir t dir_page (fold_left (retarget set_page) indexes' dir) in
            if IsEmpty (bkts_ t1 bucket_page) then
              merge_loop fuel' dir_page split_idx split_page indexes'
                         (bpm_DeletePage t1 bucket_page)
            else
              merge_loop fuel' dir_page bucket_idx bucket_page indexes'
                         (bpm_DeletePage t1 split_page)
      else (Return tt, t)
  end.

(** [while (dir_ptr->CanShrink()) dir_ptr->DecrGlobalDepth();] *)
Fixpoint shrink_loop (fuel : nat) (d : Directory) : outcome unit * Directory :=
  match fuel with
  | O => (OutOfFuel, d)
  | S fuel' =>
      if CanShrink d then shrink_loop fuel' (DecrGlobalDepth d)
      else (Return tt, d)
  end.

Definition Remove (fuel : nat) (key : K) (t : HashTable) : outcome bool * HashTable :=
  let hash_value := Hash key in
  let dir_idx := HashToDirectoryIndex (header_ t) hash_value in
  let dir_page := GetDirectoryPageId (header_ t) dir_idx in
  if dir_page =? INVALID_PAGE_ID then (Return false, t)
  else
    let bucket_idx := HashToBucketIndex (dirs_ t dir_page) hash_value in
    let bucket_page := GetBucketPageId (dirs_ t dir_page) bucket_idx in
    if bucket_page =? INVALID_PAGE_ID then (Return false, t)
    else
      let (is_succ, b) := BucketRemove (bkts_ t bucket_page) key in
      if negb is_succ then (Return false, t)
      else
        let t1 := set_bucket t bucket_page b in
        match merge_loop fuel dir_page bucket_idx bucket_page [bucket_idx] t1 with
        | (Return _, t2) =>
            match shrink_loop fuel (dirs_ t2 dir_page) with
            | (Return _, d) => (Return true, set_dir t2 dir_page d)
            | (Throw msg, d) => (Throw msg, set_dir t2 dir_page d)
            | (AssertFailed, d) => (AssertFailed, set_dir t2 dir_page d)
            | (OutOfFuel, d) => (OutOfFuel, set_dir t2 dir_page d)
            end
        | (Throw msg, t2) => (Throw msg, t2)
        | (AssertFailed, t2) => (AssertFailed, t2)
        | (OutOfFuel, t2) => (OutOfFuel, t2)
        end.

(** ** Routing of a key, used to state termination of Insert *)

(** The directory and slot a key is routed to. *)
Definition routed_directory (t : HashTable) (key : K) : Directory :=
  dirs_ t (GetDirectoryPageId (header_ t)
             (HashToDirectoryIndex (header_ t) (Hash key))).

Definition routed_slot (t : HashTable) (key : K) : Z :=
  HashToBucketIndex (routed_directory t key) (Hash key).



(** ** Reachable tables *)

(** What Insert and Remove keep: page ids are not negative and every
    directory page has its depths in range. *)
Definition table_ok (t : HashTable) : Prop :=
  0 <= next_page_id_ t /\ 0 <= directory_max_depth_ t /\
  forall p, dir_ok (dirs_ t p).

(** The tables the public operations produce from a fresh table; a call
    that does not return (a failed assert aborts the process) yields none. *)
Inductive reachable : HashTable -> Prop :=
| reach_new (header_max_depth directory_max_depth bucket_max_size : Z) :
    0 <= directory_max_depth ->
    reachable (new_table header_max_depth directory_max_depth bucket_max_size)
| reach_Insert (t t' : HashTable) (fuel : nat) (key : K) (value : V) (b : bool) :
    reachable t -> Insert fuel key value t = (Return b, t') -> reachable t'
| reach_Remove (t t' : HashTable) (fuel : nat) (key : K) (b : bool) :
    reachable t -> Remove fuel key t = (Return b, t') -> reachable t'.

End Table.

End ExtendibleHash.

(** * Concrete instances used by the worked examples *)

Module Examples.

Import ExtendibleHash.

(** IntComparator and the identity hash on int keys. *)
Definition IntComparator (a b : Z) : Z :=
  if a <? b then -1 else if b <? a then 1 else 0.
Definition id_hash (k : Z) : Z := k.

Definition insert_int (k v : Z) (t : @HashTable Z Z) : outcome bool * HashTable :=
  Insert IntComparator id_hash 16 k v t.

Definition then_insert (k v : Z) (t : @HashTable Z Z) : HashTable :=
  snd (insert_int k v t).

(** header_max_depth 0, directory_max_depth 3, bucket_max_size 1. *)
Definition empty_table : @HashTable Z Z := new_table 0 3 1.

(** The directory every key is routed to (header_max_depth is 0). *)
Definition the_directory (t : @HashTable Z Z) : Directory :=
  dirs_ t (GetDirectoryPageId (header_ t) 0).

(** The directory as lists over the first eight slots. *)
Definition pointers (t : @HashTable Z Z) : list Z :=
  map (bucket_page_ids_ (the_directory t)) [0; 1; 2; 3; 4; 5; 6; 7].
Definition depths (t : @HashTable Z Z) : list Z :=
  map (local_depths_ (the_directory t)) [0; 1; 2; 3; 4; 5; 6; 7].

(** Inserts in sequence, each with recursion budget 1: an outcome other than
    OutOfFuel shows that the call did not take the recursive call. *)
Fixpoint insert_each (keys : list Z) (t : @HashTable Z Z)
  : list (outcome bool) * HashTable :=
  match keys with
  | [] => ([], t)
  | k :: rest =>
      let (o, t1) := Insert IntComparator id_hash 1 k (10 * k) t in
      let (os, t2) := insert_each rest t1 in
      (o :: os, t2)
  end.

(** Inserts of 0, 1, 2, 4: global depth 3, the bucket of the odd keys has
    local depth 1 and four slots. *)
Definition table_0_1_2_4 : @HashTable Z Z :=
  snd (insert_each [0; 1; 2; 4] empty_table).

(** Inserts of 0, 1, 3, 2, 4: global depth 3, every bucket of local depth 2
    has two slots. *)
Definition table_0_1_3_2_4 : @HashTable Z Z :=
  snd (insert_each [0; 1; 3; 2; 4] empty_table).

(** A replacer for ten frames with k = 2. *)
Definition replacer_10_2 : Replacer.LRUKReplacer := Replacer.init 10 2.

Definition access (f : Z) (r : Replacer.LRUKReplacer) : Replacer.LRUKReplacer :=
  snd (Replacer.RecordAccess f r).
Definition mark_evictable (f : Z) (r : Replacer.LRUKReplacer) : Replacer.LRUKReplacer :=
  snd (Replacer.SetEvictable f true r).

(** Accesses to frames 1, 2, 3, 1, 2 at timestamps 1..5, then all three
    frames set evictable. *)
Definition scenario_replacer : Replacer.LRUKReplacer :=
  mark_evictable 3 (mark_evictable 2 (mark_evictable 1
    (access 2 (access 1 (access 3 (access 2 (access 1 replacer_10_2))))))).

(** A pool of two frames: page 7 sits in frame 0 with pin count 1, frame 1
    is free. *)
Definition one_pinned_page : BufferPool.BufferPoolManager :=
  {| BufferPool.pool_size_ := 2;
     BufferPool.pages_ := fun _ =>
       {| BufferPool.data_ := []; BufferPool.page_id_ := 7;
          BufferPool.pin_count_ := 1; BufferPool.is_dirty_ := false |};
     BufferPool.page_table_ := {[ 7 := 0 ]};
     BufferPool.free_list_ := [1];
     BufferPool.replacer_ :=
       snd (Replacer.SetEvictable 0 false
              (snd (Replacer.RecordAccess 0 (Replacer.init 2 2))));
     BufferPool.next_page_id_ := 8;
     BufferPool.free_ids_ := [] |}.

(** Scenarios 3 and 4 of the spec: bucket_max_size 2 with directory_max_depth
    2, and bucket_max_size 1 with directory_max_depth 1. *)
Definition table_2_2 : @HashTable Z Z := new_table 0 2 2.
Definition table_1_1 : @HashTable Z Z := new_table 0 1 1.

End Examples.

(** * Page guards (src/storage/page/page_guard.cpp) and the guarded fetches
      of the buffer pool manager *)

Module PageGuard.

(** Why a call does not come back: it dereferences a null [Page *], or it
    waits for a latch that the running thread cannot be given. *)
Inductive stuck : Type :=
| NullDereference
| WouldBlock.

(** Modelled from the spec: the reader-writer latch of a frame
    (Page::RLatch, WLatch, RUnlatch, WUnlatch of page.h, not among the
    sources).  Several readers may hold it, a writer holds it alone. *)
Record Latch : Type := mkLatch {
  readers_ : nat;
  writer_ : bool
}.

Definition free_latch : Latch := {| readers_ := 0; writer_ := false |}.

Definition RLatch (l : Latch) : option Latch :=
  if writer_ l then None
  else Some {| readers_ := S (readers_ l); writer_ := false |}.

Definition WLatch (l : Latch) : option Latch :=
  if writer_ l || negb (Nat.eqb (readers_ l) 0) then None
  else Some {| readers_ := readers_ l; writer_ := true |}.

Definition RUnlatch (l : Latch) : Latch :=
  {| readers_ := Nat.pred (readers_ l); writer_ := writer_ l |}.

Definition WUnlatch (l : Latch) : Latch :=
  {| readers_ := readers_ l; writer_ := false |}.

(** The pool, its disk and the latches of its frames. *)
Record World : Type := mkWorld {
  pool_ : BufferPoolDisk.Pool;
  latches_ : Z -> Latch
}.

Definition set_pool (w : World) (p : BufferPoolDisk.Pool) : World :=
  {| pool_ := p; latches_ := latches_ w |}.

Definition set_bpm (w : World) (s : BufferPool.BufferPoolManager) : World :=
  set_pool w {| BufferPoolDisk.bpm_ := s;
                BufferPoolDisk.disk_ := BufferPoolDisk.disk_ (pool_ w) |}.

Definition set_latch (w : World) (f : Z) (l : Latch) : World :=
  {| pool_ := pool_ w; latches_ := <[f := l]> (latches_ w) |}.

(** Modelled from the spec: the members of BasicPageGuard (page_guard.h,
    not among the sources).  [bpm_] is null or points to the pool, [page_]
    is null or points to the frame with the given index. *)
Record BasicPageGuard : Type := mkGuard {
  bpm_ : bool;
  page_ : option Z;
  is_dirty_ : bool
}.

(** What the three assignments [bpm_ = nullptr; page_ = nullptr;
    is_dirty_ = false] leave. *)
Definition inert : BasicPageGuard :=
  {| bpm_ := false; page_ := None; is_dirty_ := false |}.

(** Modelled from the spec: BasicPageGuard(bpm, page) of page_guard.h, with
    [bpm] the pool; [is_dirty_] starts false. *)
Definition make_guard (page : option Z) : BasicPageGuard :=
  {| bpm_ := true; page_ := page; is_dirty_ := false |}.

(** BasicPageGuard(BasicPageGuard &&that): the new guard and what is left
    of [that]. *)
Definition move_guard (that : BasicPageGuard) : BasicPageGuard * BasicPageGuard :=
  ({| bpm_ := bpm_ that; page_ := page_ that; is_dirty_ := is_dirty_ that |},
   inert).

(** Drop.  [PageId()] is [page_->GetPageId()] (modelled from the spec:
    page_guard.h), which dereferences [page_]. *)
Definition Drop (g : BasicPageGuard) (w : World)
  : stuck + (outcome unit * BasicPageGuard * World) :=
  if bpm_ g then
    match page_ g with
    | None => inl NullDereference
    | Some f =>
        let s := BufferPoolDisk.bpm_ (pool_ w) in
        let page_id := BufferPool.GetPageId (BufferPool.pages_ s f) in
        match BufferPool.UnpinPage page_id (is_dirty_ g) s with
        | (Return true, s') => inr (Return tt, inert, set_bpm w s')
        | (Return false, s') =>
            inr (Throw "the page is already unpin", g, set_bpm w s')
        | (Throw msg, s') => inr (Throw msg, g, set_bpm w s')
        | (AssertFailed, s') => inr (AssertFailed, g, set_bpm w s')
        | (OutOfFuel, s') => inr (OutOfFuel, g, set_bpm w s')
        end
    end
  else inr (Return tt, g, w).

(** operator=(BasicPageGuard &&that): [this] and [that] afterwards.  The
    operator is noexcept, so an exception that leaves Drop ends the
    process; it is reported as [AssertFailed]. *)
Definition assign (this that : BasicPageGuard) (w : World)
  : stuck + (outcome unit * (BasicPageGuard * BasicPageGuard) * World) :=
  match Drop this w with
  | inl e => inl e
  | inr (Return _, _, w1) => inr (Return tt, move_guard that, w1)
  | inr (_, this1, w1) => inr (AssertFailed, (this1, that), w1)
  end.

(** Modelled from the spec: ReadPageGuard and WritePageGuard (page_guard.h)
    hold one BasicPageGuard, [guard_]; their constructor from (bpm, page)
    builds it with BasicPageGuard(bpm, page). *)
Record ReadPageGuard : Type := mkReadGuard { r_guard_ : BasicPageGuard }.
Record WritePageGuard : Type := mkWriteGuard { w_guard_ : BasicPageGuard }.

(** UpgradeRead: the typed guard and what is left of the basic guard. *)
Definition UpgradeRead (g : BasicPageGuard) (w : World)
  : stuck + (ReadPageGuard * BasicPageGuard * World) :=
  let temp := {| r_guard_ := {| bpm_ := bpm_ g; page_ := page_ g;
                                is_dirty_ := false |} |} in
  if bpm_ g then
    match page_ g with
    | None => inl NullDereference
    | Some f =>
        match RLatch (latches_ w f) with
        | None => inl WouldBlock
        | Some l => inr (temp, inert, set_latch w f l)
        end
    end
  else inr (temp, inert, w).

Definition UpgradeWrite (g : BasicPageGuard) (w : World)
  : stuck + (WritePageGuard * BasicPageGuard * World) :=
  let temp := {| w_guard_ := {| bpm_ := bpm_ g; page_ := page_ g;
                                is_dirty_ := false |} |} in
  if bpm_ g then
    match page_ g with
    | None => inl NullDereference
    | Some f =>
        match WLatch (latches_ w f) with
        | None => inl WouldBlock
        | Some l => inr (temp, inert, set_latch w f l)
        end
    end
  else inr (temp, inert, w).

(** ReadPageGuard::Drop and WritePageGuard::Drop: release the latch, then
    drop the basic guard. *)
Definition ReadDrop (g : ReadPageGuard) (w : World)
  : stuck + (outcome unit * ReadPageGuard * World) :=
  if bpm_ (r_guard_ g) then
    match page_ (r_guard_ g) with
    | None => inl NullDereference
    | Some f =>
        match Drop (r_guard_ g) (set_latch w f (RUnlatch (latches_ w f))) with
        | inl e => inl e
        | inr (o, g', w') => inr (o, {| r_guard_ := g' |}, w')
        end
    end
  else inr (Return tt, g, w).

Definition WriteDrop (g : WritePageGuard) (w : World)
  : stuck + (outcome unit * WritePageGuard * World) :=
  if bpm_ (w_guard_ g) then
    match page_ (w_guard_ g) with
    | None => inl NullDereference
    | Some f =>
        match Drop (w_guard_ g) (set_latch w f (WUnlatch (latches_ w f))) with
        | inl e => inl e
        | inr (o, g', w') => inr (o, {| w_guard_ := g' |}, w')
        end
    end
  else inr (Return tt, g, w).

(** ReadPageGuard::operator=: Drop, then [guard_ = std::move(that.guard_)],
    the move assignment of the basic guard. *)
Definition read_assign (this that : ReadPageGuard) (w : World)
  : stuck + (outcome unit * (ReadPageGuard * ReadPageGuard) * World) :=
  match ReadDrop this w with
  | inl e => inl e
  | inr (Return _, this1, w1) =>
      match assign (r_guard_ this1) (r_guard_ that) w1 with
      | inl e => inl e
      | inr (o, (a, b), w2) => inr (o, ({| r_guard_ := a |}, {| r_guard_ := b |}), w2)
      end
  | inr (_, this1, w1) => inr (AssertFailed, (this1, that), w1)
  end.

Definition write_assign (this that : WritePageGuard) (w : World)
  : stuck + (outcome unit * (WritePageGuard * WritePageGuard) * World) :=
  match WriteDrop this w with
  | inl e => inl e
  | inr (Return _, this1, w1) =>
      match assign (w_guard_ this1) (w_guard_ that) w1 with
      | inl e => inl e
      | inr (o, (a, b), w2) => inr (o, ({| w_guard_ := a |}, {| w_guard_ := b |}), w2)
      end
  | inr (_, this1, w1) => inr (AssertFailed, (this1, that), w1)
  end.

(** *** The guarded fetches of the buffer pool manager
        (buffer_pool_manager.cpp, lines 197-217) *)

Definition FetchPageBasic (page_id : Z) (w : World)
  : outcome BasicPageGuard * World :=
  match BufferPoolDisk.FetchPage page_id (pool_ w) with
  | (Return page, p') => (Return (make_guard page), set_pool w p')
  | (Throw msg, p') => (Throw msg, set_pool w p')
  | (AssertFailed, p') => (AssertFailed, set_pool w p')
  | (OutOfFuel, p') => (OutOfFuel, set_pool w p')
  end.

Definition NewPageGuarded (w : World)
  : outcome (option Z * BasicPageGuard) * World :=
  match BufferPoolDisk.NewPage (pool_ w) with
  | (Return (Some (pit, fit)), p') =>
      (Return (Some pit, make_guard (Some fit)), set_pool w p')
  | (Return None, p') => (Return (None, make_guard None), set_pool w p')
  | (Throw msg, p') => (Throw msg, set_pool w p')
  | (AssertFailed, p') => (AssertFailed, set_pool w p')
  | (OutOfFuel, p') => (OutOfFuel, set_pool w p')
  end.



End PageGuard.

(** The pool of [PoolExamples.pool_page_0_released] with all latches free. *)
Module GuardExamples.

Definition world_0 : PageGuard.World :=
  {| PageGuard.pool_ := PoolExamples.pool_page_0_released;
     PageGuard.latches_ := fun _ => PageGuard.free_latch |}.

(** A basic guard on frame 1, where page 1 is pinned once. *)
Definition guard_1 : PageGuard.BasicPageGuard := PageGuard.make_guard (Some 1).

(** A basic guard on frame 0, whose page nobody pins. *)
Definition guard_0 : PageGuard.BasicPageGuard := PageGuard.make_guard (Some 0).

End GuardExamples.

(** * Sequential scan (src/execution/seq_scan_executor.cpp) *)

Module SeqScan.

(** The part of TupleMeta that Next reads. *)
Record TupleMeta : Type := mkMeta { is_deleted_ : bool }.

(** TableIterator, as far as Next uses it: a forward cursor with IsEnd,
    GetTuple, GetRID and operator++.  The class is not among the sources,
    so the executor is modelled over any implementation of the four
    members. *)
Class TableIterator (Tuple RID Iter : Type) : Type := {
  IsEnd : Iter -> bool;
  GetTuple : Iter -> TupleMeta * Tuple;
  GetRID : Iter -> RID;
  advance : Iter -> Iter
}.

(** A cursor over the rows of a table held in a list: the rows still to
    visit, read with the defaults at the end. *)
#[export] Instance list_iterator {Tuple RID : Type} (t0 : Tuple) (r0 : RID)
  : TableIterator Tuple RID (list (TupleMeta * Tuple * RID)) := {
  IsEnd it := match it with [] => true | _ => false end;
  GetTuple it := match it with [] => ({| is_deleted_ := false |}, t0)
                          | (m, t, _) :: _ => (m, t) end;
  GetRID it := match it with [] => r0 | (_, _, r) :: _ => r end;
  advance it := tl it
}.

Section Executor.

Context {Tuple RID Iter : Type} `{TableIterator Tuple RID Iter}.

(** [plan_->filter_predicate_]: null, or an expression whose value on a
    tuple is read as a bool. *)
Variable filter_predicate_ : option (Tuple -> bool).

(** The state of a call: the cursor [*iter_] and the caller's [*tuple] and
    [*rid]. *)
Record state : Type := mkState {
  iter_ : Iter;
  tuple_ : Tuple;
  rid_ : RID
}.

(** Does the filter let the tuple through?  ([filter_predicate_ != nullptr
    && !Evaluate(...)] is the negation.) *)
Definition passes (t : Tuple) : bool :=
  match filter_predicate_ with
  | Some f => f t
  | None => true
  end.

(** Next; [fuel] bounds the number of iterations of [while (true)]. *)
Fixpoint Next (fuel : nat) (s : state) : outcome bool * state :=
  match fuel with
  | O => (OutOfFuel, s)
  | S fuel' =>
      if IsEnd (iter_ s) then (Return false, s)
      else
        let tp := GetTuple (iter_ s) in
        let s1 := {| iter_ := advance (iter_ s); tuple_ := snd tp;
                     rid_ := GetRID (iter_ s) |} in
        if is_deleted_ (fst tp) then Next fuel' s1
        else if negb (passes (tuple_ s1)) then Next fuel' s1
        else (Return true, s1)
  end.

(** The rows a cursor still visits, looking at most [n] steps ahead. *)
Fixpoint rows (n : nat) (it : Iter) : list (TupleMeta * Tuple * RID) :=
  match n with
  | O => []
  | S n' =>
      if IsEnd it then []
      else (GetTuple it, GetRID it) :: rows n' (advance it)
  end.

(** The cursor is at its end after at most [n] steps. *)
Fixpoint ends_within (n : nat) (it : Iter) : bool :=
  IsEnd it ||
  match n with
  | O => false
  | S n' => ends_within n' (advance it)
  end.

(** A row that Next returns: not deleted and let through by the filter. *)
Definition live (row : TupleMeta * Tuple * RID) : bool :=
  negb (is_deleted_ (fst (fst row))) && passes (snd (fst row)).

(** What Next hands to the caller of a row. *)
Definition emitted (row : TupleMeta * Tuple * RID) : Tuple * RID :=
  (snd (fst row), snd row).

(** The caller's loop [while (Next(&tuple, &rid)) emit(tuple, rid)], run
    for at most [calls] calls. *)
Fixpoint drain (calls fuel : nat) (s : state) : list (Tuple * RID) :=
  match calls with
  | O => []
  | S calls' =>
      match Next fuel s with
      | (Return true, s') => (tuple_ s', rid_ s') :: drain calls' fuel s'
      | _ => []
      end
  end.

End Executor.

End SeqScan.

(** A table of four rows with integer tuples: row 2 is deleted, the filter
    keeps the even tuples. *)
Module ScanExamples.

Import SeqScan.

Definition table : list (TupleMeta * Z * Z) :=
  [ ({| is_deleted_ := false |}, 3, 100);
    ({| is_deleted_ := true |}, 4, 101);
    ({| is_deleted_ := false |}, 6, 102);
    ({| is_deleted_ := false |}, 7, 103) ].

Definition even_filter : option (Z -> bool) := Some Z.even.

Definition start : @state Z Z (list (TupleMeta * Z * Z)) :=
  {| iter_ := table; tuple_ := 0; rid_ := 0 |}.

Definition scan_next (fuel : nat) (s : @state Z Z (list (TupleMeta * Z * Z)))
  : outcome bool * state :=
  @Next Z Z _ (list_iterator 0 0) even_filter fuel s.

End ScanExamples.

(** * Persistent trie (src/primer/trie.cpp) *)

Module PersistentTrie.

(** What Get comes back with: a pointer to the value, nullptr, or no
    return at all when it dereferences the null result of a
    dynamic_cast. *)
Inductive got (A : Type) : Type :=
| Value (a : A)
| Nullptr
| NullDereference.
Arguments Value {A} a.
Arguments Nullptr {A}.
Arguments NullDereference {A}.

Section Trie.

(** The value types a trie is used at ([uint32_t], [std::string], ...) and
    the values of each; [dynamic_cast] tells them apart. *)
Context {ty : Type} `{EqDecision ty}.
Variable val : ty -> Type.

(** A stored value with its type, what a TrieNodeWithValue<T> holds. *)
Definition dyn : Type := {t : ty & val t}.

(** Modelled from the spec: TrieNode and TrieNodeWithValue<T> are declared
    in primer/trie.h, which is not among the sources.  A node holds
    [children_], a std::map from char to child, and is a value node
    exactly when it holds a value; Clone copies the node with its
    children map (the children themselves are shared and never
    modified). *)
#[warnings="-register-all"] Inductive TrieNode : Type :=
| mkTrieNode (children : list (Ascii.ascii * TrieNode)) (value : option dyn).

Definition children_ (n : TrieNode) : list (Ascii.ascii * TrieNode) :=
  match n with mkTrieNode c _ => c end.
Definition value_ (n : TrieNode) : option dyn :=
  match n with mkTrieNode _ v => v end.
Definition is_value_node_ (n : TrieNode) : bool :=
  match value_ n with Some _ => true | None => false end.

(** [std::make_shared<TrieNode>()]. *)
Definition empty_node : TrieNode := mkTrieNode [] None.

(** [children_.find(c)], [children_[c] = n] and [children_.erase(c)]. *)
Fixpoint find_child (l : list (Ascii.ascii * TrieNode)) (c : Ascii.ascii) : option TrieNode :=
  match l with
  | [] => None
  | (c', n) :: l' => if Ascii.eqb c' c then Some n else find_child l' c
  end.

Fixpoint set_child (l : list (Ascii.ascii * TrieNode)) (c : Ascii.ascii) (n : TrieNode)
  : list (Ascii.ascii * TrieNode) :=
  match l with
  | [] => [(c, n)]
  | (c', n') :: l' =>
      if Ascii.eqb c' c then (c', n) :: l' else (c', n') :: set_child l' c n
  end.

Fixpoint erase_child (l : list (Ascii.ascii * TrieNode)) (c : Ascii.ascii)
  : list (Ascii.ascii * TrieNode) :=
  match l with
  | [] => []
  | (c', n') :: l' =>
      if Ascii.eqb c' c then erase_child l' c else (c', n') :: erase_child l' c
  end.

(** A trie is its root pointer: null, or a node. *)
Definition Trie : Type := option TrieNode.

(** [dynamic_cast<const TrieNodeWithValue<T> *>] on a value node. *)
Definition cast (t : ty) (d : dyn) : option (val t) :=
  match decide (projT1 d = t) with
  | left e => Some (eq_rect (projT1 d) val (projT2 d) t e)
  | right _ => None
  end.

(** The walk [for (char c : key)] from a node. *)
Fixpoint walk (key : string) (node : TrieNode) : option TrieNode :=
  match key with
  | EmptyString => Some node
  | String c rest =>
      match find_child (children_ node) c with
      | None => None
      | Some child => walk rest child
      end
  end.

(** *** Get *)
Definition Get (t : ty) (key : string) (root_ : Trie) : got (val t) :=
  match root_ with
  | None => Nullptr
  | Some root =>
      match key with
      | EmptyString =>
          match value_ root with
          | None => Nullptr
          | Some d =>
              match cast t d with
              | Some v => Value v
              | None => NullDereference
              end
          end
      | _ =>
          match walk key root with
          | None => Nullptr
          | Some node =>
              match value_ node with
              | None => Nullptr
              | Some d =>
                  match cast t d with
                  | Some v => Value v
                  | None => Nullptr
                  end
              end
          end
      end
  end.

(** *** Put *)

(** The two loops of Put below the fresh copy [node] of the current node:
    every node on the path but the last is cloned (or created) and linked
    into its parent's copy, the last one becomes a value node that keeps
    the children of the node it replaces. *)
Fixpoint put_walk (key : string) (node : TrieNode) (value : dyn) : TrieNode :=
  match key with
  | EmptyString => node
  | String c rest =>
      let old := find_child (children_ node) c in
      let new_node :=
        match rest with
        | EmptyString =>
            mkTrieNode (match old with Some child => children_ child | None => [] end)
                       (Some value)
        | _ =>
            put_walk rest (match old with Some child => child | None => empty_node end)
                     value
        end in
      mkTrieNode (set_child (children_ node) c new_node) (value_ node)
  end.

Definition Put (key : string) (value : dyn) (root_ : Trie) : Trie :=
  let new_root := match root_ with None => empty_node | Some root => root end in
  match key with
  | EmptyString => Some (mkTrieNode (children_ new_root) (Some value))
  | _ => Some (put_walk key new_root value)
  end.

(** *** Remove *)

(** A node the pruning loop takes out: no children and no value. *)
Definition prunable (n : TrieNode) : bool :=
  match children_ n with [] => negb (is_value_node_ n) | _ => false end.

(** The walk of Remove below the copy [node], followed by the pruning on
    the way back up the stack: [None] when a char of the key is missing
    (Remove then returns the trie it was called on). *)
Fixpoint remove_walk (key : string) (node : TrieNode) : option TrieNode :=
  match key with
  | EmptyString => None
  | String c rest =>
      match find_child (children_ node) c with
      | None => None
      | Some child =>
          let new_node :=
            match rest with
            | EmptyString => Some (mkTrieNode (children_ child) None)
            | _ => remove_walk rest child
            end in
          match new_node with
          | None => None
          | Some n =>
              Some (mkTrieNode
                      (if prunable n then erase_child (children_ node) c
                       else set_child (children_ node) c n)
                      (value_ node))
          end
      end
  end.

Definition Remove (key : string) (root_ : Trie) : Trie :=
  match root_ with
  | None => None
  | Some root =>
      match key with
      | EmptyString =>
          if negb (is_value_node_ root) then root_
          else Some (mkTrieNode (children_ root) None)
      | _ =>
          match remove_walk key root with
          | None => root_
          | Some new_root => if prunable new_root then None else Some new_root
          end
      end
  end.

(** The value stored under a key, if any. *)
Definition value_at (key : string) (root_ : Trie) : option dyn :=
  match root_ with
  | None => None
  | Some root =>
      match walk key root with
      | None => None
      | Some node => value_ node
      end
  end.

End Trie.

End PersistentTrie.

(** Tries over two value types, numbers and strings. *)
Module TrieExamples.

Import PersistentTrie.

Definition val (t : bool) : Type := if t then Z else string.

Definition number (z : Z) : dyn val := existT true z.
Definition text (s : string) : dyn val := existT false s.

Definition trie_ab_a : Trie val :=
  Put val "a" (text "x") (Put val "ab" (number 1) None).

End TrieExamples.

(** * The entries held by the bucket pages of a hash table *)

Module HashTableStore.

Import ExtendibleHash.

Section Store.

Context {K V : Type}.
Variable cmp : K -> K -> Z.
Variable hash_fn : K -> Z.

(** The comparator tells keys apart: it answers 0 on equal keys only. *)
Definition comparator_ok : Prop := forall a b : K, cmp a b = 0 <-> a = b.

(** An entry sits in some bucket page. *)
Definition stored (t : @HashTable K V) (e : K * V) : Prop :=
  exists p, In e (entries_ (bkts_ t p)).

(** The entries the second loop of a split moves: those whose slot points
    to the sibling page. *)
Definition moves (d : Directory) (split_id : Z) (e : K * V) : bool :=
  GetBucketPageId d (HashToBucketIndex d (Hash hash_fn (fst e))) =? split_id.

(** A bucket page of a table with bucket_max_size [m]: it was initialised
    with [m], holds no more than that, and no key twice. *)
Definition bucket_ok (m : Z) (b : @Bucket K V) : Prop :=
  b_max_size_ b = m /\ BucketSize b <= Z.max 0 m /\
  List.NoDup (map fst (entries_ b)).

(** What Insert and Remove keep of the pages: the directories point to
    pages that were handed out, the pages not yet handed out are empty,
    and every bucket page is well formed. *)
Record store_ok (t : @HashTable K V) : Prop := mk_store_ok {
  so_next : 0 <= next_page_id_ t;
  so_ids : forall dp idx, bucket_page_ids_ (dirs_ t dp) idx < next_page_id_ t;
  so_fresh : forall p, next_page_id_ t <= p -> entries_ (bkts_ t p) = [];
  so_buckets : forall p, bucket_ok (bucket_max_size_ t) (bkts_ t p)
}.

End Store.

End HashTableStore.

(** * Worked runs of the hash table *)

Module HashTableRuns.

Import ExtendibleHash Examples.

(** C1.  A split of a bucket whose local depth is two below the global depth
    leaves the directory invariant broken.  After inserts of 0, 1, 2, 4
    (bucket_max_size 1, directory_max_depth 3, identity hash; none of them
    recurses) the invariant holds; Insert(3) completes with true without
    recursing, splits the bucket of the odd keys at slot 3 with image slot 1
    and sibling page 6, and afterwards slots 3 and 5 share page 3 with local
    depths 2 and 1, and slot 5, whose low two bits are those of the image
    slot, does not point to the sibling. *)
Theorem Insert_split_breaks_directory_invariant :
  fst (insert_each [0; 1; 2; 4] empty_table)
    = [Return true; Return true; Return true; Return true] /\
  pointers table_0_1_2_4 = [2; 3; 4; 3; 5; 3; 4; 3] /\
  depths table_0_1_2_4 = [3; 1; 2; 1; 3; 1; 2; 1] /\
  directory_invariant (the_directory table_0_1_2_4) = true /\
  let r := Insert IntComparator id_hash 1 3 30 table_0_1_2_4 in
  fst r = Return true /\
  pointers (snd r) = [2; 6; 4; 3; 5; 3; 4; 3] /\
  depths (snd r) = [3; 2; 2; 2; 3; 1; 2; 1] /\
  directory_invariant (the_directory (snd r)) = false /\
  image_slots_retargeted (the_directory (snd r)) 1 6 = false.
Proof. vm_compute. repeat split; reflexivity. Qed.

(** C2.  The merge step of Remove rewrites only the slots collected in
    [indexes].  After inserts of 0, 1, 3, 2, 4 (none of them recurses) the
    buckets of pages 3 and 4 own slots 1, 5 and 3, 7 at local depth 2 and
    the invariant holds; Remove(3) empties page 4, merges it into page 3
    through slots 3 and 1 only, and hands page 4 to DeletePage: slot 7 still
    points to page 4 and slots 5 and 7 keep local depth 2. *)
Theorem Remove_merge_misses_slots :
  fst (insert_each [0; 1; 3; 2; 4] empty_table)
    = [Return true; Return true; Return true; Return true; Return true] /\
  pointers table_0_1_3_2_4 = [5; 3; 2; 4; 6; 3; 2; 4] /\
  depths table_0_1_3_2_4 = [3; 2; 2; 2; 3; 2; 2; 2] /\
  directory_invariant (the_directory table_0_1_3_2_4) = true /\
  let r := Remove IntComparator id_hash 16 3 table_0_1_3_2_4 in
  fst r = Return true /\
  pointers (snd r) = [5; 3; 2; 3; 6; 3; 2; 4] /\
  depths (snd r) = [3; 1; 2; 1; 3; 2; 2; 2] /\
  delete_calls_ (snd r) = [4].
Proof. vm_compute. repeat split; reflexivity. Qed.

(** Scenario 3 of the spec: keys 0, 4, 8 agree on their low two bits; the
    third insert splits twice, growing the global depth to 2, and then
    fails at the maximal depth. *)
Example scenario_3 :
  let r := insert_int 8 80 (then_insert 4 40 (then_insert 0 0 table_2_2)) in
  fst r = Return false /\ global_depth_ (the_directory (snd r)) = 2.
Proof. vm_compute. split; reflexivity. Qed.

(** Scenario 4 of the spec: with one entry per bucket and one directory bit,
    key 1 joins key 0, key 2 does not. *)
Example scenario_4 :
  fst (insert_int 1 10 (then_insert 0 0 table_1_1)) = Return true /\
  fst (insert_int 2 20 (then_insert 0 0 table_1_1)) = Return false.
Proof. vm_compute. split; reflexivity. Qed.

(** Scenario 5 of the spec: after Insert 0, 1 and Remove 1 the directory is
    back at global depth 0 and its one slot holds the bucket of key 0. *)
Example scenario_5 :
  let r := Remove IntComparator id_hash 16 1
             (then_insert 1 10 (then_insert 0 0 table_1_1)) in
  fst r = Return true /\ global_depth_ (the_directory (snd r)) = 0 /\
  entries_ (bkts_ (snd r) (bucket_page_ids_ (the_directory (snd r)) 0)) = [(0, 0)].
Proof. vm_compute. repeat split; reflexivity. Qed.

End HashTableRuns.

(** * Laws of the hash table *)

Module HashTableProofs.

Import ExtendibleHash.

(** *** Bit arithmetic of slot numbers *)

Lemma low_bits_range (h g : Z) :
  0 <= g -> 0 <= Z.land h (Z.shiftl 1 g - 1) < 2 ^ g.
Proof.
  intros Hg. rewrite Z.shiftl_1_l, Z.sub_1_r, <- Z.ones_equiv, Z.land_ones by lia.
  apply Z.mod_pos_bound. lia.
Qed.



Lemma lxor_moves (b x : Z) : x <> 0 -> Z.lxor b x <> b.
Proof.
  intros Hx He. apply Hx.
  assert (H : x = Z.lxor b (Z.lxor b x))
    by now rewrite <- Z.lxor_assoc, Z.lxor_nilpotent, Z.lxor_0_l.
  rewrite He, Z.lxor_nilpotent in H. exact H.
Qed.

Section Laws.

Context {K V : Type}.
Variable cmp : K -> K -> Z.
Variable hash_fn : K -> Z.


(** *** Buckets *)

Lemma find_app_last (p : K * V -> bool) (l : list (K * V)) (x : K * V) :
  List.find p l = None -> p x = true -> List.find p (l ++ [x]) = Some x.
Proof.
  induction l as [|e l IH]; simpl; intros Hn Hx.
  - now rewrite Hx.
  - destruct (p e); [discriminate | auto].
Qed.

Lemma Lookup_None_find (b : @Bucket K V) (key : K) :
  Lookup cmp b key = None -> List.find (key_matches cmp key) (entries_ b) = None.
Proof. unfold Lookup. destruct (List.find _ _); [discriminate | reflexivity]. Qed.

Lemma BucketInsert_true_Lookup (b b' : @Bucket K V) (key : K) (value : V) :
  cmp key key = 0 ->
  BucketInsert cmp b key value = (true, b') ->
  Lookup cmp b' key = Some value.
Proof.
  intros Hrefl. unfold BucketInsert.
  destruct (IsFull b); [discriminate |].
  destruct (Lookup cmp b key) eqn:HL; [discriminate |].
  intros [= <-]. unfold Lookup; simpl.
  rewrite (find_app_last _ _ (key, value)); auto using Lookup_None_find.
  unfold key_matches; simpl. now rewrite Hrefl.
Qed.

Lemma BucketInsert_present (b : @Bucket K V) (key : K) (value : V) (v0 : V) :
  Lookup cmp b key = Some v0 -> BucketInsert cmp b key value = (false, b).
Proof.
  intros HL. unfold BucketInsert. rewrite HL. now destruct (IsFull b).
Qed.

(** *** Frame of the helpers *)

Lemma redistribute_frame (arr : list (K * V)) (dir_page split_id bucket_page : Z)
    (t : @HashTable K V) :
  let t' := snd (redistribute cmp hash_fn arr dir_page split_id bucket_page t) in
  header_ t' = header_ t /\ dirs_ t' = dirs_ t /\
  next_page_id_ t' = next_page_id_ t.
Proof.
  revert t. induction arr as [|[k v] rest IH]; intros t; simpl; [auto|].
  destruct (_ =? split_id).
  - destruct (IH (set_bucket
                (set_bucket t split_id
                   (snd (BucketInsert cmp (bkts_ t split_id) k v)))
                bucket_page
                (snd (BucketRemove cmp
                   (bkts_ (set_bucket t split_id
                      (snd (BucketInsert cmp (bkts_ t split_id) k v))) bucket_page) k))))
      as (H1 & H2 & H3).
    simpl in *. auto.
  - destruct (_ =? bucket_page); [apply IH | simpl; auto].
Qed.

Lemma dirs_set_dir (t : @HashTable K V) (p : Z) (d : Directory) :
  dirs_ (set_dir t p d) p = d.
Proof. simpl. apply fn_lookup_insert. Qed.

Lemma NewPageGuarded_spec (t t3 : @HashTable K V) (id : Z) :
  NewPageGuarded t = (id, t3) ->
  id = next_page_id_ t /\ header_ t3 = header_ t /\ dirs_ t3 = dirs_ t /\
  bkts_ t3 = bkts_ t /\ next_page_id_ t3 = next_page_id_ t + 1.
Proof. unfold NewPageGuarded. intros [= <- <-]. simpl. auto. Qed.

Lemma SplitRound_Return (t t' : @HashTable K V) (dir_page bucket_idx bucket_page : Z)
    (key : K) (value : V) (r : round) :
  SplitRound cmp hash_fn t dir_page bucket_idx bucket_page key value = (Return r, t') ->
  header_ t' = header_ t /\
  next_page_id_ t <= next_page_id_ t' /\
  (r <> Finished false ->
     dirs_ t' dir_page = split_directory (dirs_ t dir_page) bucket_idx (next_page_id_ t) /\
     (GetLocalDepth (dirs_ t dir_page) bucket_idx = GetGlobalDepth (dirs_ t dir_page) ->
      GetGlobalDepth (dirs_ t dir_page) < max_depth_ (dirs_ t dir_page))) /\
  (r = Finished true ->
     let d := dirs_ t' dir_page in
     let p := GetBucketPageId d (HashToBucketIndex d (Hash hash_fn key)) in
     (p = next_page_id_ t \/ p = bucket_page) /\
     exists b0, BucketInsert cmp b0 key value = (true, bkts_ t' p)).
Proof.
  unfold SplitRound.
  destruct (negb (IsFull _)); [discriminate |].
  set (d := dirs_ t dir_page).
  set (grow := GetLocalDepth d bucket_idx =? GetGlobalDepth d).
  set (t1 := if grow then set_dir t dir_page (IncrGlobalDepth d) else t).
  assert (Hh1 : header_ t1 = header_ t) by (unfold t1; now destruct grow).
  assert (Hn1 : next_page_id_ t1 = next_page_id_ t) by (unfold t1; now destruct grow).
  assert (Hd1 : dirs_ t1 dir_page = if grow then IncrGlobalDepth d else d).
  { unfold t1; destruct grow; [apply dirs_set_dir | reflexivity]. }
  destruct (grow && _) eqn:Hstop.
  - intros [= <- <-]. repeat split; try lia; try congruence.
  - set (t2 := set_dir t1 dir_page (IncrLocalDepth (dirs_ t1 dir_page) bucket_idx)).
    destruct (NewPageGuarded t2) as [split_id t3] eqn:HN.
    apply NewPageGuarded_spec in HN. destruct HN as (Hs & Hh3 & Hd3 & Hb3 & Hn3).
    cbv zeta.
    set (t4 := set_bucket t3 split_id (BucketInit (bucket_max_size_ t3))).
    set (split_idx := GetSplitImageIndex (dirs_ t4 dir_page) bucket_idx).
    set (t5 := set_dir t4 dir_page (IncrLocalDepth (dirs_ t4 dir_page) split_idx)).
    destruct (negb _); [discriminate |].
    set (t6 := set_dir t5 dir_page _).
    pose proof (redistribute_frame (entries_ (bkts_ t6 bucket_page)) dir_page
                  split_id bucket_page t6) as HF.
    destruct (redistribute _ _ _ _ _ _ _) as [o t7]. cbv zeta in HF. cbn [snd] in HF.
    destruct HF as (Hh7 & Hd7 & Hn7).
    assert (HD2 : dirs_ t4 dir_page = IncrLocalDepth (dirs_ t1 dir_page) bucket_idx).
    { unfold t4. simpl. rewrite Hd3. unfold t2. apply dirs_set_dir. }
    assert (HD : dirs_ t7 dir_page = split_directory d bucket_idx (next_page_id_ t)).
    { rewrite Hd7. unfold t6. rewrite dirs_set_dir. unfold t5 at 1.
      rewrite dirs_set_dir. unfold UpdateDirectoryMapping, split_idx.
      rewrite HD2, Hd1, Hs. unfold split_directory. fold grow.
      unfold t2. simpl. now rewrite Hn1. }
    assert (HH : header_ t7 = header_ t).
    { rewrite Hh7. unfold t6, t5, t4. simpl. rewrite Hh3. unfold t2. simpl. exact Hh1. }
    assert (HN : next_page_id_ t7 = next_page_id_ t + 1).
    { rewrite Hn7. unfold t6, t5, t4. simpl. rewrite Hn3. unfold t2. simpl. lia. }
    assert (HG : GetLocalDepth d bucket_idx = GetGlobalDepth d ->
                 GetGlobalDepth d < max_depth_ d).
    { intros He. assert (Hg : grow = true) by (unfold grow; now apply Z.eqb_eq).
      rewrite Hg in Hstop, Hd1. rewrite Hd1 in Hstop. cbn [andb] in Hstop.
      unfold IncrGlobalDepth in Hstop.
      destruct (max_depth_ d <=? global_depth_ d) eqn:Hm.
      - apply Z.eqb_neq in Hstop. contradiction.
      - apply Z.leb_gt in Hm. exact Hm. }
    assert (Hsid : split_id = next_page_id_ t).
    { rewrite Hs. unfold t2. simpl. exact Hn1. }
    destruct o; try discriminate.
    destruct (_ =? split_id) eqn:Hp1.
    + destruct (BucketInsert cmp (bkts_ t7 split_id) key value) as [ok b] eqn:HB.
      intros [= <- <-]. simpl. rewrite HN. apply Z.eqb_eq in Hp1.
      repeat split; try lia; try assumption; try (left; congruence).
      destruct ok; [| discriminate]. rewrite Hp1, fn_lookup_insert. eauto.
    + destruct (_ =? bucket_page) eqn:Hp2; [| discriminate].
      destruct (BucketInsert cmp (bkts_ t7 bucket_page) key value) as [ok b] eqn:HB.
      intros [= <- <-]. simpl. rewrite HN. apply Z.eqb_eq in Hp2.
      repeat split; try lia; try assumption; try (right; congruence).
      destruct ok; [| discriminate]. rewrite Hp2, fn_lookup_insert. eauto.
Qed.




(** *** Insert then GetValue *)

Lemma HashToBucketIndex_depth (d d' : Directory) (h : Z) :
  global_depth_ d = global_depth_ d' -> HashToBucketIndex d h = HashToBucketIndex d' h.
Proof. unfold HashToBucketIndex. now intros ->. Qed.

Lemma InsertToNewBucket_true (t t' : @HashTable K V) (dir_page bucket_idx : Z)
    (key : K) (value : V) :
  cmp key key = 0 ->
  InsertToNewBucket cmp t dir_page bucket_idx key value = (Return true, t') ->
  header_ t' = header_ t /\
  global_depth_ (dirs_ t' dir_page) = global_depth_ (dirs_ t dir_page) /\
  GetBucketPageId (dirs_ t' dir_page) bucket_idx = next_page_id_ t /\
  Lookup cmp (bkts_ t' (next_page_id_ t)) key = Some value.
Proof.
  intros Hrefl. unfold InsertToNewBucket.
  destruct (NewPageGuarded t) as [new_id t1] eqn:HN.
  apply NewPageGuarded_spec in HN. destruct HN as (Hs & Hh & Hd & Hb & Hn).
  cbv zeta.
  destruct (BucketInsert _ _ _ _) as [ok b] eqn:HB.
  intros [= -> <-]. subst new_id. simpl. rewrite !fn_lookup_insert, Hd. simpl.
  rewrite fn_lookup_insert. repeat split; auto.
  eapply BucketInsert_true_Lookup; eauto.
Qed.

Lemma GetValue_found (t : @HashTable K V) (key : K) (value : V) (result : list V)
    (dir_page bucket_page : Z) :
  GetDirectoryPageId (header_ t)
    (HashToDirectoryIndex (header_ t) (Hash hash_fn key)) = dir_page ->
  GetBucketPageId (dirs_ t dir_page)
    (HashToBucketIndex (dirs_ t dir_page) (Hash hash_fn key)) = bucket_page ->
  dir_page <> INVALID_PAGE_ID -> bucket_page <> INVALID_PAGE_ID ->
  Lookup cmp (bkts_ t bucket_page) key = Some value ->
  GetValue cmp hash_fn key result t = (true, result ++ [value]).
Proof.
  intros Hd Hb Hnd Hnb HL. unfold GetValue. rewrite Hd.
  apply Z.eqb_neq in Hnd. rewrite Hnd, Hb.
  apply Z.eqb_neq in Hnb. now rewrite Hnb, HL.
Qed.

Lemma Insert_true_GetValue (fuel : nat) :
  forall (t t' : @HashTable K V) (key : K) (value : V) (result : list V),
  cmp key key = 0 ->
  0 <= next_page_id_ t ->
  Insert cmp hash_fn fuel key value t = (Return true, t') ->
  GetValue cmp hash_fn key result t' = (true, result ++ [value]).
Proof.
  induction fuel as [|fuel IH]; intros t t' key value result Hrefl Hnext;
    [discriminate |].
  cbn [Insert].
  set (h := Hash hash_fn key).
  set (dir_idx := HashToDirectoryIndex (header_ t) h).
  set (dir_page := GetDirectoryPageId (header_ t) dir_idx).
  destruct (dir_page =? INVALID_PAGE_ID) eqn:Hdir.
  - unfold InsertToNewDirectory.
    destruct (NewPageGuarded t) as [new_dir t1] eqn:HN.
    apply NewPageGuarded_spec in HN. destruct HN as (Hs & Hh & Hd & Hb & Hn).
    cbv zeta. intros HI.
    apply InsertToNewBucket_true in HI; [| exact Hrefl].
    destruct HI as (Hh' & Hg' & Hp' & HL'). simpl in Hh', Hg', Hp', HL'.
    rewrite fn_lookup_insert in Hg'. simpl in Hg'.
    apply GetValue_found with (dir_page := new_dir) (bucket_page := next_page_id_ t1).
    + rewrite Hh'. unfold GetDirectoryPageId, HashToDirectoryIndex. simpl.
      rewrite Hh. fold h. unfold HashToDirectoryIndex in dir_idx. fold dir_idx.
      apply fn_lookup_insert.
    + rewrite <- Hp'. f_equal. apply HashToBucketIndex_depth.
      rewrite Hg'. now rewrite fn_lookup_insert.
    + unfold INVALID_PAGE_ID. lia.
    + unfold INVALID_PAGE_ID. lia.
    + exact HL'.
  - set (bucket_idx := HashToBucketIndex (dirs_ t dir_page) h).
    set (bucket_page := GetBucketPageId (dirs_ t dir_page) bucket_idx).
    apply Z.eqb_neq in Hdir.
    destruct (bucket_page =? INVALID_PAGE_ID) eqn:Hbkt.
    + intros HI. apply InsertToNewBucket_true in HI; [| exact Hrefl].
      destruct HI as (Hh' & Hg' & Hp' & HL').
      apply GetValue_found with (dir_page := dir_page) (bucket_page := next_page_id_ t);
        auto.
      * now rewrite Hh'.
      * rewrite <- Hp'. f_equal. now apply HashToBucketIndex_depth.
      * unfold INVALID_PAGE_ID. lia.
    + apply Z.eqb_neq in Hbkt.
      destruct (BucketInsert cmp (bkts_ t bucket_page) key value) as [ok b] eqn:HB.
      destruct ok.
      * intros [= <-].
        apply GetValue_found with (dir_page := dir_page) (bucket_page := bucket_page);
          auto.
        simpl. rewrite fn_lookup_insert. eapply BucketInsert_true_Lookup; eauto.
      * destruct (Lookup cmp (bkts_ t bucket_page) key); [discriminate |].
        destruct (SplitRound cmp hash_fn t dir_page bucket_idx bucket_page key value)
          as [o t1] eqn:HS.
        destruct o as [r | | |]; try discriminate.
        apply SplitRound_Return in HS. destruct HS as (Hh1 & Hn1 & _ & HT).
        destruct r as [b0|].
        -- intros [= -> <-]. destruct (HT eq_refl) as (Hp & b1 & Hb1).
           cbv zeta in Hp, Hb1.
           eapply GetValue_found; try reflexivity; rewrite Hh1;
             fold h; fold dir_idx; fold dir_page.
           ++ exact Hdir.
           ++ fold h in Hp. destruct Hp as [-> | ->];
                [unfold INVALID_PAGE_ID; lia | exact Hbkt].
           ++ fold h in Hb1. eapply BucketInsert_true_Lookup; eauto.
        -- intros HI. eapply IH; [exact Hrefl | | exact HI]. lia.
Qed.

(** *** A second Insert of a key that is present *)

Lemma GetValue_true_inv (t : @HashTable K V) (key : K) (result r' : list V) :
  GetValue cmp hash_fn key result t = (true, r') ->
  exists v,
    r' = result ++ [v] /\
    GetDirectoryPageId (header_ t)
      (HashToDirectoryIndex (header_ t) (Hash hash_fn key)) <> INVALID_PAGE_ID /\
    (let d := dirs_ t (GetDirectoryPageId (header_ t)
                 (HashToDirectoryIndex (header_ t) (Hash hash_fn key))) in
     let p := GetBucketPageId d (HashToBucketIndex d (Hash hash_fn key)) in
     p <> INVALID_PAGE_ID /\ Lookup cmp (bkts_ t p) key = Some v).
Proof.
  unfold GetValue.
  destruct (_ =? INVALID_PAGE_ID) eqn:Hd; [discriminate |].
  destruct (GetBucketPageId _ _ =? INVALID_PAGE_ID) eqn:Hb; [discriminate |].
  destruct (Lookup _ _ _) as [v|] eqn:HL; [| discriminate].
  intros [= <-]. exists v. apply Z.eqb_neq in Hd, Hb. auto.
Qed.

Lemma Insert_present (fuel : nat) (t : @HashTable K V) (key : K) (value : V)
    (result r' : list V) :
  GetValue cmp hash_fn key result t = (true, r') ->
  Insert cmp hash_fn (S fuel) key value t = (Return false, t).
Proof.
  intros HG. apply GetValue_true_inv in HG.
  destruct HG as (v & _ & Hd & Hb & HL). cbv zeta in Hb, HL.
  cbn [Insert]. apply Z.eqb_neq in Hd, Hb. rewrite Hd, Hb.
  rewrite (BucketInsert_present _ _ _ _ HL). now rewrite HL.
Qed.

(** *** Termination of Insert *)






End Laws.

(** C6.  If Insert(k, v) returns true, GetValue(k) on the resulting table
    returns true and appends v to the result vector.  The comparator has to
    report a key equal to itself, and page ids handed out by the pool are
    not negative (INVALID_PAGE_ID is -1). *)
Theorem Insert_then_GetValue {K V : Type} (cmp : K -> K -> Z) (hash_fn : K -> Z)
    (fuel : nat) (t t' : @HashTable K V) (key : K) (value : V) (result : list V) :
  cmp key key = 0 ->
  0 <= next_page_id_ t ->
  Insert cmp hash_fn fuel key value t = (Return true, t') ->
  GetValue cmp hash_fn key result t' = (true, result ++ [value]).
Proof. apply Insert_true_GetValue. Qed.

Lemma Insert_then_GetValue_witness :
  GetValue Examples.IntComparator Examples.id_hash 1 []
    (Examples.then_insert 1 10 (Examples.then_insert 0 0 Examples.empty_table))
  = (true, [10]).
Proof.
  apply (Insert_then_GetValue Examples.IntComparator Examples.id_hash 16
           (Examples.then_insert 0 0 Examples.empty_table) _ 1 10 []).
  - reflexivity.
  - vm_compute. discriminate.
  - vm_compute. reflexivity.
Defined.

(** C7.  After a successful Insert(k, v1), Insert(k, v2) returns false and
    returns the table as it was, and GetValue(k) yields v1 alone. *)
Theorem Insert_duplicate_rejected {K V : Type} (cmp : K -> K -> Z) (hash_fn : K -> Z)
    (fuel fuel' : nat) (t t' : @HashTable K V) (key : K) (v1 v2 : V)
    (result : list V) :
  cmp key key = 0 ->
  0 <= next_page_id_ t ->
  Insert cmp hash_fn fuel key v1 t = (Return true, t') ->
  Insert cmp hash_fn (S fuel') key v2 t' = (Return false, t') /\
  GetValue cmp hash_fn key result t' = (true, result ++ [v1]) /\
  GetValue cmp hash_fn key result (snd (Insert cmp hash_fn (S fuel') key v2 t'))
    = (true, result ++ [v1]).
Proof.
  intros Hrefl Hnext HI.
  pose proof (Insert_true_GetValue cmp hash_fn fuel t t' key v1 result Hrefl Hnext HI)
    as HG.
  pose proof (Insert_present cmp hash_fn fuel' t' key v2 result _ HG) as HD.
  rewrite HD. auto.
Qed.

Lemma Insert_duplicate_rejected_witness :
  let t' := Examples.then_insert 1 10 (Examples.then_insert 0 0 Examples.empty_table) in
  Insert Examples.IntComparator Examples.id_hash 16 1 11 t' = (Return false, t') /\
  GetValue Examples.IntComparator Examples.id_hash 1 [] t' = (true, [10]) /\
  GetValue Examples.IntComparator Examples.id_hash 1 []
    (snd (Insert Examples.IntComparator Examples.id_hash 16 1 11 t')) = (true, [10]).
Proof.
  apply (Insert_duplicate_rejected Examples.IntComparator Examples.id_hash 16 15
           (Examples.then_insert 0 0 Examples.empty_table) _ 1 10 11 []).
  - reflexivity.
  - vm_compute. discriminate.
  - vm_compute. reflexivity.
Defined.

(** C10.  GetValue appends exactly one element to the result vector when it
    returns true and returns the vector as it was when it returns false,
    wherever the miss occurs (header, directory or bucket scan). *)
Theorem GetValue_result_frame {K V : Type} (cmp : K -> K -> Z) (hash_fn : K -> Z)
    (key : K) (result : list V) (t : @HashTable K V) :
  match GetValue cmp hash_fn key result t with
  | (true, r) => exists ans, r = result ++ [ans]
  | (false, r) => r = result
  end.
Proof.
  unfold GetValue.
  destruct (_ =? INVALID_PAGE_ID); [reflexivity |].
  destruct (GetBucketPageId _ _ =? INVALID_PAGE_ID); [reflexivity |].
  destruct (Lookup _ _ _) as [ans|]; [eauto | reflexivity].
Qed.

End HashTableProofs.

(** * Reachable tables keep their depths in range *)

Module HashTableInvariant.

Import ExtendibleHash HashTableProofs.

(** *** Slot numbers modulo a power of two *)

Lemma mod_pow2_weaken (x y n : Z) :
  0 <= n -> x mod 2 ^ (n + 1) = y mod 2 ^ (n + 1) -> x mod 2 ^ n = y mod 2 ^ n.
Proof.
  intros Hn H. apply Z.bits_inj'. intros m Hm.
  destruct (Z.lt_ge_cases m n) as [Hlt | Hge].
  - rewrite !Z.mod_pow2_bits_low by lia.
    rewrite <- (Z.mod_pow2_bits_low x (n + 1) m), <- (Z.mod_pow2_bits_low y (n + 1) m)
      by lia.
    now rewrite H.
  - rewrite !Z.mod_pow2_bits_high by lia. reflexivity.
Qed.

Lemma lxor_bit_low (b n : Z) :
  0 <= n -> Z.lxor b (Z.shiftl 1 n) mod 2 ^ n = b mod 2 ^ n.
Proof.
  intros Hn. rewrite Z.shiftl_1_l. apply Z.bits_inj'. intros m Hm.
  destruct (Z.lt_ge_cases m n) as [Hlt | Hge].
  - rewrite !Z.mod_pow2_bits_low by lia.
    rewrite Z.lxor_spec, Z.pow2_bits_eqb by lia.
    destruct (Z.eqb_spec n m); [lia |]. apply xorb_false_r.
  - rewrite !Z.mod_pow2_bits_high by lia. reflexivity.
Qed.

Lemma lxor_bit_flips (b n : Z) :
  0 <= n -> Z.lxor b (Z.shiftl 1 n) mod 2 ^ (n + 1) <> b mod 2 ^ (n + 1).
Proof.
  intros Hn H. rewrite Z.shiftl_1_l in H.
  assert (Hb : Z.testbit (Z.lxor b (2 ^ n) mod 2 ^ (n + 1)) n
               = Z.testbit (b mod 2 ^ (n + 1)) n) by now rewrite H.
  rewrite !Z.mod_pow2_bits_low in Hb by lia.
  rewrite Z.lxor_spec, Z.pow2_bits_eqb, Z.eqb_refl in Hb by lia.
  destruct (Z.testbit b n); discriminate.
Qed.

Section Invariant.

Context {K V : Type}.
Variable cmp : K -> K -> Z.
Variable hash_fn : K -> Z.

(** *** Directory operations *)

Lemma dir_ok_DirInit (max_depth : Z) : 0 <= max_depth -> dir_ok (DirInit max_depth).
Proof. intros H. unfold dir_ok, DirInit. simpl. split; [lia | intros; lia]. Qed.

Lemma dir_ok_SetBucketPageId (d : Directory) (idx page_id : Z) :
  dir_ok d -> dir_ok (SetBucketPageId d idx page_id).
Proof. now unfold dir_ok. Qed.

Lemma dir_ok_IncrGlobalDepth (d : Directory) : dir_ok d -> dir_ok (IncrGlobalDepth d).
Proof.
  intros [Hgd Hld]. unfold IncrGlobalDepth.
  destruct (max_depth_ d <=? global_depth_ d) eqn:Hm; [split; assumption |].
  apply Z.leb_gt in Hm. unfold dir_ok. simpl. split; [lia |].
  intros i Hi. rewrite Z.pow_add_r, Z.pow_1_r in Hi by lia. unfold double.
  destruct (2 ^ global_depth_ d <=? i) eqn:H1.
  - apply Z.leb_le in H1.
    assert (H2 : (i <? 2 ^ (global_depth_ d + 1)) = true).
    { apply Z.ltb_lt. rewrite Z.pow_add_r, Z.pow_1_r by lia. lia. }
    rewrite H2. simpl.
    specialize (Hld (i - 2 ^ global_depth_ d) ltac:(lia)). lia.
  - apply Z.leb_gt in H1. simpl. specialize (Hld i ltac:(lia)). lia.
Qed.

Lemma IncrGlobalDepth_depth (d : Directory) :
  global_depth_ d <= global_depth_ (IncrGlobalDepth d) <= global_depth_ d + 1.
Proof.
  unfold IncrGlobalDepth. destruct (max_depth_ d <=? global_depth_ d); simpl; lia.
Qed.

Lemma grown_facts (d : Directory) (b : Z) :
  dir_ok d -> 0 <= b < 2 ^ global_depth_ d ->
  (GetLocalDepth d b = GetGlobalDepth d -> GetGlobalDepth d < max_depth_ d) ->
  let d1 := if GetLocalDepth d b =? GetGlobalDepth d then IncrGlobalDepth d else d in
  dir_ok d1 /\ 0 <= b < 2 ^ global_depth_ d1 /\
  local_depths_ d1 b < global_depth_ d1.
Proof.
  intros Hok Hb Hroom. unfold GetLocalDepth, GetGlobalDepth in *.
  destruct Hok as [Hgd Hld]. pose proof (Hld b Hb) as Hldb.
  destruct (local_depths_ d b =? global_depth_ d) eqn:He; cbv zeta.
  - apply Z.eqb_eq in He. specialize (Hroom He).
    split; [apply dir_ok_IncrGlobalDepth; split; assumption |].
    unfold IncrGlobalDepth.
    destruct (max_depth_ d <=? global_depth_ d) eqn:Hm;
      [apply Z.leb_le in Hm; lia |].
    simpl. rewrite Z.pow_add_r, Z.pow_1_r by lia. split; [lia |].
    unfold double.
    destruct (2 ^ global_depth_ d <=? b) eqn:H1; [apply Z.leb_le in H1; lia |].
    simpl. lia.
  - apply Z.eqb_neq in He. split; [split; assumption |]. split; [assumption | lia].
Qed.

Lemma dir_ok_split (d1 : Directory) (b nid : Z) :
  dir_ok d1 -> 0 <= b < 2 ^ global_depth_ d1 ->
  local_depths_ d1 b < global_depth_ d1 ->
  let d2 := IncrLocalDepth d1 b in
  let s := GetSplitImageIndex d2 b in
  let d3 := IncrLocalDepth d2 s in
  GetLocalDepth d3 b = GetLocalDepth d3 s ->
  dir_ok (SetBucketPageId d3 s nid).
Proof.
  intros [Hgd Hld] Hb Hlt d2 s d3 Hassert.
  pose proof (Hld b Hb) as Hldb.
  assert (Hs : s <> b).
  { unfold s, GetSplitImageIndex. apply lxor_moves.
    unfold d2. simpl. rewrite fn_lookup_insert, Z.shiftl_1_l.
    apply Z.pow_nonzero; lia. }
  unfold GetLocalDepth in Hassert. unfold d3 in Hassert. simpl in Hassert.
  rewrite fn_lookup_insert in Hassert.
  rewrite fn_lookup_insert_ne in Hassert by exact Hs.
  rewrite fn_lookup_insert in Hassert.
  unfold dir_ok. simpl. split; [exact Hgd |]. intros i Hi.
  destruct (Z.eq_dec i s) as [-> | Hne].
  - rewrite fn_lookup_insert. lia.
  - rewrite fn_lookup_insert_ne by congruence.
    destruct (Z.eq_dec i b) as [-> | Hne'].
    + rewrite fn_lookup_insert. lia.
    + rewrite fn_lookup_insert_ne by congruence. now apply Hld.
Qed.

(** *** One split round *)

Lemma round_eq_dec (r r' : round) : {r = r'} + {r <> r'}.
Proof. decide equality. apply Bool.bool_dec. Defined.



Lemma NewPageGuarded_max_depth (t t3 : @HashTable K V) (id : Z) :
  NewPageGuarded t = (id, t3) -> directory_max_depth_ t3 = directory_max_depth_ t.
Proof. unfold NewPageGuarded. now intros [= <- <-]. Qed.

Lemma redistribute_max_depth (arr : list (K * V)) (dir_page split_id bucket_page : Z)
    (t : @HashTable K V) :
  directory_max_depth_ (snd (redistribute cmp hash_fn arr dir_page split_id bucket_page t))
  = directory_max_depth_ t.
Proof.
  revert t. induction arr as [|[k v] rest IH]; intros t; simpl; [reflexivity |].
  destruct (_ =? split_id); [now rewrite IH |].
  destruct (_ =? bucket_page); [apply IH | reflexivity].
Qed.

Lemma SplitRound_frame (t t' : @HashTable K V) (dir_page bucket_idx bucket_page : Z)
    (key : K) (value : V) (r : round) :
  SplitRound cmp hash_fn t dir_page bucket_idx bucket_page key value = (Return r, t') ->
  directory_max_depth_ t' = directory_max_depth_ t /\
  (forall p, p <> dir_page -> dirs_ t' p = dirs_ t p) /\
  (r = Finished false -> dirs_ t' dir_page = IncrGlobalDepth (dirs_ t dir_page)) /\
  (r <> Finished false ->
     let d1 := if GetLocalDepth (dirs_ t dir_page) bucket_idx
                  =? GetGlobalDepth (dirs_ t dir_page)
               then IncrGlobalDepth (dirs_ t dir_page) else dirs_ t dir_page in
     let d2 := IncrLocalDepth d1 bucket_idx in
     let s := GetSplitImageIndex d2 bucket_idx in
     GetLocalDepth (IncrLocalDepth d2 s) bucket_idx
     = GetLocalDepth (IncrLocalDepth d2 s) s).
Proof.
  unfold SplitRound.
  destruct (negb (IsFull _)); [discriminate |].
  set (d := dirs_ t dir_page).
  set (grow := GetLocalDepth d bucket_idx =? GetGlobalDepth d).
  set (t1 := if grow then set_dir t dir_page (IncrGlobalDepth d) else t).
  assert (Hm1 : directory_max_depth_ t1 = directory_max_depth_ t)
    by (unfold t1; now destruct grow).
  assert (Hd1 : dirs_ t1 dir_page = if grow then IncrGlobalDepth d else d).
  { unfold t1; destruct grow; [apply dirs_set_dir | reflexivity]. }
  assert (Ho1 : forall p, p <> dir_page -> dirs_ t1 p = dirs_ t p).
  { intros p Hp. unfold t1. destruct grow; [| reflexivity].
    simpl. now rewrite fn_lookup_insert_ne by congruence. }
  destruct (grow && _) eqn:Hstop.
  - intros [= <- <-]. apply andb_prop in Hstop as [Hg _].
    rewrite Hg in Hd1. repeat split; auto. intros Hr. now contradiction Hr.
  - set (t2 := set_dir t1 dir_page (IncrLocalDepth (dirs_ t1 dir_page) bucket_idx)).
    destruct (NewPageGuarded t2) as [split_id t3] eqn:HN.
    pose proof (NewPageGuarded_max_depth _ _ _ HN) as Hm3.
    apply NewPageGuarded_spec in HN. destruct HN as (Hs & Hh3 & Hd3 & Hb3 & Hn3).
    cbv zeta.
    set (t4 := set_bucket t3 split_id (BucketInit (bucket_max_size_ t3))).
    set (split_idx := GetSplitImageIndex (dirs_ t4 dir_page) bucket_idx).
    set (t5 := set_dir t4 dir_page (IncrLocalDepth (dirs_ t4 dir_page) split_idx)).
    destruct (negb _) eqn:Hassert; [discriminate |].
    set (t6 := set_dir t5 dir_page _).
    pose proof (redistribute_frame cmp hash_fn (entries_ (bkts_ t6 bucket_page)) dir_page
                  split_id bucket_page t6) as HF.
    pose proof (redistribute_max_depth (entries_ (bkts_ t6 bucket_page)) dir_page
                  split_id bucket_page t6) as HM.
    destruct (redistribute _ _ _ _ _ _ _) as [o t7]. cbv zeta in HF. cbn [snd] in HF, HM.
    destruct HF as (Hh7 & Hd7 & Hn7).
    assert (HD2 : dirs_ t4 dir_page = IncrLocalDepth (dirs_ t1 dir_page) bucket_idx).
    { unfold t4. simpl. rewrite Hd3. unfold t2. apply dirs_set_dir. }
    assert (HM7 : directory_max_depth_ t7 = directory_max_depth_ t).
    { rewrite HM. unfold t6, t5, t4. simpl. rewrite Hm3. unfold t2. simpl. exact Hm1. }
    assert (HO7 : forall p, p <> dir_page -> dirs_ t7 p = dirs_ t p).
    { intros p Hp. rewrite Hd7. unfold t6, t5, t4. simpl.
      rewrite !fn_lookup_insert_ne by congruence. rewrite Hd3. unfold t2. simpl.
      rewrite fn_lookup_insert_ne by congruence. now apply Ho1. }
    assert (HA : let d1 := if grow then IncrGlobalDepth d else d in
                 let d2 := IncrLocalDepth d1 bucket_idx in
                 let s := GetSplitImageIndex d2 bucket_idx in
                 GetLocalDepth (IncrLocalDepth d2 s) bucket_idx
                 = GetLocalDepth (IncrLocalDepth d2 s) s).
    { apply negb_false_iff, Z.eqb_eq in Hassert. unfold t5 in Hassert.
      rewrite dirs_set_dir in Hassert. unfold split_idx in Hassert.
      rewrite HD2, Hd1 in Hassert. exact Hassert. }
    destruct o; try discriminate.
    destruct (_ =? split_id).
    + destruct (BucketInsert cmp (bkts_ t7 split_id) key value) as [ok b].
      intros [= <- <-]. simpl. repeat split; auto.
      destruct ok; discriminate.
    + destruct (_ =? bucket_page); [| discriminate].
      destruct (BucketInsert cmp (bkts_ t7 bucket_page) key value) as [ok b].
      intros [= <- <-]. simpl. repeat split; auto.
      destruct ok; discriminate.
Qed.

(** *** Insert *)

Lemma InsertToNewBucket_ok (t t' : @HashTable K V) (dir_page bucket_idx : Z)
    (key : K) (value : V) (o : outcome bool) :
  table_ok t ->
  InsertToNewBucket cmp t dir_page bucket_idx key value = (o, t') ->
  table_ok t'.
Proof.
  intros (Hn & Hm & Hd). unfold InsertToNewBucket, NewPageGuarded.
  destruct (BucketInsert _ _ _ _) as [ok b]. intros [= <- <-].
  split; [simpl; lia | split; [exact Hm |]].
  intros p. simpl. destruct (Z.eq_dec p dir_page) as [-> | Hne].
  - rewrite fn_lookup_insert. apply dir_ok_SetBucketPageId, Hd.
  - rewrite fn_lookup_insert_ne by congruence. apply Hd.
Qed.

Lemma InsertToNewDirectory_ok (t t' : @HashTable K V) (dir_idx hash : Z)
    (key : K) (value : V) (o : outcome bool) :
  table_ok t ->
  InsertToNewDirectory cmp t dir_idx hash key value = (o, t') ->
  table_ok t'.
Proof.
  intros (Hn & Hm & Hd). unfold InsertToNewDirectory, NewPageGuarded.
  apply InsertToNewBucket_ok.
  split; [simpl; lia | split; [exact Hm |]].
  intros p. simpl. destruct (Z.eq_dec p (next_page_id_ t)) as [-> | Hne].
  - rewrite fn_lookup_insert. apply dir_ok_DirInit. exact Hm.
  - rewrite fn_lookup_insert_ne by congruence. apply Hd.
Qed.

Lemma SplitRound_ok (t t' : @HashTable K V) (dir_page bucket_idx bucket_page : Z)
    (key : K) (value : V) (r : round) :
  table_ok t ->
  0 <= bucket_idx < 2 ^ global_depth_ (dirs_ t dir_page) ->
  SplitRound cmp hash_fn t dir_page bucket_idx bucket_page key value = (Return r, t') ->
  table_ok t'.
Proof.
  intros (Hn & Hm & Hd) Hb HS.
  pose proof (SplitRound_Return cmp hash_fn _ _ _ _ _ _ _ _ HS) as (_ & Hn' & Hsplit & _).
  pose proof (SplitRound_frame _ _ _ _ _ _ _ _ HS) as (Hm' & Hother & Hstop & Hassert).
  split; [lia | split; [now rewrite Hm' |]].
  intros p. destruct (Z.eq_dec p dir_page) as [-> | Hne];
    [| rewrite Hother by exact Hne; apply Hd].
  destruct (round_eq_dec r (Finished false)) as [-> | Hr].
  - rewrite Hstop by reflexivity. apply dir_ok_IncrGlobalDepth, Hd.
  - destruct (Hsplit Hr) as (-> & Hroom). specialize (Hassert Hr).
    destruct (grown_facts (dirs_ t dir_page) bucket_idx (Hd dir_page) Hb Hroom)
      as (Hok1 & Hb1 & Hlt1).
    unfold split_directory.
    exact (dir_ok_split _ bucket_idx (next_page_id_ t) Hok1 Hb1 Hlt1 Hassert).
Qed.

Lemma routed_slot_live (d : Directory) (h : Z) :
  dir_ok d -> 0 <= HashToBucketIndex d h < 2 ^ global_depth_ d.
Proof. intros [Hgd _]. apply low_bits_range. lia. Qed.

Lemma Insert_ok (fuel : nat) :
  forall (t t' : @HashTable K V) (key : K) (value : V) (b : bool),
  table_ok t ->
  Insert cmp hash_fn fuel key value t = (Return b, t') ->
  table_ok t'.
Proof.
  induction fuel as [|fuel IH]; intros t t' key value b Hok; [discriminate |].
  cbn [Insert].
  destruct (_ =? INVALID_PAGE_ID); [now apply InsertToNewDirectory_ok |].
  destruct (_ =? INVALID_PAGE_ID); [now apply InsertToNewBucket_ok |].
  destruct (BucketInsert _ _ _ _) as [[|] bk].
  - intros [= <- <-]. destruct Hok as (Hn & Hm & Hd). now split.
  - destruct (Lookup _ _ _); [now intros [= <- <-] |].
    destruct (SplitRound _ _ _ _ _ _ _ _) as [o t1] eqn:HS.
    destruct o as [[fin|] | | |]; try discriminate.
    + intros [= <- <-]. eapply SplitRound_ok; [exact Hok | | exact HS].
      apply routed_slot_live, Hok.
    + intros HI. eapply IH; [| exact HI].
      eapply SplitRound_ok; [exact Hok | | exact HS].
      apply routed_slot_live, Hok.
Qed.

(** *** Remove *)

Lemma retarget_fold_depths (set_page : Z) (l : list Z) :
  forall d : Directory,
  let d' := fold_left (retarget set_page) l d in
  global_depth_ d' = global_depth_ d /\ max_depth_ d' = max_depth_ d /\
  (List.NoDup l ->
   forall i, (In i l -> local_depths_ d' i = local_depths_ d i - 1) /\
             (~ In i l -> local_depths_ d' i = local_depths_ d i)).
Proof.
  induction l as [|x l IH]; intros d; simpl.
  - repeat split; tauto.
  - destruct (IH (retarget set_page d x)) as (Hg & Hm & Hl).
    split; [exact Hg | split; [exact Hm |]].
    intros Hnd i. inversion Hnd as [| y l' Hx Hnd']; subst.
    destruct (Hl Hnd' i) as (Hin & Hout). simpl in Hin, Hout.
    destruct (Z.eq_dec x i) as [-> | Hne].
    + rewrite fn_lookup_insert in Hout. split; [intros _; now apply Hout | tauto].
    + rewrite fn_lookup_insert_ne in Hin, Hout by exact Hne.
      split; [intros [? | ?]; [contradiction | auto] | intros ?; apply Hout; tauto].
Qed.

Lemma merge_step_ok (d : Directory) (bucket_idx set_page : Z) (indexes : list Z) :
  dir_ok d -> indexes_ok d bucket_idx indexes ->
  0 < local_depths_ d bucket_idx ->
  let split_idx := GetSplitImageIndex d bucket_idx in
  local_depths_ d bucket_idx = local_depths_ d split_idx ->
  let d' := fold_left (retarget set_page) (indexes ++ [split_idx]) d in
  dir_ok d' /\
  indexes_ok d' bucket_idx (indexes ++ [split_idx]) /\
  indexes_ok d' split_idx (indexes ++ [split_idx]).
Proof.
  intros [Hgd Hld] (Hnd & Hb & Hall) Hpos split_idx Heq d'.
  set (L := local_depths_ d bucket_idx) in *.
  assert (Hsplit_low : split_idx mod 2 ^ (L - 1) = bucket_idx mod 2 ^ (L - 1)).
  { unfold split_idx, GetSplitImageIndex. fold L. apply lxor_bit_low. lia. }
  assert (Hsplit_flip : split_idx mod 2 ^ L <> bucket_idx mod 2 ^ L).
  { unfold split_idx, GetSplitImageIndex. fold L.
    replace (2 ^ L) with (2 ^ (L - 1 + 1)) by (f_equal; lia).
    apply lxor_bit_flips. lia. }
  assert (Hfresh : ~ In split_idx indexes).
  { intros Hin. destruct (Hall _ Hin) as (_ & Hm). contradiction. }
  assert (Hnd' : List.NoDup (indexes ++ [split_idx])).
  { apply List.NoDup_app; [exact Hnd | repeat constructor; intros [] |].
    intros x Hx [-> | []]. contradiction. }
  destruct (retarget_fold_depths set_page (indexes ++ [split_idx]) d)
    as (Hg' & Hm' & Hl'). fold d' in Hg', Hm', Hl'. specialize (Hl' Hnd').
  assert (Hin_ld : forall idx, In idx (indexes ++ [split_idx]) ->
                     local_depths_ d idx = L /\
                     idx mod 2 ^ (L - 1) = bucket_idx mod 2 ^ (L - 1)).
  { intros idx Hin. apply in_app_iff in Hin as [Hin | [<- | []]].
    - destruct (Hall _ Hin) as (H1 & H2). split; [exact H1 |].
      apply mod_pow2_weaken; [lia |].
      now replace (L - 1 + 1) with L by lia.
    - split; [now symmetry | exact Hsplit_low]. }
  assert (Hnew : forall idx, In idx (indexes ++ [split_idx]) ->
                   local_depths_ d' idx = L - 1).
  { intros idx Hin. destruct (Hl' idx) as (H1 & _).
    rewrite (H1 Hin). destruct (Hin_ld idx Hin) as (-> & _). reflexivity. }
  assert (Hbin : In bucket_idx (indexes ++ [split_idx]))
    by (apply in_app_iff; auto).
  assert (Hsin : In split_idx (indexes ++ [split_idx]))
    by (apply in_app_iff; simpl; auto).
  split; [| split].
  - split; [rewrite Hg', Hm'; exact Hgd |]. rewrite Hg'. intros i Hi.
    specialize (Hld i Hi). destruct (Hl' i) as (H1 & H2).
    destruct (in_dec Z.eq_dec i (indexes ++ [split_idx])) as [Hin | Hout].
    + rewrite (H1 Hin). destruct (Hin_ld i Hin) as (Hli & _). lia.
    + rewrite (H2 Hout). exact Hld.
  - split; [exact Hnd' | split; [exact Hbin |]]. intros idx Hin.
    rewrite (Hnew _ Hbin), (Hnew _ Hin). split; [reflexivity |].
    now destruct (Hin_ld idx Hin).
  - split; [exact Hnd' | split; [exact Hsin |]]. intros idx Hin.
    rewrite (Hnew _ Hsin), (Hnew _ Hin). split; [reflexivity |].
    destruct (Hin_ld idx Hin) as (_ & ->). now symmetry.
Qed.

Lemma table_ok_set_dir (t : @HashTable K V) (p : Z) (d : Directory) :
  table_ok t -> dir_ok d -> table_ok (set_dir t p d).
Proof.
  intros (Hn & Hm & Hd) Hok. split; [exact Hn | split; [exact Hm |]].
  intros q. simpl. destruct (Z.eq_dec p q) as [-> | Hne].
  - now rewrite fn_lookup_insert.
  - rewrite fn_lookup_insert_ne by exact Hne. apply Hd.
Qed.

Lemma merge_loop_ok (fuel : nat) (dir_page : Z) :
  forall (bucket_idx bucket_page : Z) (indexes : list Z) (t t' : @HashTable K V)
         (o : outcome unit),
  table_ok t ->
  indexes_ok (dirs_ t dir_page) bucket_idx indexes ->
  merge_loop fuel dir_page bucket_idx bucket_page indexes t = (o, t') ->
  table_ok t'.
Proof.
  induction fuel as [|fuel IH]; intros bucket_idx bucket_page indexes t t' o Hok Hidx;
    [now intros [= <- <-] |].
  cbn [merge_loop]. set (d := dirs_ t dir_page) in *.
  unfold GetLocalDepth.
  destruct (0 <? local_depths_ d bucket_idx) eqn:Hpos; [| now intros [= <- <-]].
  apply Z.ltb_lt in Hpos.
  destruct (negb _) eqn:Hsame; [now intros [= <- <-] |].
  apply negb_false_iff, Z.eqb_eq in Hsame.
  destruct (_ && _); [now intros [= <- <-] |].
  set (split_idx := GetSplitImageIndex d bucket_idx) in *.
  set (set_page := if IsEmpty (bkts_ t bucket_page)
                   then GetBucketPageId d split_idx else bucket_page).
  destruct (merge_step_ok d bucket_idx set_page indexes (proj2 (proj2 Hok) dir_page)
              Hidx Hpos Hsame) as (Hd' & Hib & His).
  fold split_idx in Hd', Hib, His.
  set (d' := fold_left (retarget set_page) (indexes ++ [split_idx]) d) in *.
  pose proof (table_ok_set_dir t dir_page d' Hok Hd') as Hok1.
  destruct (IsEmpty _).
  - apply IH.
    + destruct Hok1 as (Hn & Hm & Hdirs). now split.
    + simpl. now rewrite fn_lookup_insert.
  - apply IH.
    + destruct Hok1 as (Hn & Hm & Hdirs). now split.
    + simpl. now rewrite fn_lookup_insert.
Qed.

Lemma in_slots (d : Directory) (i : Z) :
  0 <= i < 2 ^ global_depth_ d -> In i (slots d).
Proof.
  intros Hi. unfold slots. apply in_map_iff. exists (Z.to_nat i).
  split; [lia |]. apply in_seq. lia.
Qed.

Lemma dir_ok_shrink (d : Directory) :
  dir_ok d -> CanShrink d = true -> dir_ok (DecrGlobalDepth d).
Proof.
  intros [Hgd Hld] Hc. unfold CanShrink in Hc.
  apply andb_prop in Hc as [Hpos Hall]. apply Z.ltb_lt in Hpos.
  rewrite forallb_forall in Hall.
  assert (Hle : 2 ^ (global_depth_ d - 1) <= 2 ^ global_depth_ d)
    by (apply Z.pow_le_mono_r; lia).
  split; simpl; [lia |]. intros i Hi.
  specialize (Hld i ltac:(lia)).
  specialize (Hall i (in_slots d i ltac:(lia))). apply Z.ltb_lt in Hall. lia.
Qed.

Lemma shrink_loop_ok (fuel : nat) :
  forall (d d' : Directory) (o : outcome unit),
  dir_ok d -> shrink_loop fuel d = (o, d') -> dir_ok d'.
Proof.
  induction fuel as [|fuel IH]; intros d d' o Hok; simpl; [now intros [= <- <-] |].
  destruct (CanShrink d) eqn:Hc; [| now intros [= <- <-]].
  apply IH. now apply dir_ok_shrink.
Qed.

Lemma Remove_ok (fuel : nat) (t t' : @HashTable K V) (key : K) (o : outcome bool) :
  table_ok t -> Remove cmp hash_fn fuel key t = (o, t') -> table_ok t'.
Proof.
  intros Hok. unfold Remove.
  destruct (_ =? INVALID_PAGE_ID); [now intros [= <- <-] |].
  destruct (_ =? INVALID_PAGE_ID); [now intros [= <- <-] |].
  destruct (BucketRemove _ _ _) as [[|] bk]; cbn [negb]; [| now intros [= <- <-]].
  match goal with
  | |- context [merge_loop fuel ?p ?b ?bp ?ix ?t1] =>
      destruct (merge_loop fuel p b bp ix t1) as [om t2] eqn:HM;
      assert (Hok2 : table_ok t2);
      [ apply (merge_loop_ok fuel p b bp ix t1 t2 om); [| | exact HM] |];
      set (dp := p) in *
  end.
  - destruct Hok as (Hn & Hm & Hd). now split.
  - simpl. split; [repeat constructor; intros [] | split; [simpl; auto |]].
    intros idx [<- | []]. auto.
  - destruct om as [[]| | |]; try (now intros [= <- <-]).
    destruct (shrink_loop fuel (dirs_ t2 dp)) as [os d'] eqn:HSh.
    pose proof (shrink_loop_ok fuel _ _ _ (proj2 (proj2 Hok2) dp) HSh) as Hd'.
    destruct os as [[]| | |]; intros [= <- <-]; now apply table_ok_set_dir.
Qed.

(** *** Reachable tables *)

Lemma new_table_ok (header_max_depth directory_max_depth bucket_max_size : Z) :
  0 <= directory_max_depth ->
  table_ok (@new_table K V header_max_depth directory_max_depth bucket_max_size).
Proof.
  intros H. split; [simpl; lia | split; [exact H |]].
  intros p. simpl. now apply dir_ok_DirInit.
Qed.

Lemma reachable_ok (t : @HashTable K V) : reachable cmp hash_fn t -> table_ok t.
Proof.
  induction 1 as [hmd dmd bms H | t t' fuel key value b _ IH HI
                  | t t' fuel key b _ IH HR].
  - now apply new_table_ok.
  - eapply Insert_ok; eauto.
  - eapply Remove_ok; eauto.
Qed.


End Invariant.



(** *** Termination of Insert on reachable tables *)



End HashTableInvariant.


(** * Laws of the LRU-K replacer *)

Module ReplacerProofs.

Import Replacer.

(** *** The compared value and the spec's quantities *)

Lemma hd_skipn_nth (l : list Z) (i : nat) : hd 0 (skipn i l) = nth i l 0.
Proof.
  revert i. induction l as [|x l IH]; intros [|i]; simpl; auto.
Qed.

Lemma GetKDistance_kth (k : Z) (n : LRUKNode) :
  GetKDistance k n = kth_recent_access k n.
Proof. unfold GetKDistance, kth_recent_access, keep_last. apply hd_skipn_nth. Qed.

Lemma GetKDistance_first (k : Z) (n : LRUKNode) :
  GetK n < k -> GetKDistance k n = first_access n.
Proof.
  unfold GetKDistance, first_access, keep_last, GetK. intros H.
  replace (length (history_ n) - Z.to_nat k)%nat with 0%nat by lia.
  reflexivity.
Qed.

(** *** The scan *)

Lemma scan_ok_init (k : Z) : scan_ok k [] scan_init.
Proof.
  unfold scan_ok, scan_init. simpl. split; [intros u m [] |].
  left. split; [reflexivity | intros u m []].
Qed.

Lemma in_snoc (seen : node_store) (x y : Z * LRUKNode) :
  In x (seen ++ [y]) <-> In x seen \/ x = y.
Proof. rewrite in_app_iff. simpl. intuition. Qed.

Lemma scan_step_ok (k : Z) (seen : node_store) (a : scan) (u : Z) (v : LRUKNode) :
  scan_ok k seen a ->
  (GetEvictable v = true -> k <= GetK v -> GetKDistance k v < INT32_MAX) ->
  scan_ok k (seen ++ [(u, v)]) (scan_step k a (u, v)).
Proof.
  intros Hok Hbound. unfold scan_step.
  destruct (GetEvictable v) eqn:Hev; cbn [negb].
  2:{ (* not evictable: the locals are unchanged *)
    unfold scan_ok in *. destruct (less_k a).
    - destruct Hok as (n & Hin & He & Hk & Hd & Hmin).
      exists n. repeat split; auto.
      + apply in_snoc. auto.
      + intros u' m Hin' He' Hk'. apply in_snoc in Hin' as [Hin' | [= -> ->]].
        * eauto.
        * congruence.
    - destruct Hok as (Hall & Hcase). split.
      + intros u' m Hin' He'. apply in_snoc in Hin' as [Hin' | [= -> ->]].
        * eauto.
        * congruence.
      + destruct Hcase as [(Hd & Hnone) | (n & Hin & He & Hd & Hmin)].
        * left. split; auto. intros u' m Hin'.
          apply in_snoc in Hin' as [Hin' | [= -> ->]]; eauto.
        * right. exists n. repeat split; auto.
          -- apply in_snoc. auto.
          -- intros u' m Hin' He'. apply in_snoc in Hin' as [Hin' | [= -> ->]].
             ++ eauto.
             ++ congruence. }
  destruct (GetK v <? k) eqn:Hlt.
  - apply Z.ltb_lt in Hlt. unfold scan_ok in *.
    destruct (less_k a) eqn:Hlk; cbn [negb].
    + destruct Hok as (n & Hin & He & Hk & Hd & Hmin).
      destruct (GetKDistance k v <? dist a) eqn:Hcmp; cbn [less_k f_id dist].
      * apply Z.ltb_lt in Hcmp.
        exists v. repeat split; auto.
        -- apply in_snoc. auto.
        -- intros u' m Hin' He' Hk'. apply in_snoc in Hin' as [Hin' | [= -> ->]].
           ++ specialize (Hmin _ _ Hin' He' Hk'). lia.
           ++ lia.
      * apply Z.ltb_ge in Hcmp. try rewrite Hlk.
        exists n. repeat split; auto.
        -- apply in_snoc. auto.
        -- intros u' m Hin' He' Hk'. apply in_snoc in Hin' as [Hin' | [= -> ->]].
           ++ eauto.
           ++ lia.
    + cbn [less_k f_id dist].
      destruct Hok as (Hall & _).
      exists v. repeat split; auto.
      * apply in_snoc. auto.
      * intros u' m Hin' He' Hk'. apply in_snoc in Hin' as [Hin' | [= -> ->]].
        -- specialize (Hall _ _ Hin' He'). lia.
        -- lia.
  - apply Z.ltb_ge in Hlt. specialize (Hbound eq_refl Hlt). unfold scan_ok in *.
    destruct (less_k a) eqn:Hlk; cbn [negb andb].
    + rewrite Hlk.
      destruct Hok as (n & Hin & He & Hk & Hd & Hmin).
      exists n. repeat split; auto.
      * apply in_snoc. auto.
      * intros u' m Hin' He' Hk'. apply in_snoc in Hin' as [Hin' | [= -> ->]].
        -- eauto.
        -- lia.
    + destruct Hok as (Hall & Hcase).
      destruct (GetKDistance k v <? dist a) eqn:Hcmp; cbn [less_k f_id dist].
      * apply Z.ltb_lt in Hcmp. split.
        -- intros u' m Hin' He'. apply in_snoc in Hin' as [Hin' | [= -> ->]]; eauto.
        -- right. exists v. repeat split; auto.
           ++ apply in_snoc. auto.
           ++ intros u' m Hin' He'. apply in_snoc in Hin' as [Hin' | [= -> ->]].
              ** destruct Hcase as [(Hd & Hnone) | (n & Hin & He & Hd & Hmin)].
                 --- rewrite (Hnone _ _ Hin') in He'. discriminate.
                 --- specialize (Hmin _ _ Hin' He'). lia.
              ** lia.
      * apply Z.ltb_ge in Hcmp. try rewrite Hlk. split.
        -- intros u' m Hin' He'. apply in_snoc in Hin' as [Hin' | [= -> ->]]; eauto.
        -- destruct Hcase as [(Hd & Hnone) | (n & Hin & He & Hd & Hmin)].
           ++ lia.
           ++ right. exists n. repeat split; auto.
              ** apply in_snoc. auto.
              ** intros u' m Hin' He'. apply in_snoc in Hin' as [Hin' | [= -> ->]].
                 --- eauto.
                 --- lia.
Qed.

Lemma scan_fold_ok (k : Z) (rest : node_store) :
  forall (seen : node_store) (a : scan),
  scan_ok k seen a ->
  (forall u v, In (u, v) rest -> GetEvictable v = true -> k <= GetK v ->
               GetKDistance k v < INT32_MAX) ->
  scan_ok k (seen ++ rest) (fold_left (scan_step k) rest a).
Proof.
  induction rest as [|[u v] rest IH]; intros seen a Hok Hbound; simpl.
  - now rewrite app_nil_r.
  - replace (seen ++ (u, v) :: rest) with ((seen ++ [(u, v)]) ++ rest)
      by now rewrite <- app_assoc.
    apply IH.
    + apply scan_step_ok; [exact Hok |].
      intros He Hk. apply (Hbound u v); simpl; auto.
    + intros u' v' Hin. apply (Hbound u' v'). simpl. auto.
Qed.

Lemma scan_all_ok (r : LRUKReplacer) :
  replacer_ok r -> scan_ok (k_ r) (node_store_ r) (scan_all (k_ r) (node_store_ r)).
Proof.
  intros Hok. unfold scan_all.
  apply (scan_fold_ok (k_ r) (node_store_ r) [] scan_init (scan_ok_init _)).
  intros u v Hin He Hk. rewrite GetKDistance_kth. now apply (ok_stamps r Hok u v).
Qed.

(** *** erase and the evictable count *)

Lemma in_erase (m : node_store) (f u : Z) (n : LRUKNode) :
  In (u, n) (erase m f) <-> In (u, n) m /\ u <> f.
Proof.
  induction m as [|[u' v'] m IH]; simpl; [tauto |].
  destruct (Z.eqb_spec u' f) as [-> | Hne].
  - rewrite IH. split; [tauto |]. intros [[[= -> ->] | H] Hn]; [contradiction | auto].
  - simpl. rewrite IH. split.
    + intros [[= -> ->] | [H Hn]]; auto.
    + intros [[H | H] Hn]; auto.
Qed.

Lemma find_erase (m : node_store) (f : Z) : find (erase m f) f = None.
Proof.
  induction m as [|[u v] m IH]; simpl; [reflexivity |].
  destruct (u =? f) eqn:He; [exact IH |]. simpl. now rewrite He.
Qed.

Lemma erase_absent (m : node_store) (f : Z) :
  ~ In f (map fst m) -> erase m f = m.
Proof.
  induction m as [|[u v] m IH]; simpl; [reflexivity |]. intros Hn.
  destruct (Z.eqb_spec u f) as [-> | Hne]; [tauto |].
  f_equal. apply IH. tauto.
Qed.

Lemma evictable_count_cons (u : Z) (v : LRUKNode) (m : node_store) :
  evictable_count ((u, v) :: m)
  = (if GetEvictable v then 1 else 0) + evictable_count m.
Proof.
  unfold evictable_count. simpl. destruct (GetEvictable v); simpl; lia.
Qed.

Lemma evictable_count_zero (m : node_store) :
  evictable_count m = 0 <-> forall u n, In (u, n) m -> GetEvictable n = false.
Proof.
  induction m as [|[u v] m IH].
  - split; [intros _ u n [] | reflexivity].
  - rewrite evictable_count_cons.
    assert (Hnn : 0 <= evictable_count m) by (unfold evictable_count; lia).
    split.
    + intros H0 u' n [[= -> ->] | Hin].
      * destruct (GetEvictable n); [lia | reflexivity].
      * apply (proj1 IH) with (u := u'); [| exact Hin].
        destruct (GetEvictable v); lia.
    + intros Hall. rewrite (Hall u v) by (simpl; auto).
      rewrite (proj2 IH); [reflexivity |]. intros u' n Hin.
      apply (Hall u'). simpl. auto.
Qed.

Lemma evictable_count_erase (m : node_store) (f : Z) (n : LRUKNode) :
  List.NoDup (map fst m) -> In (f, n) m -> GetEvictable n = true ->
  evictable_count (erase m f) = evictable_count m - 1.
Proof.
  induction m as [|[u v] m IH]; simpl; [tauto |].
  intros Hnd Hin He. inversion Hnd as [| x l Hnotin Hnd']; subst.
  destruct (Z.eqb_spec u f) as [-> | Hne].
  - assert (v = n) as ->.
    { destruct Hin as [[= ->] | Hin]; [reflexivity |].
      exfalso. apply Hnotin. apply in_map_iff. exists (f, n). auto. }
    rewrite erase_absent by exact Hnotin.
    rewrite evictable_count_cons, He. lia.
  - destruct Hin as [[= -> ->] | Hin]; [contradiction |].
    rewrite !evictable_count_cons, (IH Hnd' Hin He). lia.
Qed.

(** *** Evict *)

Lemma Evict_victim (r : LRUKReplacer) :
  replacer_ok r -> evictable_count (node_store_ r) <> 0 ->
  let a := scan_all (k_ r) (node_store_ r) in
  exists n, In (f_id a, n) (node_store_ r) /\ GetEvictable n = true /\
    (forall u m, In (u, m) (node_store_ r) -> GetEvictable m = true ->
       distance_le (backward_k_distance (current_timestamp_ r) (k_ r) m)
                   (backward_k_distance (current_timestamp_ r) (k_ r) n)) /\
    (GetK n < k_ r ->
     forall u m, In (u, m) (node_store_ r) -> GetEvictable m = true ->
       GetK m < k_ r -> first_access n <= first_access m).
Proof.
  intros Hok Hne a. pose proof (scan_all_ok r Hok) as Hs. fold a in Hs.
  unfold scan_ok in Hs. destruct (less_k a).
  - destruct Hs as (n & Hin & He & Hk & Hd & Hmin).
    exists n. repeat split; auto.
    + intros u m _ _. unfold backward_k_distance at 2.
      apply Z.ltb_lt in Hk. rewrite Hk.
      destruct (backward_k_distance _ _ m); exact I.
    + intros _ u m Hin' He' Hk'. specialize (Hmin u m Hin' He' Hk').
      rewrite Hd in Hmin. rewrite !GetKDistance_first in Hmin by assumption.
      exact Hmin.
  - destruct Hs as (Hall & [(_ & Hnone) | (n & Hin & He & Hd & Hmin)]).
    + exfalso. apply Hne. now apply evictable_count_zero.
    + exists n. repeat split; auto.
      * intros u m Hin' He'. unfold backward_k_distance.
        pose proof (Hall u m Hin' He') as Hkm. pose proof (Hall _ n Hin He) as Hkn.
        apply Z.ltb_ge in Hkm, Hkn. rewrite Hkm, Hkn. simpl.
        specialize (Hmin u m Hin' He'). rewrite Hd, !GetKDistance_kth in Hmin. lia.
      * intros Hk. specialize (Hall _ n Hin He). lia.
Qed.




(** Scenario 2 of the spec: the victim is frame 3, the only frame with a
    single access. *)
Example Evict_scenario : fst (Evict Examples.scenario_replacer) = Some 3.
Proof. reflexivity. Qed.

(** *** RecordAccess *)

Lemma RecordAccess_throws_iff (frame_id : Z) (r : LRUKReplacer) :
  fst (RecordAccess frame_id r) = Throw "Frame ID is invalid." <->
  cast_frame_id (replacer_size_ r) < frame_id.
Proof.
  unfold RecordAccess. cbn [replacer_size_ set_timestamp].
  destruct (cast_frame_id (replacer_size_ r) <? frame_id) eqn:Hc.
  - apply Z.ltb_lt in Hc. simpl. tauto.
  - apply Z.ltb_ge in Hc. split; [| lia].
    repeat match goal with
           | |- context [find ?m ?f] => destruct (find m f)
           end; discriminate.
Qed.

Lemma find_update (m : node_store) (f : Z) (n n' : LRUKNode) :
  find m f = Some n -> find (update m f n') f = Some n'.
Proof.
  induction m as [|[u v] m IH]; simpl; [discriminate |].
  destruct (u =? f) eqn:He; simpl; rewrite He; auto.
Qed.

Lemma find_update_other (m : node_store) (f g : Z) (n' : LRUKNode) :
  g <> f -> find (update m f n') g = find m g.
Proof.
  intros Hne. induction m as [|[u v] m IH]; simpl; [reflexivity |].
  destruct (Z.eqb_spec u f) as [-> | Hu]; simpl.
  - destruct (Z.eqb_spec f g); [congruence | reflexivity].
  - destruct (u =? g); [reflexivity | exact IH].
Qed.

Lemma find_snoc (m : node_store) (f : Z) (n : LRUKNode) :
  find m f = None -> find (m ++ [(f, n)]) f = Some n.
Proof.
  induction m as [|[u v] m IH]; simpl.
  - now rewrite Z.eqb_refl.
  - destruct (u =? f); [discriminate | exact IH].
Qed.

Lemma find_snoc_other (m : node_store) (f g : Z) (n : LRUKNode) :
  g <> f -> find (m ++ [(f, n)]) g = find m g.
Proof.
  intros Hne. induction m as [|[u v] m IH]; simpl.
  - destruct (Z.eqb_spec f g); [congruence | reflexivity].
  - destruct (u =? g); [reflexivity | exact IH].
Qed.

(** RecordAccess below the guard: the call returns, advances the clock,
    creates the node when the frame is new, appends the new timestamp to the
    node's history (keeping the last k entries) and leaves the other nodes,
    the evictable flag and [curr_size_] as they were. *)
Lemma RecordAccess_records (frame_id : Z) (r : LRUKReplacer) :
  frame_id <= cast_frame_id (replacer_size_ r) ->
  let r' := snd (RecordAccess frame_id r) in
  let now := size_t_wrap (current_timestamp_ r + 1) in
  let old := match find (node_store_ r) frame_id with
             | Some n => n
             | None => new_node frame_id
             end in
  fst (RecordAccess frame_id r) = Return tt /\
  current_timestamp_ r' = now /\
  find (node_store_ r') frame_id = Some (AddHistory (k_ r) now old) /\
  history_ (AddHistory (k_ r) now old)
    = keep_last (Z.to_nat (k_ r)) (history_ old ++ [now]) /\
  is_evictable_ (AddHistory (k_ r) now old) = is_evictable_ old /\
  (forall g, g <> frame_id -> find (node_store_ r') g = find (node_store_ r) g) /\
  curr_size_ r' = curr_size_ r.
Proof.
  intros Hle. unfold RecordAccess. cbn [replacer_size_ set_timestamp].
  assert (Hc : (cast_frame_id (replacer_size_ r) <? frame_id) = false)
    by (apply Z.ltb_ge; lia).
  rewrite Hc. cbv zeta. simpl.
  destruct (find (node_store_ r) frame_id) as [n|] eqn:Hf.
  - rewrite Hf. simpl. repeat split.
    + eapply find_update; eauto.
    + intros g Hg. now apply find_update_other.
  - unfold emplace. rewrite Hf.
    rewrite (find_snoc _ _ (new_node frame_id) Hf). simpl. repeat split.
    + eapply find_update. now apply find_snoc.
    + intros g Hg. rewrite find_update_other by exact Hg.
      now apply find_snoc_other.
Qed.

(** C5.  The guard of RecordAccess is [frame_id > replacer_size_]: the frame
    id equal to replacer_size is accepted.  On a replacer for ten frames,
    RecordAccess(10) returns normally and creates the node of frame 10 with
    history [1]; RecordAccess(11) throws. *)
Theorem RecordAccess_accepts_frame_equal_to_size :
  fst (RecordAccess 10 Examples.replacer_10_2) = Return tt /\
  find (node_store_ (snd (RecordAccess 10 Examples.replacer_10_2))) 10
    = Some {| fid_ := 10; is_evictable_ := false; history_ := [1] |} /\
  fst (RecordAccess 11 Examples.replacer_10_2) = Throw "Frame ID is invalid.".
Proof. vm_compute. repeat split; reflexivity. Qed.

End ReplacerProofs.

(** * Reachable replacers satisfy the precondition of Evict *)

Module ReplacerInvariant.

Import Replacer ReplacerProofs.

(** *** The store *)

Lemma find_In (m : node_store) (f : Z) (n : LRUKNode) :
  find m f = Some n -> In (f, n) m.
Proof.
  induction m as [|[u v] m IH]; simpl; [discriminate |].
  destruct (Z.eqb_spec u f) as [-> | Hne].
  - intros [= ->]. auto.
  - auto.
Qed.

Lemma find_None_keys (m : node_store) (f : Z) :
  find m f = None -> ~ In f (map fst m).
Proof.
  induction m as [|[u v] m IH]; simpl; [tauto |].
  destruct (Z.eqb_spec u f) as [-> | Hne]; [discriminate |].
  intros Hf [He | Hin]; [contradiction | now apply IH].
Qed.

Lemma keys_update (m : node_store) (f : Z) (n : LRUKNode) :
  map fst (update m f n) = map fst m.
Proof.
  induction m as [|[u v] m IH]; simpl; [reflexivity |].
  destruct (u =? f); simpl; [reflexivity | now rewrite IH].
Qed.

Lemma in_update (m : node_store) (f u : Z) (n' x : LRUKNode) :
  In (u, x) (update m f n') -> In (u, x) m \/ (u = f /\ x = n').
Proof.
  induction m as [|[u' v'] m IH]; simpl; [tauto |].
  destruct (Z.eqb_spec u' f) as [-> | Hne]; simpl.
  - intros [[= <- <-] | Hin]; auto.
  - intros [He | Hin]; [auto |]. destruct (IH Hin); auto.
Qed.

Lemma evictable_count_update (m : node_store) (f : Z) (n n' : LRUKNode) :
  find m f = Some n ->
  evictable_count (update m f n')
  = evictable_count m + (if GetEvictable n' then 1 else 0)
    - (if GetEvictable n then 1 else 0).
Proof.
  induction m as [|[u v] m IH]; simpl; [discriminate |].
  destruct (Z.eqb_spec u f) as [-> | Hne].
  - intros [= ->]. rewrite !evictable_count_cons. lia.
  - intros Hf. rewrite !evictable_count_cons, (IH Hf). lia.
Qed.

Lemma evictable_count_snoc (m : node_store) (f : Z) (n : LRUKNode) :
  evictable_count (m ++ [(f, n)])
  = evictable_count m + (if GetEvictable n then 1 else 0).
Proof.
  induction m as [|[u v] m IH].
  - simpl. rewrite evictable_count_cons. unfold evictable_count. simpl. lia.
  - simpl. rewrite !evictable_count_cons, IH. lia.
Qed.

Lemma keys_erase_subset (m : node_store) (f u : Z) :
  In u (map fst (erase m f)) -> In u (map fst m).
Proof.
  induction m as [|[u' v'] m IH]; simpl; [tauto |].
  destruct (u' =? f); simpl; [auto | intros [? | ?]; auto].
Qed.

Lemma keys_erase_NoDup (m : node_store) (f : Z) :
  List.NoDup (map fst m) -> List.NoDup (map fst (erase m f)).
Proof.
  induction m as [|[u v] m IH]; simpl; [auto |].
  intros Hnd. inversion Hnd as [| x l Hx Hnd']; subst.
  destruct (u =? f); [auto |]. simpl. constructor; [| auto].
  intros Hin. apply Hx. eapply keys_erase_subset; eauto.
Qed.

Lemma evictable_count_bound (m : node_store) :
  0 <= evictable_count m <= Z.of_nat (length m).
Proof.
  unfold evictable_count. split; [lia |].
  apply Nat2Z.inj_le. apply List.filter_length_le.
Qed.

(** At most 2^32 distinct 32-bit keys. *)
Lemma int32_keys_bound (l : list Z) :
  List.NoDup l -> (forall u, In u l -> int32_range u) ->
  Z.of_nat (length l) <= 2 ^ 32.
Proof.
  intros Hnd Hr.
  set (all := map (fun i => Z.of_nat i - 2 ^ 31) (seq 0 (Z.to_nat (2 ^ 32)))).
  assert (Hincl : incl l all).
  { intros u Hu. specialize (Hr u Hu). unfold int32_range in Hr.
    unfold all. apply in_map_iff. exists (Z.to_nat (u + 2 ^ 31)).
    split; [lia |]. apply in_seq. lia. }
  pose proof (List.NoDup_incl_length Hnd Hincl) as Hlen.
  unfold all in Hlen. rewrite length_map, length_seq in Hlen. lia.
Qed.

(** *** The invariant gives the precondition of Evict *)

Lemma replacer_inv_ok (r : LRUKReplacer) : replacer_inv r -> replacer_ok r.
Proof.
  intros [Hk Hi Hs Hc Ht]. constructor.
  - exact Hk.
  - exact Hs.
  - rewrite Hs. pose proof (evictable_count_bound (node_store_ r)) as Hb.
    pose proof (int32_keys_bound _ Hk Hi) as Hl. rewrite length_map in Hl. lia.
  - intros u n Hin _ _. unfold kth_recent_access.
    destruct (nth_in_or_default (length (history_ n) - Z.to_nat (k_ r))
                (history_ n) 0) as [Hnth | ->].
    + specialize (Ht u n _ Hin Hnth). lia.
    + unfold INT32_MAX. lia.
Qed.

(** *** Each operation keeps the invariant *)

Lemma inv_init (num_frames k : Z) : replacer_inv (init num_frames k).
Proof.
  constructor; simpl.
  - constructor.
  - intros u [].
  - reflexivity.
  - unfold INT32_MAX. lia.
  - intros u n ts [].
Qed.

Lemma in_keep_last (k : nat) (l : list Z) (x : Z) : In x (keep_last k l) -> In x l.
Proof.
  unfold keep_last. intros H.
  rewrite <- (firstn_skipn (length l - k) l). apply in_app_iff. auto.
Qed.

Lemma inv_RecordAccess (frame_id : Z) (r : LRUKReplacer) :
  replacer_inv r -> int32_range frame_id ->
  current_timestamp_ r + 1 < INT32_MAX ->
  replacer_inv (snd (RecordAccess frame_id r)).
Proof.
  intros [Hk Hi Hs Hc Ht] Hf Hclock.
  assert (Hnow : size_t_wrap (current_timestamp_ r + 1) = current_timestamp_ r + 1).
  { unfold size_t_wrap. apply Z.mod_small. unfold INT32_MAX in *. lia. }
  unfold RecordAccess. cbn [replacer_size_ set_timestamp]. rewrite Hnow.
  destruct (cast_frame_id (replacer_size_ r) <? frame_id).
  { constructor; simpl; auto; [lia |].
    intros u n ts Hin Hts. specialize (Ht u n ts Hin Hts). lia. }
  cbv zeta. simpl.
  destruct (find (node_store_ r) frame_id) as [n|] eqn:Hfind.
  - rewrite Hfind. constructor; simpl.
    + now rewrite keys_update.
    + now rewrite keys_update.
    + cbn [curr_size_ set_store set_timestamp node_store_].
      rewrite (evictable_count_update _ _ n _ Hfind), Hs.
      unfold GetEvictable, AddHistory. cbn [is_evictable_]. lia.
    + lia.
    + intros u x ts Hin Hts. apply in_update in Hin as [Hin | [-> ->]].
      * specialize (Ht u x ts Hin Hts). lia.
      * simpl in Hts. apply in_keep_last, in_app_iff in Hts as [Hts | [<- | []]].
        -- specialize (Ht _ _ ts (find_In _ _ _ Hfind) Hts). lia.
        -- lia.
  - unfold emplace. rewrite Hfind.
    rewrite (find_snoc _ _ (new_node frame_id) Hfind).
    pose proof (find_None_keys _ _ Hfind) as Hfresh.
    constructor; simpl.
    + rewrite keys_update, map_app. simpl.
      apply List.NoDup_app; [exact Hk | repeat constructor; intros [] |].
      intros a Ha [<- | []]. contradiction.
    + rewrite keys_update, map_app. simpl. intros u Hu.
      apply in_app_iff in Hu as [Hu | [<- | []]]; auto.
    + cbn [curr_size_ set_store set_timestamp node_store_].
      rewrite (evictable_count_update _ _ (new_node frame_id) _
                 (find_snoc _ _ _ Hfind)).
      rewrite evictable_count_snoc, Hs.
      unfold GetEvictable, AddHistory, new_node. cbn [is_evictable_]. lia.
    + lia.
    + intros u x ts Hin Hts. apply in_update in Hin as [Hin | [-> ->]].
      * apply in_app_iff in Hin as [Hin | [[= <- <-] | []]].
        -- specialize (Ht u x ts Hin Hts). lia.
        -- destruct Hts.
      * simpl in Hts. apply in_keep_last in Hts. destruct Hts as [<- | []]. lia.
Qed.

Lemma inv_SetEvictable (frame_id : Z) (b : bool) (r : LRUKReplacer) :
  replacer_inv r -> replacer_inv (snd (SetEvictable frame_id b r)).
Proof.
  intros Hinv. pose proof Hinv as [Hk Hi Hs Hc Ht]. unfold SetEvictable.
  destruct (find (node_store_ r) frame_id) as [n|] eqn:Hfind; [| exact Hinv].
  destruct (Bool.eqb (GetEvictable n) b) eqn:Hsame; [exact Hinv |].
  pose proof (evictable_count_update _ _ n (SetNodeEvictable n b) Hfind) as Hcount.
  pose proof (evictable_count_bound
                (update (node_store_ r) frame_id (SetNodeEvictable n b))) as Hb.
  pose proof (int32_keys_bound _ Hk Hi) as Hl.
  rewrite <- (keys_update _ frame_id (SetNodeEvictable n b)), length_map in Hl.
  assert (Hdelta : (if b then 1 else -1)
                   = (if GetEvictable (SetNodeEvictable n b) then 1 else 0)
                     - (if GetEvictable n then 1 else 0)).
  { simpl. destruct (GetEvictable n), b; simpl in *; try discriminate; lia. }
  constructor; cbn [snd curr_size_ node_store_ set_size set_store current_timestamp_].
  - now rewrite keys_update.
  - now rewrite keys_update.
  - rewrite Hcount, Hs, Hdelta. unfold size_t_wrap.
    rewrite Hcount in Hb. rewrite Z.mod_small; lia.
  - exact Hc.
  - intros u x ts Hin Hts. apply in_update in Hin as [Hin | [-> ->]].
    + eauto.
    + simpl in Hts. exact (Ht _ _ ts (find_In _ _ _ Hfind) Hts).
Qed.

Lemma inv_erase (r : LRUKReplacer) (f : Z) (n : LRUKNode) :
  replacer_inv r -> In (f, n) (node_store_ r) -> GetEvictable n = true ->
  replacer_inv (set_size (set_store r (erase (node_store_ r) f))
                         (size_t_wrap (curr_size_ r - 1))).
Proof.
  intros [Hk Hi Hs Hc Ht] Hin He.
  pose proof (evictable_count_erase _ _ _ Hk Hin He) as Hcount.
  pose proof (evictable_count_bound (erase (node_store_ r) f)) as Hb.
  pose proof (int32_keys_bound _ Hk Hi) as Hl. rewrite length_map in Hl.
  pose proof (evictable_count_bound (node_store_ r)) as Hb'.
  constructor; cbn [snd curr_size_ node_store_ set_size set_store current_timestamp_].
  - now apply keys_erase_NoDup.
  - intros u Hu. apply Hi. eapply keys_erase_subset; eauto.
  - rewrite Hcount, Hs. unfold size_t_wrap. rewrite Z.mod_small; lia.
  - exact Hc.
  - intros u x ts Hin' Hts. apply in_erase in Hin' as [Hin' _]. eauto.
Qed.

Lemma inv_Remove (frame_id : Z) (r : LRUKReplacer) :
  replacer_inv r -> replacer_inv (snd (Remove frame_id r)).
Proof.
  intros Hinv. unfold Remove.
  destruct (find (node_store_ r) frame_id) as [n|] eqn:Hfind; [| exact Hinv].
  destruct (GetEvictable n) eqn:He; simpl; [| exact Hinv].
  eapply inv_erase; eauto using find_In.
Qed.

Lemma inv_Evict (r : LRUKReplacer) :
  replacer_inv r -> replacer_inv (snd (Evict r)).
Proof.
  intros Hinv. pose proof (replacer_inv_ok r Hinv) as Hok.
  unfold Evict. destruct (curr_size_ r =? 0) eqn:H0; [exact Hinv |].
  apply Z.eqb_neq in H0. rewrite (ok_size r Hok) in H0.
  destruct (Evict_victim r Hok H0) as (n & Hin & He & _).
  simpl. eapply inv_erase; eauto.
Qed.

(** Every reachable replacer satisfies the precondition of Evict. *)
Lemma replacer_reachable_inv (r : LRUKReplacer) :
  replacer_reachable r -> replacer_inv r.
Proof.
  induction 1.
  - apply inv_init.
  - now apply inv_RecordAccess.
  - now apply inv_SetEvictable.
  - now apply inv_Remove.
  - now apply inv_Evict.
Qed.


End ReplacerInvariant.

(** * Laws of the buffer pool manager *)

Module BufferPoolProofs.

Import BufferPool.

Lemma SetEvictable_tracked (fit : Z) (r : Replacer.LRUKReplacer) (n : Replacer.LRUKNode) :
  Replacer.find (Replacer.node_store_ r) fit = Some n ->
  fst (Replacer.SetEvictable fit true r) = Return tt /\
  exists n', Replacer.find
               (Replacer.node_store_ (snd (Replacer.SetEvictable fit true r))) fit
             = Some n' /\
             Replacer.GetEvictable n' = true.
Proof.
  intros Hf. unfold Replacer.SetEvictable. rewrite Hf.
  destruct (Replacer.GetEvictable n) eqn:He; simpl.
  - split; [reflexivity |]. exists n. auto.
  - split; [reflexivity |]. exists (Replacer.SetNodeEvictable n true).
    split; [eapply ReplacerProofs.find_update; eauto | reflexivity].
Qed.

(** C8.  UnpinPage returns false exactly when the page is not in the page
    table or its pin count is 0, and then leaves the pool as it was.
    Otherwise (the frame being tracked by the replacer, as every resident
    frame is) it returns true, decrements the pin count, ORs [is_dirty] into
    the dirty flag, touches nothing else, and calls SetEvictable(frame, true)
    exactly when the pin count has reached 0, after which the frame's node is
    evictable. *)
Theorem UnpinPage_spec (page_id : Z) (is_dirty : bool) (s : BufferPoolManager) :
  (fst (UnpinPage page_id is_dirty s) = Return false <->
     (page_table_ s !! page_id = None \/
      exists fit, page_table_ s !! page_id = Some fit /\
                  pin_count_ (pages_ s fit) = 0)) /\
  (fst (UnpinPage page_id is_dirty s) = Return false ->
     snd (UnpinPage page_id is_dirty s) = s) /\
  (forall fit n,
     page_table_ s !! page_id = Some fit ->
     pin_count_ (pages_ s fit) <> 0 ->
     Replacer.find (Replacer.node_store_ (replacer_ s)) fit = Some n ->
     let p := pages_ s fit in
     let s' := snd (UnpinPage page_id is_dirty s) in
     fst (UnpinPage page_id is_dirty s) = Return true /\
     pages_ s' = <[fit := {| data_ := data_ p; page_id_ := page_id_ p;
                             pin_count_ := pin_count_ p - 1;
                             is_dirty_ := is_dirty || is_dirty_ p |}]> (pages_ s) /\
     page_table_ s' = page_table_ s /\ free_list_ s' = free_list_ s /\
     next_page_id_ s' = next_page_id_ s /\ free_ids_ s' = free_ids_ s /\
     replacer_ s' = (if pin_count_ p - 1 =? 0
                     then snd (Replacer.SetEvictable fit true (replacer_ s))
                     else replacer_ s) /\
     (pin_count_ p - 1 = 0 ->
      exists n', Replacer.find (Replacer.node_store_ (replacer_ s')) fit = Some n' /\
                 Replacer.GetEvictable n' = true)).
Proof.
  unfold UnpinPage.
  destruct (page_table_ s !! page_id) as [fit|] eqn:Hpt.
  2:{ simpl. split; [| split].
      - split; auto.
      - reflexivity.
      - intros fit n [=]. }
  unfold GetPinCount.
  destruct (pin_count_ (pages_ s fit) =? 0) eqn:Hpin.
  { apply Z.eqb_eq in Hpin. simpl. split; [| split].
    - split; [intros _; right; eauto | reflexivity].
    - reflexivity.
    - intros fit' n [= <-] Hne. contradiction. }
  apply Z.eqb_neq in Hpin.
  set (p := pages_ s fit).
  assert (Hp2 : (if is_dirty
                 then set_is_dirty (set_pin_count p (pin_count_ p - 1)) is_dirty
                 else set_pin_count p (pin_count_ p - 1))
                = {| data_ := data_ p; page_id_ := page_id_ p;
                     pin_count_ := pin_count_ p - 1;
                     is_dirty_ := is_dirty || is_dirty_ p |}).
  { destruct is_dirty; reflexivity. }
  rewrite Hp2. cbn [pin_count_].
  split; [| split].
  - split.
    + destruct (pin_count_ p - 1 =? 0).
      * destruct (Replacer.SetEvictable _ _ _) as [[[]| | |] r']; simpl; intros [=].
      * simpl; intros [=].
    + intros [[=] | (fit' & [= <-] & H0)]. contradiction.
  - destruct (pin_count_ p - 1 =? 0).
    + destruct (Replacer.SetEvictable _ _ _) as [[[]| | |] r']; simpl; intros [=].
    + simpl; intros [=].
  - intros fit' n [= <-] _ Hf. cbv zeta.
    destruct (pin_count_ p - 1 =? 0) eqn:Hz.
    + cbn [replacer_ set_page].
      destruct (SetEvictable_tracked fit (replacer_ s) n Hf) as (Hret & n' & Hf' & He').
      destruct (Replacer.SetEvictable fit true (replacer_ s)) as [o r'].
      simpl in Hret. subst o. unfold p in *. simpl. rewrite Hz.
      repeat split; auto. eauto.
    + unfold p in *. simpl. rewrite Hz. apply Z.eqb_neq in Hz.
      repeat split; auto. intros; contradiction.
Qed.

Lemma UnpinPage_spec_witness :
  fst (UnpinPage 7 true Examples.one_pinned_page) = Return true.
Proof.
  refine (proj1 (proj2 (proj2 (UnpinPage_spec 7 true Examples.one_pinned_page))
                   0 _ _ _ _)).
  - vm_compute. reflexivity.
  - vm_compute. discriminate.
  - vm_compute. reflexivity.
Defined.

Lemma Remove_allowed (fit : Z) (r : Replacer.LRUKReplacer) :
  (forall n, Replacer.find (Replacer.node_store_ r) fit = Some n ->
             Replacer.GetEvictable n = true) ->
  fst (Replacer.Remove fit r) = Return tt /\
  Replacer.find (Replacer.node_store_ (snd (Replacer.Remove fit r))) fit = None.
Proof.
  intros Hev. unfold Replacer.Remove.
  destruct (Replacer.find (Replacer.node_store_ r) fit) as [n|] eqn:Hf.
  - rewrite (Hev n eq_refl). simpl. split; [reflexivity |].
    apply ReplacerProofs.find_erase.
  - simpl. auto.
Qed.

(** C9.  DeletePage returns true and changes nothing when the page is not
    resident; returns false and changes nothing when the resident page is
    pinned; otherwise (the replacer letting the frame go: its node, if any,
    is evictable, as that of every unpinned resident frame is) it zeroes the
    frame, clears its dirty flag and page id, erases the page-table entry,
    appends the frame to the free list, removes the frame's node from the
    replacer, appends the page id to the recycled ids, and returns true. *)
Theorem DeletePage_spec (page_id : Z) (s : BufferPoolManager) :
  (page_table_ s !! page_id = None -> DeletePage page_id s = (Return true, s)) /\
  (forall fit, page_table_ s !! page_id = Some fit ->
     0 < pin_count_ (pages_ s fit) -> DeletePage page_id s = (Return false, s)) /\
  (forall fit, page_table_ s !! page_id = Some fit ->
     pin_count_ (pages_ s fit) <= 0 ->
     (forall n, Replacer.find (Replacer.node_store_ (replacer_ s)) fit = Some n ->
                Replacer.GetEvictable n = true) ->
     DeletePage page_id s =
       (Return true,
        {| pool_size_ := pool_size_ s;
           pages_ := <[fit := {| data_ := repeat 0 BUSTUB_PAGE_SIZE;
                                 page_id_ := INVALID_PAGE_ID;
                                 pin_count_ := pin_count_ (pages_ s fit);
                                 is_dirty_ := false |}]> (pages_ s);
           page_table_ := delete page_id (page_table_ s);
           free_list_ := free_list_ s ++ [fit];
           replacer_ := snd (Replacer.Remove fit (replacer_ s));
           next_page_id_ := next_page_id_ s;
           free_ids_ := free_ids_ s ++ [page_id] |}) /\
     Replacer.find
       (Replacer.node_store_ (snd (Replacer.Remove fit (replacer_ s)))) fit = None).
Proof.
  unfold DeletePage. split; [| split].
  - now intros ->.
  - intros fit -> Hpin. unfold GetPinCount.
    apply Z.ltb_lt in Hpin. now rewrite Hpin.
  - intros fit -> Hpin Hev. unfold GetPinCount.
    assert (Hp : (0 <? pin_count_ (pages_ s fit)) = false) by (apply Z.ltb_ge; lia).
    rewrite Hp. cbn [replacer_ set_free_list set_page_table set_page].
    destruct (Remove_allowed fit (replacer_ s) Hev) as (Hret & Hgone).
    destruct (Replacer.Remove fit (replacer_ s)) as [o r'].
    simpl in Hret, Hgone. subst o. split; [reflexivity | exact Hgone].
Qed.

Lemma DeletePage_spec_witness :
  fst (DeletePage 7 (snd (UnpinPage 7 true Examples.one_pinned_page))) = Return true.
Proof.
  refine (f_equal fst
            (proj1 (proj2 (proj2 (DeletePage_spec 7
                      (snd (UnpinPage 7 true Examples.one_pinned_page)))) 0 _ _ _))).
  - vm_compute. reflexivity.
  - vm_compute. discriminate.
  - intros n H. vm_compute in H. injection H as <-. reflexivity.
Defined.

(** Unpinning the one pinned page with the dirty flag: the count drops to 0,
    the frame becomes dirty and evictable, [curr_size_] becomes 1. *)
Example UnpinPage_run :
  let r := UnpinPage 7 true Examples.one_pinned_page in
  fst r = Return true /\
  pin_count_ (pages_ (snd r) 0) = 0 /\ is_dirty_ (pages_ (snd r) 0) = true /\
  Replacer.Size (replacer_ (snd r)) = 1 /\
  fst (UnpinPage 7 false (snd r)) = Return false /\
  fst (UnpinPage 8 false (snd r)) = Return false.
Proof. vm_compute. repeat split; reflexivity. Qed.

(** The unpinned page 7 is deleted: frame 0 returns to the free list, page
    id 7 to the recycled ids, and the replacer tracks nothing.  While the
    page is pinned DeletePage refuses. *)
Example DeletePage_run :
  let unpinned := snd (UnpinPage 7 true Examples.one_pinned_page) in
  let r := DeletePage 7 unpinned in
  fst (DeletePage 7 Examples.one_pinned_page) = Return false /\
  fst r = Return true /\
  page_table_ (snd r) !! 7 = None /\
  free_list_ (snd r) = [1; 0] /\ free_ids_ (snd r) = [7] /\
  page_id_ (pages_ (snd r) 0) = INVALID_PAGE_ID /\
  Replacer.node_store_ (replacer_ (snd r)) = [] /\
  fst (DeletePage 9 unpinned) = Return true.
Proof. vm_compute. repeat split; reflexivity. Qed.

End BufferPoolProofs.

(** * Further laws of the LRU-K replacer *)

Module ReplacerExtras.

Import Replacer ReplacerProofs ReplacerInvariant.

Lemma find_erase_other (m : node_store) (f g : Z) :
  g <> f -> find (erase m f) g = find m g.
Proof.
  intros Hne. induction m as [|[u v] m IH]; simpl; [reflexivity |].
  destruct (Z.eqb_spec u f) as [-> | Hu].
  - destruct (Z.eqb_spec f g); [congruence | exact IH].
  - simpl. destruct (u =? g); [reflexivity | exact IH].
Qed.

Lemma SetNodeEvictable_same (n : LRUKNode) :
  SetNodeEvictable n (GetEvictable n) = n.
Proof. now destruct n. Qed.

Lemma update_same (m : node_store) (f : Z) (n : LRUKNode) :
  find m f = Some n -> update m f n = m.
Proof.
  induction m as [|[u v] m IH]; simpl; [reflexivity |].
  destruct (u =? f) eqn:He.
  - now intros [= ->].
  - intros Hf. now rewrite IH.
Qed.

(** X1.  RecordAccess throws "Frame ID is invalid." exactly when frame_id
    is greater than replacer_size_ cast to frame_id_t; the rejected call has
    already advanced the clock and changes nothing else. *)
Theorem RecordAccess_guard (frame_id : Z) (r : LRUKReplacer) :
  (fst (RecordAccess frame_id r) = Throw "Frame ID is invalid." <->
   cast_frame_id (replacer_size_ r) < frame_id) /\
  (fst (RecordAccess frame_id r) = Throw "Frame ID is invalid." ->
   snd (RecordAccess frame_id r)
   = set_timestamp r (size_t_wrap (current_timestamp_ r + 1))).
Proof.
  split; [apply RecordAccess_throws_iff |].
  intros H. apply RecordAccess_throws_iff in H. apply Z.ltb_lt in H.
  unfold RecordAccess. cbn [replacer_size_ set_timestamp]. now rewrite H.
Qed.

(** X2.  Below the guard RecordAccess returns, advances the clock by one,
    creates the node when the frame is new, appends the new timestamp to the
    node's history (keeping the last k entries), keeps the node's evictable
    flag, and leaves every other node and [curr_size_] as they were. *)
Theorem RecordAccess_appends (frame_id : Z) (r : LRUKReplacer) :
  frame_id <= cast_frame_id (replacer_size_ r) ->
  let r' := snd (RecordAccess frame_id r) in
  let now := size_t_wrap (current_timestamp_ r + 1) in
  let old := match find (node_store_ r) frame_id with
             | Some n => n
             | None => new_node frame_id
             end in
  fst (RecordAccess frame_id r) = Return tt /\
  current_timestamp_ r' = now /\
  find (node_store_ r') frame_id
    = Some {| fid_ := fid_ old; is_evictable_ := is_evictable_ old;
              history_ := keep_last (Z.to_nat (k_ r)) (history_ old ++ [now]) |} /\
  (forall g, g <> frame_id -> find (node_store_ r') g = find (node_store_ r) g) /\
  curr_size_ r' = curr_size_ r.
Proof.
  intros Hle. destruct (RecordAccess_records frame_id r Hle)
    as (H1 & H2 & H3 & _ & _ & H6 & H7).
  repeat split; auto.
Qed.

Lemma RecordAccess_appends_witness :
  find (node_store_ (snd (RecordAccess 1 (Examples.access 1 Examples.replacer_10_2)))) 1
  = Some {| fid_ := 1; is_evictable_ := false; history_ := [1; 2] |}.
Proof.
  refine (proj1 (proj2 (proj2
            (RecordAccess_appends 1 (Examples.access 1 Examples.replacer_10_2) _)))).
  vm_compute. discriminate.
Defined.

(** X3.  SetEvictable on a frame the replacer does not track throws and
    changes nothing.  On a tracked frame it returns, the frame's node carries
    the requested flag and its old history, every other node is as before,
    and [curr_size_] moves by one exactly when the flag changed. *)
Theorem SetEvictable_spec (frame_id : Z) (b : bool) (r : LRUKReplacer) :
  (find (node_store_ r) frame_id = None ->
   SetEvictable frame_id b r
   = (Throw "Frame ID not found in node store. Cannot set evictable status.", r)) /\
  (forall n, find (node_store_ r) frame_id = Some n ->
     let r' := snd (SetEvictable frame_id b r) in
     fst (SetEvictable frame_id b r) = Return tt /\
     find (node_store_ r') frame_id = Some (SetNodeEvictable n b) /\
     (forall g, g <> frame_id -> find (node_store_ r') g = find (node_store_ r) g) /\
     current_timestamp_ r' = current_timestamp_ r /\
     curr_size_ r'
     = (if Bool.eqb (GetEvictable n) b then curr_size_ r
        else size_t_wrap (curr_size_ r + (if b then 1 else -1)))).
Proof.
  unfold SetEvictable. split.
  - now intros ->.
  - intros n Hf. rewrite Hf.
    destruct (Bool.eqb (GetEvictable n) b) eqn:He; simpl.
    + apply Bool.eqb_prop in He. subst b. rewrite SetNodeEvictable_same.
      repeat split; auto.
    + repeat split; auto.
      * eapply find_update; eauto.
      * intros g Hg. now apply find_update_other.
Qed.

(** X4.  SetEvictable is idempotent: a second call with the same frame and
    flag has the outcome of the first and leaves the replacer as the first
    call left it, so [curr_size_] moves at most once. *)
Theorem SetEvictable_idempotent (frame_id : Z) (b : bool) (r : LRUKReplacer) :
  SetEvictable frame_id b (snd (SetEvictable frame_id b r))
  = SetEvictable frame_id b r.
Proof.
  unfold SetEvictable at 2 3.
  destruct (find (node_store_ r) frame_id) as [n|] eqn:Hf.
  - destruct (Bool.eqb (GetEvictable n) b) eqn:He; cbn [snd].
    + unfold SetEvictable. now rewrite Hf, He.
    + unfold SetEvictable. cbn [node_store_ set_size set_store].
      rewrite (find_update _ _ n _ Hf). cbn [GetEvictable SetNodeEvictable is_evictable_].
      rewrite Bool.eqb_reflx. reflexivity.
  - cbn [snd]. unfold SetEvictable. now rewrite Hf.
Qed.

(** X5.  Remove of an untracked frame does nothing; Remove of a tracked
    frame that is not evictable throws and changes nothing; Remove of an
    evictable frame erases its node, leaves every other node as it was and
    decrements [curr_size_].  After a Remove that returned, the frame is
    untracked, so a second Remove is a no-op. *)
Theorem Remove_spec (frame_id : Z) (r : LRUKReplacer) :
  (find (node_store_ r) frame_id = None -> Remove frame_id r = (Return tt, r)) /\
  (forall n, find (node_store_ r) frame_id = Some n -> GetEvictable n = false ->
     Remove frame_id r = (Throw "The Frame ID is not evictable.", r)) /\
  (forall n, find (node_store_ r) frame_id = Some n -> GetEvictable n = true ->
     let r' := snd (Remove frame_id r) in
     fst (Remove frame_id r) = Return tt /\
     (forall g, g <> frame_id -> find (node_store_ r') g = find (node_store_ r) g) /\
     curr_size_ r' = size_t_wrap (curr_size_ r - 1)) /\
  (fst (Remove frame_id r) = Return tt ->
     find (node_store_ (snd (Remove frame_id r))) frame_id = None /\
     Remove frame_id (snd (Remove frame_id r))
     = (Return tt, snd (Remove frame_id r))).
Proof.
  unfold Remove. split; [| split; [| split]].
  - now intros ->.
  - intros n -> He. now rewrite He.
  - intros n Hf He. rewrite Hf, He. cbn [negb fst snd node_store_ set_size set_store curr_size_].
    repeat split. intros g Hg. now apply find_erase_other.
  - destruct (find (node_store_ r) frame_id) as [n|] eqn:Hf.
    + destruct (GetEvictable n); cbn [negb fst snd]; [| discriminate].
      intros _. cbn [node_store_ set_size set_store].
      rewrite find_erase. split; reflexivity.
    + intros _. cbn [snd]. rewrite Hf. split; reflexivity.
Qed.

(** X6.  On every replacer reached from a fresh one by RecordAccess,
    SetEvictable, Remove and Evict (clock below INT32_MAX), Size() is the
    number of evictable nodes, no frame is tracked twice, and Size() never
    exceeds the number of tracked frames. *)
Theorem Size_counts_evictable (r : LRUKReplacer) :
  replacer_reachable r ->
  Size r = evictable_count (node_store_ r) /\
  List.NoDup (map fst (node_store_ r)) /\
  0 <= Size r <= Z.of_nat (length (node_store_ r)).
Proof.
  intros H. apply replacer_reachable_inv in H. destruct H as [Hk _ Hs _ _].
  unfold Size. rewrite Hs. repeat split; auto; apply evictable_count_bound.
Qed.

Lemma scenario_replacer_reachable : replacer_reachable Examples.scenario_replacer.
Proof.
  unfold Examples.scenario_replacer, Examples.mark_evictable, Examples.access.
  repeat first
    [ apply rr_SetEvictable
    | apply rr_RecordAccess; [| unfold int32_range; lia | vm_compute; reflexivity]
    | apply rr_init ].
Defined.

Lemma Size_counts_evictable_witness :
  Size Examples.scenario_replacer = 3.
Proof.
  exact (proj1 (Size_counts_evictable Examples.scenario_replacer
                  scenario_replacer_reachable)).
Defined.



End ReplacerExtras.

(** * The buffer pool keeps its frames, page table and replacer in step *)

Module PoolProofs.

Import Replacer BufferPool BufferPoolDisk ReplacerProofs ReplacerInvariant
       ReplacerExtras.

(** *** The replacer, seen through [status] *)

Lemma In_find (m : node_store) (u : Z) (n : LRUKNode) :
  List.NoDup (map fst m) -> In (u, n) m -> find m u = Some n.
Proof.
  induction m as [|[u' v] m IH]; simpl; [tauto |].
  intros Hnd [H | H].
  - injection H as -> ->. now rewrite Z.eqb_refl.
  - inversion Hnd as [| ? ? Hnot Hnd']; subst.
    destruct (Z.eqb_spec u' u) as [-> | Hne]; [| auto].
    exfalso. apply Hnot. apply (in_map fst) in H. exact H.
Qed.

Lemma status_RecordAccess (f : Z) (r : LRUKReplacer) :
  f <= cast_frame_id (replacer_size_ r) ->
  let r' := snd (RecordAccess f r) in
  fst (RecordAccess f r) = Return tt /\
  status r' f = Some (default false (status r f)) /\
  (forall g, g <> f -> status r' g = status r g) /\
  replacer_size_ r' = replacer_size_ r.
Proof.
  intros Hle. destruct (RecordAccess_records f r Hle)
    as (H1 & _ & H3 & _ & H5 & H6 & _).
  cbv zeta. repeat split.
  - exact H1.
  - unfold status. rewrite H3. cbn [option_map]. unfold GetEvictable at 1.
    rewrite H5. now destruct (find (node_store_ r) f).
  - intros g Hg. unfold status. now rewrite H6.
  - unfold RecordAccess. cbn [replacer_size_ set_timestamp].
    repeat match goal with
           | |- context [if ?c then _ else _] => destruct c
           | |- context [match ?x with _ => _ end] => destruct x
           end; reflexivity.
Qed.

Lemma status_SetEvictable (f : Z) (b : bool) (r : LRUKReplacer) :
  status r f <> None ->
  let r' := snd (SetEvictable f b r) in
  fst (SetEvictable f b r) = Return tt /\
  status r' f = Some b /\
  (forall g, g <> f -> status r' g = status r g) /\
  replacer_size_ r' = replacer_size_ r /\
  current_timestamp_ r' = current_timestamp_ r.
Proof.
  unfold status, SetEvictable.
  destruct (find (node_store_ r) f) as [n|] eqn:Hf; [intros _ | now intros []].
  destruct (Bool.eqb (GetEvictable n) b) eqn:He; cbn [fst snd].
  - apply Bool.eqb_prop in He. rewrite Hf. cbn. subst b. repeat split.
  - cbn [node_store_ set_size set_store replacer_size_ current_timestamp_].
    rewrite (find_update _ _ n _ Hf). repeat split.
    intros g Hg. now rewrite find_update_other.
Qed.

Lemma status_Remove (f : Z) (r : LRUKReplacer) :
  status r f <> Some false ->
  let r' := snd (Remove f r) in
  fst (Remove f r) = Return tt /\
  status r' f = None /\
  (forall g, g <> f -> status r' g = status r g) /\
  replacer_size_ r' = replacer_size_ r /\
  current_timestamp_ r' = current_timestamp_ r.
Proof.
  unfold status, Remove.
  destruct (find (node_store_ r) f) as [n|] eqn:Hf; cbn [option_map].
  - destruct (GetEvictable n); [intros _ | now intros []].
    cbv zeta. cbn [negb fst snd node_store_ set_size set_store replacer_size_
         current_timestamp_].
    rewrite find_erase. repeat split.
    intros g Hg. now rewrite find_erase_other.
  - intros _. cbn [fst snd]. rewrite Hf. repeat split.
Qed.

Lemma status_Evict_None (r : LRUKReplacer) :
  replacer_inv r ->
  (fst (Evict r) = None <-> forall f, status r f <> Some true) /\
  (fst (Evict r) = None -> snd (Evict r) = r).
Proof.
  intros Hinv. pose proof (inv_size r Hinv) as Hs.
  pose proof (inv_keys r Hinv) as Hk.
  unfold Evict. destruct (Z.eqb_spec (curr_size_ r) 0) as [H0 | H0]; cbn [fst snd].
  - split; [| reflexivity]. split; [intros _ | reflexivity].
    rewrite Hs in H0. rewrite evictable_count_zero in H0.
    intros f. unfold status.
    destruct (find (node_store_ r) f) as [n|] eqn:Hf; [| discriminate].
    apply find_In in Hf. cbn [option_map]. rewrite (H0 _ _ Hf). discriminate.
  - split; [| discriminate]. split; [discriminate |].
    intros Hall. exfalso. apply H0. rewrite Hs. apply evictable_count_zero.
    intros u n Hin. specialize (Hall u). unfold status in Hall.
    rewrite (In_find _ _ _ Hk Hin) in Hall. cbn in Hall.
    destruct (GetEvictable n); congruence.
Qed.

Lemma status_Evict_Some (r : LRUKReplacer) (f : Z) :
  replacer_inv r -> fst (Evict r) = Some f ->
  let r' := snd (Evict r) in
  status r f = Some true /\
  status r' f = None /\
  (forall g, g <> f -> status r' g = status r g) /\
  replacer_size_ r' = replacer_size_ r /\
  current_timestamp_ r' = current_timestamp_ r.
Proof.
  intros Hinv. pose proof (replacer_inv_ok r Hinv) as Hok.
  pose proof (inv_keys r Hinv) as Hk.
  unfold Evict. destruct (Z.eqb_spec (curr_size_ r) 0) as [H0 | H0];
    cbn [fst snd]; [discriminate |].
  intros [= <-]. rewrite (ok_size r Hok) in H0.
  destruct (Evict_victim r Hok H0) as (n & Hin & He & _).
  cbv zeta. unfold status.
  cbn [node_store_ set_size set_store replacer_size_ current_timestamp_].
  rewrite (In_find _ _ _ Hk Hin), find_erase. cbn [option_map].
  rewrite He. repeat split. intros g Hg. now rewrite find_erase_other.
Qed.

(** *** The constructor *)

Ltac bpm_simpl :=
  cbn [pool_size_ pages_ page_table_ free_list_ replacer_ next_page_id_ free_ids_
       set_page set_replacer set_page_table set_free_list set_free_ids
       bpm_ disk_ fst snd].

Ltac splits := repeat match goal with |- _ /\ _ => split end.

Lemma WritePage_same (d : Disk) (page_id : Z) (data : list Z) :
  WritePage d page_id data page_id = data.
Proof. apply fn_lookup_insert. Qed.

Lemma WritePage_other (d : Disk) (page_id q : Z) (data : list Z) :
  page_id <> q -> WritePage d page_id data q = d q.
Proof. apply fn_lookup_insert_ne. Qed.

Lemma cast_frame_id_small (z : Z) : 0 <= z < 2 ^ 31 -> cast_frame_id z = z.
Proof.
  intros Hz. unfold cast_frame_id. rewrite Z.mod_small by lia.
  destruct (Z.ltb_spec z (2 ^ 31)); lia.
Qed.

Lemma in_frames (a n : nat) (f : Z) :
  In f (map Z.of_nat (seq a n)) <-> Z.of_nat a <= f < Z.of_nat (a + n).
Proof.
  rewrite in_map_iff. split.
  - intros (i & <- & Hi). apply in_seq in Hi. lia.
  - intros Hf. exists (Z.to_nat f). split; [lia |]. apply in_seq. lia.
Qed.

Lemma NoDup_frames (a n : nat) : List.NoDup (map Z.of_nat (seq a n)).
Proof.
  revert a. induction n as [|n IH]; intros a; simpl; constructor.
  - rewrite in_frames. lia.
  - apply IH.
Qed.

Lemma new_pool_free_list (pool_size k : Z) :
  0 <= pool_size < 2 ^ 31 ->
  free_list_ (new_pool pool_size k) = map Z.of_nat (seq 0 (Z.to_nat pool_size)).
Proof.
  intros Hn. unfold new_pool. cbn [free_list_]. apply map_ext_in.
  intros i Hi. apply in_seq in Hi. apply cast_frame_id_small. lia.
Qed.

Lemma new_pool_inv (pool_size k : Z) :
  0 <= pool_size < 2 ^ 31 -> pool_inv (new_pool pool_size k).
Proof.
  intros Hn. pose proof (new_pool_free_list pool_size k Hn) as Hfl.
  constructor; try rewrite Hfl.
  - exact Hn.
  - reflexivity.
  - apply inv_init.
  - apply NoDup_frames.
  - intros f Hf. apply in_frames in Hf. cbn [pool_size_ new_pool]. lia.
  - intros f Hf. now contradict Hf.
  - intros f Hf. destruct (decide (None = Some f)) as [[=] | _].
    left. unfold frame_free. rewrite Hfl. repeat split.
    + apply in_frames. cbn [pool_size_ new_pool] in Hf. lia.
    + intros pid. cbn [page_table_ new_pool]. now rewrite lookup_empty.
  - intros pid f. cbn [page_table_ new_pool]. now rewrite lookup_empty.
  - constructor.
  - intros pid [].
  - reflexivity.
Qed.

(** *** RecordAccess followed by SetEvictable(false) *)

Lemma touch_spec (fit : Z) (s : BufferPoolManager) :
  fit <= cast_frame_id (replacer_size_ (replacer_ s)) ->
  exists r', touch fit s = (Return tt, set_replacer s r') /\
    status r' fit = Some false /\
    (forall g, g <> fit -> status r' g = status (replacer_ s) g) /\
    replacer_size_ r' = replacer_size_ (replacer_ s) /\
    (replacer_inv (replacer_ s) -> int32_range fit -> clock_ok s ->
     replacer_inv r').
Proof.
  intros Hle. destruct (status_RecordAccess fit (replacer_ s) Hle)
    as (H1 & H2 & H3 & H4).
  unfold touch. destruct (RecordAccess fit (replacer_ s)) as [o r1] eqn:HR.
  cbn [fst snd] in *. subst o.
  assert (Ht : status r1 fit <> None) by (rewrite H2; discriminate).
  destruct (status_SetEvictable fit false r1 Ht) as (S1 & S2 & S3 & S4 & _).
  pose proof (inv_SetEvictable fit false r1) as Hinv.
  destruct (SetEvictable fit false r1) as [o2 r2] eqn:HS.
  cbn [fst snd] in *. subst o2. exists r2.
  split; [reflexivity |]. split; [exact S2 |]. split; [| split].
  - intros g Hg. rewrite S3, H3; auto.
  - congruence.
  - intros Hi Hr Hc. apply Hinv.
    replace r1 with (snd (RecordAccess fit (replacer_ s))) by now rewrite HR.
    now apply inv_RecordAccess.
Qed.

(** *** Taking a frame *)

Lemma free_frame_facts (s : BufferPoolManager) (f : Z) :
  pool_inv s -> In f (free_list_ s) -> frame_free s f.
Proof.
  intros Hinv Hin. pose proof (pi_frames _ _ Hinv f (pi_free_range _ _ Hinv f Hin)) as H.
  destruct (decide (None = Some f)) as [[=] | _].
  destruct H as [H | (Hn & _)]; [exact H | contradiction].
Qed.

Lemma tracked_frame_facts (s : BufferPoolManager) (f : Z) :
  pool_inv s -> status (replacer_ s) f <> None -> frame_resident s f.
Proof.
  intros Hinv Hst.
  pose proof (pi_frames _ _ Hinv f (pi_status_range _ _ Hinv f Hst)) as H.
  destruct (decide (None = Some f)) as [[=] | _].
  destruct H as [(_ & Hn & _) | H]; [contradiction | exact H].
Qed.

Lemma mapped_frame_facts (s : BufferPoolManager) (pid f : Z) :
  pool_inv s -> page_table_ s !! pid = Some f -> frame_resident s f.
Proof.
  intros Hinv Hpt. destruct (pi_table _ _ Hinv pid f Hpt) as (Hr & _ & _).
  pose proof (pi_frames _ _ Hinv f Hr) as H.
  destruct (decide (None = Some f)) as [[=] | _].
  destruct H as [(_ & _ & _ & Hn) | H]; [now apply Hn in Hpt | exact H].
Qed.

Lemma take_frame_None (p : Pool) :
  pool_inv (bpm_ p) ->
  (take_frame p = None <->
   free_list_ (bpm_ p) = [] /\
   forall f, status (replacer_ (bpm_ p)) f <> Some true).
Proof.
  intros Hinv. destruct (status_Evict_None _ (pi_replacer _ _ Hinv)) as [HN _].
  unfold take_frame. destruct (free_list_ (bpm_ p)) as [|fit rest].
  - destruct (Evict (replacer_ (bpm_ p))) as [[v|] r'] eqn:HE; cbn [fst] in HN.
    + split; [discriminate |]. intros [_ H]. apply HN in H. discriminate.
    + split; [| reflexivity]. intros _. split; [reflexivity | now apply HN].
  - split; [discriminate | now intros [[=] _]].
Qed.

Lemma take_frame_Some (p : Pool) (fit : Z) (p1 : Pool) :
  pool_inv (bpm_ p) -> take_frame p = Some (fit, p1) ->
  pool_inv_at (Some fit) (bpm_ p1) /\
  0 <= fit < pool_size_ (bpm_ p) /\
  pool_size_ (bpm_ p1) = pool_size_ (bpm_ p) /\
  next_page_id_ (bpm_ p1) = next_page_id_ (bpm_ p) /\
  free_ids_ (bpm_ p1) = free_ids_ (bpm_ p) /\
  current_timestamp_ (replacer_ (bpm_ p1))
  = current_timestamp_ (replacer_ (bpm_ p)) /\
  (forall g, g <> fit -> pages_ (bpm_ p1) g = pages_ (bpm_ p) g) /\
  (forall pid, page_table_ (bpm_ p1) !! pid =
     if decide (page_table_ (bpm_ p) !! pid = Some fit) then None
     else page_table_ (bpm_ p) !! pid) /\
  (forall pid, in_step p pid -> contents p1 pid = contents p pid) /\
  (forall pid, in_step p pid -> in_step p1 pid).
Proof.
  destruct p as [s d]. cbn [bpm_]. intros Hinv. unfold take_frame. cbn [bpm_ disk_].
  destruct (free_list_ s) as [|f0 rest] eqn:Hfl.
  - (* a frame is evicted *)
    destruct (Evict (replacer_ s)) as [[v|] r'] eqn:HE; [| discriminate].
    intros [= -> <-].
    destruct (status_Evict_Some (replacer_ s) fit (pi_replacer _ _ Hinv))
      as (E1 & E2 & E3 & E4 & E5); [now rewrite HE |].
    rewrite HE in E2, E3, E4, E5. cbn [snd] in E2, E3, E4, E5.
    assert (Htr : status (replacer_ s) fit <> None) by (rewrite E1; discriminate).
    pose proof (pi_status_range _ _ Hinv fit Htr) as Hrange.
    destruct (tracked_frame_facts _ _ Hinv Htr) as (_ & Hpin & Hst & Hmap).
    rewrite E1 in Hst. injection Hst as Hst. symmetry in Hst.
    apply Z.eqb_eq in Hst.
    set (page := pages_ s fit) in *.
    assert (Hvictim : forall pid, page_table_ s !! pid = Some fit ->
                                  pid = page_id_ page).
    { intros pid Hp. now destruct (pi_table _ _ Hinv pid fit Hp) as (_ & <- & _). }
    assert (Hpages : forall g, g <> fit ->
              pages_ (set_page (set_page_table (set_replacer s r')
                         (delete (GetPageId page) (page_table_ s))) fit
                        (ResetMemory (if IsDirty page then set_is_dirty page false
                                      else page))) g = pages_ s g).
    { intros g Hg. bpm_simpl. now rewrite fn_lookup_insert_ne. }
    assert (Htable : forall pid,
              delete (GetPageId page) (page_table_ s) !! pid =
              if decide (page_table_ s !! pid = Some fit) then None
              else page_table_ s !! pid).
    { intros pid. rewrite lookup_delete. unfold GetPageId.
      destruct (decide (page_id_ page = pid)) as [<- | Hne];
        destruct (decide (_ = Some fit)) as [Hy | Hn]; try reflexivity.
      - contradiction.
      - apply Hvictim in Hy. congruence. }
    bpm_simpl. splits; auto; try lia.
    + constructor; bpm_simpl.
      * apply (pi_size _ _ Hinv).
      * rewrite E4. apply (pi_rsize _ _ Hinv).
      * replace r' with (snd (Evict (replacer_ s))) by now rewrite HE.
        apply inv_Evict, (pi_replacer _ _ Hinv).
      * rewrite Hfl. constructor.
      * rewrite Hfl. intros f [].
      * intros f Hf. destruct (Z.eq_dec f fit) as [-> | Hne]; [exact Hrange |].
        rewrite E3 in Hf by exact Hne. now apply (pi_status_range _ _ Hinv).
      * intros f Hf. destruct (decide (Some fit = Some f)) as [[= <-] | Hne].
        -- unfold frame_taken. bpm_simpl. rewrite fn_lookup_insert, Hfl.
           repeat split; auto.
           ++ intros pid. rewrite Htable.
              destruct (decide (_ = Some fit)); congruence.
           ++ unfold IsDirty. now destruct (is_dirty_ page).
           ++ unfold IsDirty. destruct (is_dirty_ page) eqn:Hd; cbn; auto.
        -- assert (Hf' : f <> fit) by congruence.
           pose proof (pi_frames _ _ Hinv f Hf) as HF.
           destruct (decide (None = Some f)) as [[=] | _].
           destruct HF as [(Hin & _) | (Hnin & Hp & Hs & Hm)];
             [rewrite Hfl in Hin; destruct Hin |].
           right. unfold frame_resident. bpm_simpl.
           rewrite fn_lookup_insert_ne by congruence.
           rewrite E3 by exact Hf'. rewrite Hfl. repeat split; auto.
           rewrite Htable. destruct (decide (_ = Some fit)); congruence.
      * intros pid f. rewrite Htable.
        destruct (decide (_ = Some fit)) as [Hy | Hn]; [discriminate |].
        intros Hp. destruct (pi_table _ _ Hinv pid f Hp) as (Hr & Hid & Ha).
        rewrite fn_lookup_insert_ne by congruence. auto.
      * apply (pi_ids_nodup _ _ Hinv).
      * apply (pi_ids_range _ _ Hinv).
      * apply (pi_next _ _ Hinv).
    + (* contents *)
      intros pid. unfold in_step, contents. bpm_simpl. fold page. rewrite Htable.
      destruct (page_table_ s !! pid) as [g|] eqn:Hp.
      * destruct (decide (Some g = Some fit)) as [[= ->] | Hne].
        -- apply Hvictim in Hp. subst pid. fold page. unfold IsDirty, GetPageId.
           destruct (is_dirty_ page) eqn:Hd.
           ++ intros _. now rewrite WritePage_same.
           ++ intros [? | ?]; congruence.
        -- intros _. rewrite fn_lookup_insert_ne by congruence. reflexivity.
      * destruct (decide (None = Some fit)) as [[=] | _]. intros _.
        destruct (IsDirty page); [| reflexivity].
        rewrite WritePage_other; [reflexivity |].
        unfold GetPageId. intros <-. congruence.
    + (* in step *)
      intros pid. unfold in_step. bpm_simpl. fold page. rewrite Htable.
      destruct (page_table_ s !! pid) as [g|] eqn:Hp.
      * destruct (decide (Some g = Some fit)) as [[= ->] | Hne]; [auto |].
        rewrite fn_lookup_insert_ne by congruence.
        destruct (IsDirty page); [| auto].
        rewrite WritePage_other; [auto |].
        unfold GetPageId. intros <-. rewrite Hmap in Hp. congruence.
      * destruct (decide (None = Some fit)) as [[=] | _]; auto.
  - (* a frame of the free list *)
    intros [= -> <-]. bpm_simpl.
    assert (Hin : In fit (free_list_ s)) by (rewrite Hfl; now left).
    destruct (free_frame_facts _ _ Hinv Hin) as (_ & Hst & Hpg & Hnm).
    pose proof (pi_free_range _ _ Hinv fit Hin) as Hrange.
    pose proof (pi_free_nodup _ _ Hinv) as Hnd. rewrite Hfl in Hnd.
    inversion Hnd as [| ? ? Hnot Hnd']; subst.
    assert (Htable : forall pid,
              page_table_ s !! pid =
              if decide (page_table_ s !! pid = Some fit) then None
              else page_table_ s !! pid).
    { intros pid. destruct (decide (_ = Some fit)) as [Hy | _]; [| reflexivity].
      now apply Hnm in Hy. }
    splits; auto; try lia.
    constructor; bpm_simpl.
    + apply (pi_size _ _ Hinv).
    + apply (pi_rsize _ _ Hinv).
    + apply (pi_replacer _ _ Hinv).
    + exact Hnd'.
    + intros f Hf. apply (pi_free_range _ _ Hinv). rewrite Hfl. now right.
    + apply (pi_status_range _ _ Hinv).
    + intros f Hf. destruct (decide (Some fit = Some f)) as [[= <-] | Hne].
      * unfold frame_taken. bpm_simpl. rewrite Hpg. repeat split; auto.
      * pose proof (pi_frames _ _ Hinv f Hf) as HF.
        destruct (decide (None = Some f)) as [[=] | _].
        destruct HF as [(Hi & H2 & H3 & H4) | (Hnin & Hp & Hs & Hm)].
        -- left. unfold frame_free. bpm_simpl. repeat split; auto.
           rewrite Hfl in Hi. destruct Hi as [-> | Hi]; [congruence | exact Hi].
        -- right. unfold frame_resident. bpm_simpl. repeat split; auto.
           intros Hi. apply Hnin. rewrite Hfl. now right.
    + apply (pi_table _ _ Hinv).
    + apply (pi_ids_nodup _ _ Hinv).
    + apply (pi_ids_range _ _ Hinv).
    + apply (pi_next _ _ Hinv).
Qed.

(** *** Allocating a page id *)

Lemma AllocatePage_spec (taken : option Z) (s : BufferPoolManager) :
  pool_inv_at taken s ->
  let pit := fst (AllocatePage s) in
  let s2 := snd (AllocatePage s) in
  pool_inv_at taken s2 /\ allocated s2 pit /\ ~ allocated s pit /\
  pool_size_ s2 = pool_size_ s /\ pages_ s2 = pages_ s /\
  page_table_ s2 = page_table_ s /\ free_list_ s2 = free_list_ s /\
  replacer_ s2 = replacer_ s.
Proof.
  intros Hinv. cbv zeta. unfold AllocatePage.
  pose proof (pi_ids_nodup _ _ Hinv) as Hnd.
  pose proof (pi_ids_range _ _ Hinv) as Hrg.
  pose proof (pi_next _ _ Hinv) as Hnx.
  pose proof (pi_table _ _ Hinv) as Htb.
  destruct (free_ids_ s) as [|id rest] eqn:Hids; cbn [fst snd]; bpm_simpl.
  - splits; auto; try lia.
    + destruct Hinv. constructor; bpm_simpl; auto; try lia.
      * intros pid f Hp. destruct (pi_table0 pid f Hp) as (? & ? & Ha).
        splits; auto; try lia. unfold allocated in *. bpm_simpl. rewrite Hids in *.
        split; [lia | tauto].
      * intros pid [].
    + unfold allocated. bpm_simpl. rewrite ?Hids. split; [lia | tauto].
    + unfold allocated. lia.
  - inversion Hnd as [| ? ? Hnot Hnd']; subst.
    assert (Hid : 0 <= id < next_page_id_ s) by (apply Hrg; now left).
    splits; auto; try lia.
    + destruct Hinv. constructor; bpm_simpl; auto.
      * intros pid f Hp. destruct (pi_table0 pid f Hp) as (? & ? & Ha).
        splits; auto; try lia. unfold allocated in *. bpm_simpl. rewrite Hids in *.
        split; [lia |]. intros Hi. apply Ha. now right.
      * intros pid Hi. apply Hrg. now right.
    + unfold allocated. bpm_simpl. tauto.
    + unfold allocated. rewrite Hids. intros [_ Ha]. apply Ha. now left.
Qed.

(** *** Giving the taken frame a page *)

Lemma install_page (s : BufferPoolManager) (fit pid : Z) (page' : Page)
    (r' : LRUKReplacer) :
  pool_inv_at (Some fit) s -> 0 <= fit < pool_size_ s ->
  allocated s pid -> page_table_ s !! pid = None ->
  status r' fit = Some false ->
  (forall g, g <> fit -> status r' g = status (replacer_ s) g) ->
  replacer_size_ r' = replacer_size_ (replacer_ s) ->
  replacer_inv r' ->
  page_id_ page' = pid -> pin_count_ page' = 1 ->
  pool_inv (set_page (set_replacer (set_page_table s (<[pid := fit]> (page_table_ s)))
                                   r') fit page').
Proof.
  intros Hinv Hrange Halloc Hfresh S1 S2 S3 Hr Hid Hpin.
  pose proof (pi_frames _ _ Hinv) as HF.
  assert (Htaken : frame_taken s fit).
  { specialize (HF fit Hrange). now destruct (decide (Some fit = Some fit)). }
  destruct Htaken as (T1 & T2 & T3 & _).
  constructor; bpm_simpl.
  - apply (pi_size _ _ Hinv).
  - rewrite S3. apply (pi_rsize _ _ Hinv).
  - exact Hr.
  - apply (pi_free_nodup _ _ Hinv).
  - apply (pi_free_range _ _ Hinv).
  - intros f Hf. destruct (Z.eq_dec f fit) as [-> | Hne]; [exact Hrange |].
    rewrite S2 in Hf by exact Hne. now apply (pi_status_range _ _ Hinv).
  - intros f Hf. destruct (decide (None = Some f)) as [[=] | _].
    specialize (HF f Hf). destruct (decide (Some fit = Some f)) as [[= <-] | Hne].
    + right. unfold frame_resident. bpm_simpl. rewrite fn_lookup_insert.
      rewrite Hpin, Hid, S1, lookup_insert_eq. splits; auto; try lia.
    + assert (Hf' : f <> fit) by congruence.
      destruct HF as [(F1 & F2 & F3 & F4) | (R1 & R2 & R3 & R4)].
      * left. unfold frame_free. bpm_simpl.
        rewrite fn_lookup_insert_ne by congruence. rewrite S2 by exact Hf'.
        splits; auto; try lia. intros q. rewrite lookup_insert.
        destruct (decide (pid = q)); [congruence | apply F4].
      * right. unfold frame_resident. bpm_simpl.
        rewrite fn_lookup_insert_ne by congruence. rewrite S2 by exact Hf'.
        splits; auto; try lia. rewrite lookup_insert_ne; [exact R4 |].
        intros Heq. rewrite <- Heq in R4. congruence.
  - intros q f. rewrite lookup_insert.
    destruct (decide (pid = q)) as [<- | Hne].
    + intros [= <-]. rewrite fn_lookup_insert. auto.
    + intros Hp. destruct (pi_table _ _ Hinv q f Hp) as (H1 & H2 & H3).
      rewrite fn_lookup_insert_ne; [auto |]. intros <-. now apply T3 in Hp.
  - apply (pi_ids_nodup _ _ Hinv).
  - apply (pi_ids_range _ _ Hinv).
  - apply (pi_next _ _ Hinv).
Qed.

(** *** NewPage *)

Lemma frame_id_accepted (taken : option Z) (s : BufferPoolManager) (fit : Z) :
  pool_inv_at taken s -> 0 <= fit < pool_size_ s ->
  fit <= cast_frame_id (replacer_size_ (replacer_ s)) /\ int32_range fit.
Proof.
  intros Hinv Hr. pose proof (pi_size _ _ Hinv) as Hs.
  rewrite (pi_rsize _ _ Hinv), cast_frame_id_small by exact Hs.
  unfold int32_range. lia.
Qed.

Lemma NewPage_ok (p : Pool) :
  pool_inv (bpm_ p) -> clock_ok (bpm_ p) ->
  (take_frame p = None /\ NewPage p = (Return None, p)) \/
  exists fit pit p',
    NewPage p = (Return (Some (pit, fit)), p') /\
    take_frame p <> None /\
    pool_inv (bpm_ p') /\
    0 <= fit < pool_size_ (bpm_ p) /\
    page_table_ (bpm_ p) !! pit = None /\ ~ allocated (bpm_ p) pit /\
    allocated (bpm_ p') pit /\
    page_table_ (bpm_ p') !! pit = Some fit /\
    pages_ (bpm_ p') fit
    = {| data_ := zeroed; page_id_ := pit; pin_count_ := 1; is_dirty_ := false |} /\
    (forall g, g <> fit -> pages_ (bpm_ p') g = pages_ (bpm_ p) g) /\
    (forall pid, pid <> pit ->
       page_table_ (bpm_ p') !! pid =
       if decide (page_table_ (bpm_ p) !! pid = Some fit) then None
       else page_table_ (bpm_ p) !! pid) /\
    (forall pid, pid <> pit -> in_step p pid ->
       contents p' pid = contents p pid /\ in_step p' pid).
Proof.
  intros Hinv Hclock. unfold NewPage.
  destruct (take_frame p) as [[fit p1]|] eqn:HT; [right | left; auto].
  destruct (take_frame_Some p fit p1 Hinv HT)
    as (I1 & Hrange & Hsz & Hnx & Hids & Hts & Hpg & Htab & Hct & Hst).
  destruct (AllocatePage_spec (Some fit) (bpm_ p1) I1)
    as (I2 & A1 & A2 & A3 & A4 & A5 & A6 & A7).
  destruct (AllocatePage (bpm_ p1)) as [pit s2] eqn:HA. cbn [fst snd] in *.
  set (s3 := set_page_table s2 (<[pit:=fit]> (page_table_ s2))).
  assert (Hr3 : replacer_ s3 = replacer_ (bpm_ p1)) by (subst s3; bpm_simpl; exact A7).
  assert (Hrange2 : 0 <= fit < pool_size_ s2) by (rewrite A3, Hsz; exact Hrange).
  destruct (frame_id_accepted _ _ fit I2 Hrange2) as [Hle Hint].
  destruct (touch_spec fit s3) as (r' & HTo & S1 & S2 & S3 & S4).
  { subst s3. bpm_simpl. exact Hle. }
  rewrite HTo. exists fit, pit. eexists. split; [reflexivity |]. bpm_simpl.
  assert (Htaken : frame_taken s2 fit).
  { pose proof (pi_frames _ _ I2 fit Hrange2) as HF.
    now destruct (decide (Some fit = Some fit)). }
  destruct Htaken as (_ & _ & _ & _ & _ & Hzero).
  assert (Hnew : page_table_ (bpm_ p) !! pit = None).
  { destruct (page_table_ (bpm_ p) !! pit) as [g|] eqn:Hp; [| reflexivity].
    destruct (pi_table _ _ Hinv pit g Hp) as (_ & _ & Ha).
    exfalso. apply A2. unfold allocated in *. now rewrite Hnx, Hids. }
  assert (Hfresh : page_table_ s2 !! pit = None).
  { rewrite A5, Htab, Hnew. now destruct (decide (None = Some fit)). }
  assert (Hinv' : pool_inv (set_page (set_replacer s3 r') fit
             {| data_ := data_ (pages_ (set_replacer s3 r') fit); page_id_ := pit;
                pin_count_ := 0 + 1; is_dirty_ := false |})).
  { subst s3. apply install_page; auto.
    - apply S4; [| exact Hint |].
      + bpm_simpl. apply (pi_replacer _ _ I2).
      + unfold clock_ok in *. bpm_simpl. rewrite A7, Hts. exact Hclock. }
  splits; auto; try lia.
  - unfold allocated in *. now rewrite <- Hnx, <- Hids.
  - subst s3. bpm_simpl. apply lookup_insert_eq.
  - subst s3. bpm_simpl. rewrite fn_lookup_insert. now rewrite Hzero.
  - intros g Hg. subst s3. bpm_simpl.
    rewrite fn_lookup_insert_ne by congruence. rewrite A4. now apply Hpg.
  - intros pid Hne. subst s3. bpm_simpl.
    rewrite lookup_insert_ne by congruence. rewrite A5. apply Htab.
  - intros pid Hne Hin. specialize (Hct pid Hin). specialize (Hst pid Hin).
    unfold contents, in_step in *. subst s3. bpm_simpl.
    rewrite lookup_insert_ne by congruence. rewrite A5.
    destruct (page_table_ (bpm_ p1) !! pid) as [g|] eqn:Hp; [| auto].
    assert (Hg : g <> fit).
    { intros ->. pose proof (pi_frames _ _ I1 fit) as HF.
      rewrite Hsz in HF. specialize (HF Hrange).
      destruct (decide (Some fit = Some fit)); [| congruence].
      destruct HF as (_ & _ & Hno & _). now apply Hno in Hp. }
    rewrite fn_lookup_insert_ne by congruence. rewrite A4. auto.
Qed.

(** *** Changing the pin count or the dirty flag of a resident page *)

Lemma update_resident (s : BufferPoolManager) (fit : Z) (page' : Page)
    (r' : LRUKReplacer) :
  pool_inv s -> frame_resident s fit -> 0 <= fit < pool_size_ s ->
  page_id_ page' = page_id_ (pages_ s fit) -> 0 <= pin_count_ page' ->
  status r' fit = Some (pin_count_ page' =? 0) ->
  (forall g, g <> fit -> status r' g = status (replacer_ s) g) ->
  replacer_size_ r' = replacer_size_ (replacer_ s) ->
  replacer_inv r' ->
  pool_inv (set_page (set_replacer s r') fit page').
Proof.
  intros Hinv (R1 & R2 & R3 & R4) Hrange Hid Hpin S1 S2 S3 Hr.
  constructor; bpm_simpl.
  - apply (pi_size _ _ Hinv).
  - rewrite S3. apply (pi_rsize _ _ Hinv).
  - exact Hr.
  - apply (pi_free_nodup _ _ Hinv).
  - apply (pi_free_range _ _ Hinv).
  - intros f Hf. destruct (Z.eq_dec f fit) as [-> | Hne]; [exact Hrange |].
    rewrite S2 in Hf by exact Hne. now apply (pi_status_range _ _ Hinv).
  - intros f Hf. destruct (decide (None = Some f)) as [[=] | _].
    destruct (Z.eq_dec f fit) as [-> | Hne].
    + right. unfold frame_resident. bpm_simpl. rewrite fn_lookup_insert.
      rewrite Hid. splits; auto.
    + pose proof (pi_frames _ _ Hinv f Hf) as HF.
      destruct (decide (None = Some f)) as [[=] | _].
      unfold frame_free, frame_resident in *. bpm_simpl.
      rewrite fn_lookup_insert_ne by congruence. rewrite S2 by exact Hne.
      exact HF.
  - intros q f Hp. destruct (pi_table _ _ Hinv q f Hp) as (H1 & H2 & H3).
    splits; auto; try lia.
    destruct (Z.eq_dec f fit) as [-> | Hne].
    + rewrite fn_lookup_insert. congruence.
    + rewrite fn_lookup_insert_ne by congruence. exact H2.
  - apply (pi_ids_nodup _ _ Hinv).
  - apply (pi_ids_range _ _ Hinv).
  - apply (pi_next _ _ Hinv).
Qed.

(** *** FetchPage *)


Lemma FetchPage_hit (p : Pool) (page_id fit : Z) :
  pool_inv (bpm_ p) -> clock_ok (bpm_ p) ->
  page_table_ (bpm_ p) !! page_id = Some fit ->
  exists r',
    FetchPage page_id p
    = (Return (Some fit),
       {| bpm_ := set_page (set_replacer (bpm_ p) r') fit
                    (set_pin_count (pages_ (bpm_ p) fit)
                                   (pin_count_ (pages_ (bpm_ p) fit) + 1));
          disk_ := disk_ p |}) /\
    status r' fit = Some false /\
    (forall g, g <> fit -> status r' g = status (replacer_ (bpm_ p)) g) /\
    0 <= pin_count_ (pages_ (bpm_ p) fit) /\
    pool_inv (set_page (set_replacer (bpm_ p) r') fit
                (set_pin_count (pages_ (bpm_ p) fit)
                               (pin_count_ (pages_ (bpm_ p) fit) + 1))).
Proof.
  intros Hinv Hclock Hp. unfold FetchPage. rewrite Hp.
  destruct (pi_table _ _ Hinv _ _ Hp) as (Hrange & Hid & _).
  pose proof (mapped_frame_facts _ _ _ Hinv Hp) as Hres.
  destruct (frame_id_accepted _ _ fit Hinv Hrange) as [Hle Hint].
  destruct (touch_spec fit (bpm_ p) Hle) as (r' & HTo & S1 & S2 & S3 & S4).
  rewrite HTo. exists r'. pose proof Hres as (_ & Hpin & _).
  splits; auto.
  apply update_resident; auto; cbn [pin_count_ page_id_ set_pin_count]; try lia.
  - rewrite S1. f_equal. symmetry. apply Z.eqb_neq. lia.
  - apply S4; auto. apply (pi_replacer _ _ Hinv).
Qed.

Lemma FetchPage_miss (p : Pool) (page_id : Z) :
  pool_inv (bpm_ p) -> clock_ok (bpm_ p) -> allocated (bpm_ p) page_id ->
  page_table_ (bpm_ p) !! page_id = None ->
  (take_frame p = None /\ FetchPage page_id p = (Return None, p)) \/
  exists fit p',
    FetchPage page_id p = (Return (Some fit), p') /\
    take_frame p <> None /\
    pool_inv (bpm_ p') /\
    0 <= fit < pool_size_ (bpm_ p) /\
    page_table_ (bpm_ p') !! page_id = Some fit /\
    pages_ (bpm_ p') fit
    = {| data_ := disk_ p page_id; page_id_ := page_id; pin_count_ := 1;
         is_dirty_ := false |} /\
    (forall g, g <> fit -> pages_ (bpm_ p') g = pages_ (bpm_ p) g) /\
    (forall pid, pid <> page_id ->
       page_table_ (bpm_ p') !! pid =
       if decide (page_table_ (bpm_ p) !! pid = Some fit) then None
       else page_table_ (bpm_ p) !! pid) /\
    (forall pid, in_step p pid ->
       contents p' pid = contents p pid /\ in_step p' pid).
Proof.
  intros Hinv Hclock Halloc Hnone. unfold FetchPage. rewrite Hnone.
  destruct (take_frame p) as [[fit p1]|] eqn:HT; [right | left; auto].
  destruct (take_frame_Some p fit p1 Hinv HT)
    as (I1 & Hrange & Hsz & Hnx & Hids & Hts & Hpg & Htab & Hct & Hst).
  set (s1 := bpm_ p1) in *.
  set (s2 := set_page_table s1 (<[page_id:=fit]> (page_table_ s1))).
  assert (Hrange1 : 0 <= fit < pool_size_ s1) by (rewrite Hsz; exact Hrange).
  destruct (frame_id_accepted _ _ fit I1 Hrange1) as [Hle Hint].
  destruct (touch_spec fit s2) as (r' & HTo & S1 & S2 & S3 & S4).
  { subst s2. bpm_simpl. exact Hle. }
  rewrite HTo. exists fit. eexists. split; [reflexivity |]. bpm_simpl.
  assert (Htaken : frame_taken s1 fit).
  { pose proof (pi_frames _ _ I1 fit Hrange1) as HF.
    now destruct (decide (Some fit = Some fit)). }
  destruct Htaken as (_ & _ & Hno & Hpin0 & Hclean & _).
  assert (Hfresh : page_table_ s1 !! page_id = None).
  { rewrite Htab, Hnone. now destruct (decide (None = Some fit)). }
  assert (Hdisk : disk_ p1 page_id = disk_ p page_id).
  { specialize (Hct page_id). unfold contents, in_step in Hct.
    fold s1 in Hct. rewrite Hfresh, Hnone in Hct. now apply Hct. }
  assert (Hinv' : pool_inv (set_page (set_replacer s2 r') fit
             {| data_ := ReadPage (disk_ p1) page_id; page_id_ := page_id;
                pin_count_ := pin_count_ (pages_ (set_replacer s2 r') fit) + 1;
                is_dirty_ := is_dirty_ (pages_ (set_replacer s2 r') fit) |})).
  { subst s2. apply install_page; auto.
    - unfold allocated in *. now rewrite Hnx, Hids.
    - apply S4; [| exact Hint |].
      + bpm_simpl. apply (pi_replacer _ _ I1).
      + unfold clock_ok in *. bpm_simpl. fold s1 in Hts. rewrite Hts. exact Hclock.
    - bpm_simpl. cbn [pin_count_]. rewrite Hpin0. reflexivity. }
  splits; auto; try lia.
  - subst s2. bpm_simpl. apply lookup_insert_eq.
  - subst s2. bpm_simpl. rewrite fn_lookup_insert.
    unfold ReadPage. now rewrite Hpin0, Hclean, Hdisk.
  - intros g Hg. subst s2. bpm_simpl.
    rewrite fn_lookup_insert_ne by congruence. now apply Hpg.
  - intros pid Hne. subst s2. bpm_simpl.
    rewrite lookup_insert_ne by congruence. apply Htab.
  - intros pid Hin. specialize (Hct pid Hin). specialize (Hst pid Hin).
    unfold contents, in_step in *. fold s1 in Hct, Hst. subst s2. bpm_simpl.
    rewrite lookup_insert.
    destruct (decide (page_id = pid)) as [<- | Hne].
    + rewrite fn_lookup_insert. cbn [data_ is_dirty_]. unfold ReadPage.
      rewrite Hnone, Hdisk. auto.
    + destruct (page_table_ s1 !! pid) as [g|] eqn:Hp; [| auto].
      assert (Hg : g <> fit) by (intros ->; now apply Hno in Hp).
      rewrite fn_lookup_insert_ne by congruence. auto.
Qed.

(** *** UnpinPage *)

Lemma UnpinPage_ok (page_id : Z) (is_dirty : bool) (s : BufferPoolManager) :
  pool_inv s ->
  (UnpinPage page_id is_dirty s = (Return false, s) /\
   (page_table_ s !! page_id = None \/
    exists fit, page_table_ s !! page_id = Some fit /\
                pin_count_ (pages_ s fit) = 0)) \/
  exists fit r',
    page_table_ s !! page_id = Some fit /\
    0 < pin_count_ (pages_ s fit) /\
    UnpinPage page_id is_dirty s
    = (Return true,
       set_replacer
         (set_page s fit
            {| data_ := data_ (pages_ s fit); page_id_ := page_id_ (pages_ s fit);
               pin_count_ := pin_count_ (pages_ s fit) - 1;
               is_dirty_ := is_dirty || is_dirty_ (pages_ s fit) |}) r') /\
    status r' fit = Some (pin_count_ (pages_ s fit) - 1 =? 0) /\
    (forall g, g <> fit -> status r' g = status (replacer_ s) g) /\
    pool_inv
      (set_replacer
         (set_page s fit
            {| data_ := data_ (pages_ s fit); page_id_ := page_id_ (pages_ s fit);
               pin_count_ := pin_count_ (pages_ s fit) - 1;
               is_dirty_ := is_dirty || is_dirty_ (pages_ s fit) |}) r').
Proof.
  intros Hinv. unfold UnpinPage.
  destruct (page_table_ s !! page_id) as [fit|] eqn:Hp; [| left; auto].
  unfold GetPinCount.
  destruct (Z.eqb_spec (pin_count_ (pages_ s fit)) 0) as [H0 | H0];
    [left; eauto |]. right.
  destruct (pi_table _ _ Hinv _ _ Hp) as (Hrange & Hid & _).
  pose proof (mapped_frame_facts _ _ _ Hinv Hp) as Hres.
  pose proof Hres as (_ & Hpin & Hst & _).
  assert (Hp2 : (if is_dirty
                 then set_is_dirty (set_pin_count (pages_ s fit) (pin_count_ (pages_ s fit) - 1)) is_dirty
                 else set_pin_count (pages_ s fit) (pin_count_ (pages_ s fit) - 1))
                = {| data_ := data_ (pages_ s fit); page_id_ := page_id_ (pages_ s fit);
                     pin_count_ := pin_count_ (pages_ s fit) - 1;
                     is_dirty_ := is_dirty || is_dirty_ (pages_ s fit) |}).
  { destruct is_dirty; reflexivity. }
  rewrite Hp2. cbn [pin_count_]. bpm_simpl.
  assert (Htr : status (replacer_ s) fit <> None) by (rewrite Hst; discriminate).
  destruct (Z.eqb_spec (pin_count_ (pages_ s fit) - 1) 0) as [H1 | H1].
  - destruct (status_SetEvictable fit true (replacer_ s) Htr)
      as (S1 & S2 & S3 & S4 & _).
    pose proof (inv_SetEvictable fit true (replacer_ s) (pi_replacer _ _ Hinv)) as Hr.
    destruct (SetEvictable fit true (replacer_ s)) as [o r'] eqn:HS.
    cbn [fst snd] in *. subst o. exists fit, r'.
    assert (Hst' : status r' fit = Some (pin_count_ (pages_ s fit) - 1 =? 0)).
    { rewrite S2. f_equal. symmetry. apply Z.eqb_eq. exact H1. }
    splits; auto; try lia.
    change (pool_inv (set_page (set_replacer s r') fit
              {| data_ := data_ (pages_ s fit); page_id_ := page_id_ (pages_ s fit);
                 pin_count_ := pin_count_ (pages_ s fit) - 1;
                 is_dirty_ := is_dirty || is_dirty_ (pages_ s fit) |})).
    apply update_resident; auto; cbn [pin_count_ page_id_]; try lia.
  - exists fit, (replacer_ s).
    assert (Hst' : status (replacer_ s) fit = Some (pin_count_ (pages_ s fit) - 1 =? 0)).
    { rewrite Hst. f_equal. transitivity false; [| symmetry];
        apply Z.eqb_neq; lia. }
    splits; auto; try lia.
    change (pool_inv (set_page (set_replacer s (replacer_ s)) fit
              {| data_ := data_ (pages_ s fit); page_id_ := page_id_ (pages_ s fit);
                 pin_count_ := pin_count_ (pages_ s fit) - 1;
                 is_dirty_ := is_dirty || is_dirty_ (pages_ s fit) |})).
    apply update_resident; auto; cbn [pin_count_ page_id_]; try lia.
    apply (pi_replacer _ _ Hinv).
Qed.

(** *** FlushPage *)

Lemma FlushPage_inv (page_id : Z) (p : Pool) :
  pool_inv (bpm_ p) -> pool_inv (bpm_ (snd (FlushPage page_id p))).
Proof.
  intros Hinv. unfold FlushPage.
  destruct (page_table_ (bpm_ p) !! page_id) as [fit|] eqn:Hp; [| exact Hinv].
  cbn [snd bpm_].
  destruct (pi_table _ _ Hinv _ _ Hp) as (Hrange & Hid & _).
  pose proof (mapped_frame_facts _ _ _ Hinv Hp) as Hres.
  pose proof Hres as (_ & Hpin & Hst & _).
  change (pool_inv (set_page (set_replacer (bpm_ p) (replacer_ (bpm_ p))) fit
            (set_is_dirty (pages_ (bpm_ p) fit) false))).
  apply update_resident; auto.
  apply (pi_replacer _ _ Hinv).
Qed.

(** *** DeletePage *)

Lemma DeletePage_ok (page_id : Z) (s : BufferPoolManager) :
  pool_inv s ->
  (page_table_ s !! page_id = None /\ DeletePage page_id s = (Return true, s)) \/
  (exists fit, page_table_ s !! page_id = Some fit /\
               0 < pin_count_ (pages_ s fit) /\
               DeletePage page_id s = (Return false, s)) \/
  exists fit s',
    page_table_ s !! page_id = Some fit /\ pin_count_ (pages_ s fit) = 0 /\
    DeletePage page_id s = (Return true, s') /\
    pool_inv s' /\
    page_table_ s' = delete page_id (page_table_ s) /\
    pages_ s' = <[fit := fresh_page]> (pages_ s) /\
    free_list_ s' = free_list_ s ++ [fit] /\
    free_ids_ s' = free_ids_ s ++ [page_id] /\
    next_page_id_ s' = next_page_id_ s /\
    status (replacer_ s') fit = None /\
    (forall g, g <> fit -> status (replacer_ s') g = status (replacer_ s) g) /\
    current_timestamp_ (replacer_ s') = current_timestamp_ (replacer_ s).
Proof.
  intros Hinv. unfold DeletePage.
  destruct (page_table_ s !! page_id) as [fit|] eqn:Hp; [right | left; auto].
  unfold GetPinCount.
  destruct (Z.ltb_spec 0 (pin_count_ (pages_ s fit))) as [Hpos | Hle];
    [left; eauto | right].
  destruct (pi_table _ _ Hinv _ _ Hp) as (Hrange & Hid & Halloc).
  pose proof (mapped_frame_facts _ _ _ Hinv Hp) as (Hnin & Hpin & Hst & Hmap).
  assert (Hpin0 : pin_count_ (pages_ s fit) = 0) by lia.
  rewrite Hpin0 in Hst. cbn in Hst.
  assert (Hfresh : set_page_id (set_is_dirty (ResetMemory (pages_ s fit)) false)
                               INVALID_PAGE_ID = fresh_page).
  { unfold set_page_id, set_is_dirty, ResetMemory, fresh_page.
    cbn [data_ page_id_ pin_count_ is_dirty_]. now rewrite Hpin0. }
  rewrite Hfresh. bpm_simpl.
  assert (Hev : status (replacer_ s) fit <> Some false) by (rewrite Hst; discriminate).
  destruct (status_Remove fit (replacer_ s) Hev) as (S1 & S2 & S3 & S4 & S5).
  pose proof (inv_Remove fit (replacer_ s) (pi_replacer _ _ Hinv)) as Hr.
  destruct (Remove fit (replacer_ s)) as [o r'] eqn:HR.
  cbn [fst snd] in *. subst o. exists fit. eexists.
  split; [reflexivity |]. split; [exact Hpin0 |]. split; [reflexivity |].
  unfold DeallocatePage. bpm_simpl. splits; auto.
  destruct Halloc as [Ha1 Ha2].
  constructor; bpm_simpl.
  - apply (pi_size _ _ Hinv).
  - rewrite S4. apply (pi_rsize _ _ Hinv).
  - exact Hr.
  - apply List.NoDup_app; [apply (pi_free_nodup _ _ Hinv) | repeat constructor; auto |].
    intros a Ha [<- | []]. contradiction.
  - intros f Hf. apply in_app_or in Hf. destruct Hf as [Hf | [<- | []]];
      [now apply (pi_free_range _ _ Hinv) | exact Hrange].
  - intros f Hf. destruct (Z.eq_dec f fit) as [-> | Hne]; [exact Hrange |].
    rewrite S3 in Hf by exact Hne. now apply (pi_status_range _ _ Hinv).
  - intros f Hf. destruct (decide (None = Some f)) as [[=] | _].
    destruct (Z.eq_dec f fit) as [-> | Hne].
    + left. unfold frame_free. bpm_simpl. rewrite fn_lookup_insert.
      splits; auto.
      * apply in_or_app. right. now left.
      * intros q. rewrite lookup_delete.
        destruct (decide (page_id = q)) as [<- | Hq]; [discriminate |].
        intros Hq'. destruct (pi_table _ _ Hinv _ _ Hq') as (_ & Hid' & _).
        congruence.
    + pose proof (pi_frames _ _ Hinv f Hf) as HF.
      destruct (decide (None = Some f)) as [[=] | _].
      destruct HF as [(F1 & F2 & F3 & F4) | (R1 & R2 & R3 & R4)].
      * left. unfold frame_free. bpm_simpl.
        rewrite fn_lookup_insert_ne by congruence. rewrite S3 by exact Hne.
        splits; auto.
        -- apply in_or_app. now left.
        -- intros q. rewrite lookup_delete.
           destruct (decide (page_id = q)); [discriminate | apply F4].
      * right. unfold frame_resident. bpm_simpl.
        rewrite fn_lookup_insert_ne by congruence. rewrite S3 by exact Hne.
        splits; auto.
        -- intros Hi. apply in_app_or in Hi. destruct Hi as [Hi | [Hi | []]];
             [contradiction | congruence].
        -- rewrite lookup_delete_ne; [exact R4 |].
           intros Heq. rewrite <- Heq in R4. congruence.
  - intros q f. rewrite lookup_delete.
    destruct (decide (page_id = q)) as [<- | Hq]; [discriminate |].
    intros Hq'. destruct (pi_table _ _ Hinv _ _ Hq') as (Hr' & Hid' & Hal).
    assert (Hf : f <> fit).
    { intros ->. congruence. }
    rewrite fn_lookup_insert_ne by congruence.
    splits; auto; try lia. destruct Hal as [Hal1 Hal2].
    unfold allocated. bpm_simpl. split; [exact Hal1 |].
    intros Hi. apply in_app_or in Hi. destruct Hi as [Hi | [Hi | []]];
      [contradiction | congruence].
  - apply List.NoDup_app; [apply (pi_ids_nodup _ _ Hinv) | repeat constructor; auto |].
    intros a Ha [<- | []]. contradiction.
  - intros q Hq. apply in_app_or in Hq. destruct Hq as [Hq | [<- | []]];
      [now apply (pi_ids_range _ _ Hinv) | exact Ha1].
  - apply (pi_next _ _ Hinv).
Qed.

(** *** Reachable pools *)

Lemma pool_reachable_inv (p : Pool) : pool_reachable p -> pool_inv (bpm_ p).
Proof.
  induction 1 as [n k d Hn | p _ IH Hc | p pid _ IH Hc Ha | p pid b _ IH
                 | p pid _ IH | p pid _ IH].
  - now apply new_pool_inv.
  - destruct (NewPage_ok p IH Hc) as [[_ ->] | (fit & pit & p' & -> & _ & Hi & _)];
      assumption.
  - destruct (page_table_ (bpm_ p) !! pid) as [fit|] eqn:Hp.
    + destruct (FetchPage_hit p pid fit IH Hc Hp) as (r' & -> & _ & _ & _ & Hi).
      exact Hi.
    + destruct (FetchPage_miss p pid IH Hc Ha Hp)
        as [[_ ->] | (fit & p' & -> & _ & Hi & _)]; assumption.
  - unfold on_bpm.
    destruct (UnpinPage_ok pid b (bpm_ p) IH)
      as [[-> _] | (fit & r' & _ & _ & -> & _ & _ & Hi)]; assumption.
  - now apply FlushPage_inv.
  - unfold on_bpm.
    destruct (DeletePage_ok pid (bpm_ p) IH)
      as [[_ ->] | [(fit & _ & _ & ->) | (fit & s' & _ & _ & -> & Hi & _)]];
      assumption.
Qed.

(** *** Laws *)

Lemma pool_2_2_reachable : pool_reachable PoolExamples.pool_2_2.
Proof. apply pr_new. lia. Defined.

Lemma pool_one_page_reachable : pool_reachable PoolExamples.pool_one_page.
Proof.
  apply pr_NewPage; [exact pool_2_2_reachable | vm_compute; reflexivity].
Defined.

Lemma pool_two_pages_reachable : pool_reachable PoolExamples.pool_two_pages.
Proof.
  apply pr_NewPage; [exact pool_one_page_reachable | vm_compute; reflexivity].
Defined.

Lemma pool_page_0_released_reachable :
  pool_reachable PoolExamples.pool_page_0_released.
Proof. apply pr_UnpinPage. exact pool_two_pages_reachable. Defined.

(** X8.  Every pool reached from the constructor by NewPage, FetchPage (of
    allocated page ids), UnpinPage, FlushPage and DeletePage, the clock of
    the replacer staying below INT32_MAX, satisfies [pool_inv]; in
    particular no two page ids share a frame, a mapped frame records the
    page id it is mapped from, pin counts are not negative, and the
    replacer holds a frame evictable exactly when its pin count is 0. *)
Theorem reachable_pool_consistent (p : Pool) :
  pool_reachable p ->
  let s := bpm_ p in
  pool_inv s /\
  (forall a b f, page_table_ s !! a = Some f -> page_table_ s !! b = Some f ->
                 a = b) /\
  (forall pid f, page_table_ s !! pid = Some f ->
     0 <= f < pool_size_ s /\ ~ In f (free_list_ s) /\
     page_id_ (pages_ s f) = pid /\ 0 <= pin_count_ (pages_ s f) /\
     status (replacer_ s) f = Some (pin_count_ (pages_ s f) =? 0)) /\
  (forall f, In f (free_list_ s) ->
     pages_ s f = fresh_page /\ status (replacer_ s) f = None).
Proof.
  intros Hr. apply pool_reachable_inv in Hr. cbv zeta. splits; auto.
  - intros a b f Ha Hb.
    destruct (pi_table _ _ Hr a f Ha) as (_ & <- & _).
    now destruct (pi_table _ _ Hr b f Hb) as (_ & <- & _).
  - intros pid f Hp. destruct (pi_table _ _ Hr pid f Hp) as (H1 & H2 & _).
    destruct (mapped_frame_facts _ _ _ Hr Hp) as (R1 & R2 & R3 & _).
    splits; auto; lia.
  - intros f Hf. destruct (free_frame_facts _ _ Hr Hf) as (_ & F2 & F3 & _).
    auto.
Qed.

Lemma reachable_pool_consistent_witness :
  pool_inv (bpm_ PoolExamples.pool_page_0_released).
Proof.
  exact (proj1 (reachable_pool_consistent _ pool_page_0_released_reachable)).
Defined.

(** X9.  On a pool that satisfies the invariant, no exception of the
    replacer leaves NewPage, FetchPage (of an allocated page id), UnpinPage
    or DeletePage: each call returns. *)
Theorem pool_calls_return (p : Pool) :
  pool_inv (bpm_ p) -> clock_ok (bpm_ p) ->
  (exists r, fst (NewPage p) = Return r) /\
  (forall page_id, allocated (bpm_ p) page_id ->
     exists r, fst (FetchPage page_id p) = Return r) /\
  (forall page_id is_dirty,
     exists b, fst (UnpinPage page_id is_dirty (bpm_ p)) = Return b) /\
  (forall page_id, exists b, fst (DeletePage page_id (bpm_ p)) = Return b).
Proof.
  intros Hinv Hc. splits.
  - destruct (NewPage_ok p Hinv Hc) as [[_ ->] | (fit & pit & p' & -> & _)];
      eauto.
  - intros pid Ha. destruct (page_table_ (bpm_ p) !! pid) as [fit|] eqn:Hp.
    + destruct (FetchPage_hit p pid fit Hinv Hc Hp) as (r' & -> & _). eauto.
    + destruct (FetchPage_miss p pid Hinv Hc Ha Hp)
        as [[_ ->] | (fit & p' & -> & _)]; eauto.
  - intros pid b. destruct (UnpinPage_ok pid b (bpm_ p) Hinv)
      as [[-> _] | (fit & r' & _ & _ & -> & _)]; eauto.
  - intros pid. destruct (DeletePage_ok pid (bpm_ p) Hinv)
      as [[_ ->] | [(fit & _ & _ & ->) | (fit & s' & _ & _ & -> & _)]]; eauto.
Qed.

Lemma pool_calls_return_witness :
  exists r, fst (NewPage PoolExamples.pool_page_0_released) = Return r.
Proof.
  refine (proj1 (pool_calls_return PoolExamples.pool_page_0_released _ _)).
  - exact (pool_reachable_inv _ pool_page_0_released_reachable).
  - vm_compute. reflexivity.
Defined.

Lemma no_frame_iff_all_pinned (p : Pool) :
  pool_inv (bpm_ p) ->
  (take_frame p = None <->
   forall f, 0 <= f < pool_size_ (bpm_ p) ->
     0 < pin_count_ (pages_ (bpm_ p) f) /\
     page_table_ (bpm_ p) !! page_id_ (pages_ (bpm_ p) f) = Some f).
Proof.
  intros Hinv. rewrite (take_frame_None p Hinv). split.
  - intros [Hfl Hst] f Hf. pose proof (pi_frames _ _ Hinv f Hf) as HF.
    destruct (decide (None = Some f)) as [[=] | _].
    destruct HF as [(Hin & _) | (_ & R2 & R3 & R4)].
    + rewrite Hfl in Hin. destruct Hin.
    + split; [| exact R4]. specialize (Hst f). rewrite R3 in Hst.
      destruct (Z.eqb_spec (pin_count_ (pages_ (bpm_ p) f)) 0); [congruence | lia].
  - intros Hall. split.
    + destruct (free_list_ (bpm_ p)) as [|f rest] eqn:Hfl; [reflexivity |].
      assert (Hin : In f (free_list_ (bpm_ p))) by (rewrite Hfl; now left).
      destruct (free_frame_facts _ _ Hinv Hin) as (_ & _ & Hpg & _).
      destruct (Hall f (pi_free_range _ _ Hinv f Hin)) as [Hpin _].
      rewrite Hpg in Hpin. cbn in Hpin. lia.
    + intros f Hst.
      assert (Htr : status (replacer_ (bpm_ p)) f <> None) by congruence.
      destruct (tracked_frame_facts _ _ Hinv Htr) as (_ & _ & R3 & _).
      destruct (Hall f (pi_status_range _ _ Hinv f Htr)) as [Hpin _].
      rewrite R3 in Hst.
      destruct (Z.eqb_spec (pin_count_ (pages_ (bpm_ p) f)) 0); [lia | congruence].
Qed.

(** X10.  NewPage returns nullptr exactly when every frame of the pool
    holds a pinned page, and FetchPage of an allocated page that is not
    resident returns nullptr in exactly that case; a call that returns
    nullptr leaves the pool and the disk as they were. *)
Theorem no_frame_exactly_when_all_pinned (p : Pool) :
  pool_inv (bpm_ p) -> clock_ok (bpm_ p) ->
  let all_pinned :=
    forall f, 0 <= f < pool_size_ (bpm_ p) ->
      0 < pin_count_ (pages_ (bpm_ p) f) /\
      page_table_ (bpm_ p) !! page_id_ (pages_ (bpm_ p) f) = Some f in
  (fst (NewPage p) = Return None <-> all_pinned) /\
  (fst (NewPage p) = Return None -> snd (NewPage p) = p) /\
  (forall page_id,
     allocated (bpm_ p) page_id -> page_table_ (bpm_ p) !! page_id = None ->
     (fst (FetchPage page_id p) = Return None <-> all_pinned) /\
     (fst (FetchPage page_id p) = Return None -> snd (FetchPage page_id p) = p)).
Proof.
  intros Hinv Hc. cbv zeta.
  pose proof (no_frame_iff_all_pinned p Hinv) as Hiff. splits.
  - rewrite <- Hiff. destruct (NewPage_ok p Hinv Hc)
      as [[HT ->] | (fit & pit & p' & -> & HT & _)]; cbn [fst].
    + tauto.
    + split; [discriminate | contradiction].
  - destruct (NewPage_ok p Hinv Hc)
      as [[HT ->] | (fit & pit & p' & -> & HT & _)]; cbn [fst snd];
      [reflexivity | discriminate].
  - intros page_id Ha Hn. rewrite <- Hiff.
    destruct (FetchPage_miss p page_id Hinv Hc Ha Hn)
      as [[HT ->] | (fit & p' & -> & HT & _)]; cbn [fst snd].
    + repeat split; auto.
    + split; [split; [discriminate | contradiction] | discriminate].
Qed.

Lemma no_frame_exactly_when_all_pinned_witness :
  fst (NewPage PoolExamples.pool_two_pages) = Return None.
Proof.
  refine (proj2 (proj1 (no_frame_exactly_when_all_pinned
                          PoolExamples.pool_two_pages _ _)) _).
  - exact (pool_reachable_inv _ pool_two_pages_reachable).
  - vm_compute. reflexivity.
  - intros f Hf. change (pool_size_ (bpm_ PoolExamples.pool_two_pages)) with 2 in Hf.
    assert (Hcase : f = 0 \/ f = 1) by lia.
    destruct Hcase as [-> | ->]; vm_compute; split; reflexivity.
Defined.

(** X11.  A NewPage that returns a frame returns it with a page id that was
    not allocated before, mapped in the page table, pinned once, clean and
    zeroed, whether the frame came from the free list or from an eviction.
    Every other frame is as it was, and the only mapping that goes away is
    the one of the page evicted from the frame. *)
Theorem NewPage_installs_zeroed_page (p : Pool) (pit fit : Z) :
  pool_inv (bpm_ p) -> clock_ok (bpm_ p) ->
  fst (NewPage p) = Return (Some (pit, fit)) ->
  let s := bpm_ p in
  let s' := bpm_ (snd (NewPage p)) in
  0 <= fit < pool_size_ s /\
  ~ allocated s pit /\ page_table_ s !! pit = None /\
  allocated s' pit /\ page_table_ s' !! pit = Some fit /\
  pages_ s' fit
  = {| data_ := zeroed; page_id_ := pit; pin_count_ := 1; is_dirty_ := false |} /\
  (forall g, g <> fit -> pages_ s' g = pages_ s g) /\
  (forall pid, pid <> pit ->
     page_table_ s' !! pid =
     if decide (page_table_ s !! pid = Some fit) then None
     else page_table_ s !! pid) /\
  pool_inv s'.
Proof.
  intros Hinv Hc. cbv zeta.
  destruct (NewPage_ok p Hinv Hc)
    as [[_ ->] | (fit' & pit' & p' & -> & _ & H1 & H2 & H3 & H4 & H5 & H6 & H7
                  & H8 & H9 & _)]; cbn [fst snd]; [discriminate |].
  intros [= -> ->]. splits; auto; lia.
Qed.

Lemma NewPage_installs_zeroed_page_witness :
  pages_ (bpm_ (snd (NewPage PoolExamples.pool_page_0_released))) 0
  = {| data_ := zeroed; page_id_ := 2; pin_count_ := 1; is_dirty_ := false |}.
Proof.
  refine (proj1 (proj2 (proj2 (proj2 (proj2 (proj2
            (NewPage_installs_zeroed_page PoolExamples.pool_page_0_released 2 0
               _ _ _))))))).
  - exact (pool_reachable_inv _ pool_page_0_released_reachable).
  - vm_compute. reflexivity.
  - vm_compute. reflexivity.
Defined.

(** X12.  A FetchPage that returns a frame returns the page mapped to that
    frame and holding what the page read as before the call: the bytes of
    its frame when it was resident (the pin count is then one more, and
    page table, free list and disk are untouched), the bytes on disk
    otherwise (the pin count is then 1). *)
Theorem FetchPage_returns_contents (p : Pool) (page_id fit : Z) :
  pool_inv (bpm_ p) -> clock_ok (bpm_ p) -> allocated (bpm_ p) page_id ->
  fst (FetchPage page_id p) = Return (Some fit) ->
  let s := bpm_ p in
  let p' := snd (FetchPage page_id p) in
  page_table_ (bpm_ p') !! page_id = Some fit /\
  page_id_ (pages_ (bpm_ p') fit) = page_id /\
  data_ (pages_ (bpm_ p') fit) = contents p page_id /\
  pin_count_ (pages_ (bpm_ p') fit)
  = match page_table_ s !! page_id with
    | Some f => pin_count_ (pages_ s f) + 1
    | None => 1
    end /\
  (forall f, page_table_ s !! page_id = Some f ->
     fit = f /\ page_table_ (bpm_ p') = page_table_ s /\
     free_list_ (bpm_ p') = free_list_ s /\ disk_ p' = disk_ p /\
     is_dirty_ (pages_ (bpm_ p') fit) = is_dirty_ (pages_ s f)) /\
  pool_inv (bpm_ p').
Proof.
  intros Hinv Hc Ha. cbv zeta. unfold contents.
  destruct (page_table_ (bpm_ p) !! page_id) as [f|] eqn:Hp.
  - destruct (FetchPage_hit p page_id f Hinv Hc Hp) as (r' & -> & _ & _ & _ & Hi).
    cbn [fst snd]. intros [= <-]. bpm_simpl. rewrite fn_lookup_insert.
    cbn [data_ pin_count_ page_id_ set_pin_count is_dirty_].
    destruct (pi_table _ _ Hinv _ _ Hp) as (_ & Hid & _).
    splits; auto. intros f' [= <-]. auto.
  - destruct (FetchPage_miss p page_id Hinv Hc Ha Hp)
      as [[_ ->] | (fit' & p' & -> & _ & H1 & H2 & H3 & H4 & _)];
      cbn [fst snd]; [discriminate |].
    intros [= ->]. rewrite H4. cbn [data_ pin_count_ page_id_].
    splits; auto. discriminate.
Qed.

Lemma FetchPage_returns_contents_witness :
  pin_count_ (pages_ (bpm_ (snd (FetchPage 1 PoolExamples.pool_page_0_released))) 1)
  = 2.
Proof.
  refine (proj1 (proj2 (proj2 (proj2
            (FetchPage_returns_contents PoolExamples.pool_page_0_released 1 1
               _ _ _ _))))).
  - exact (pool_reachable_inv _ pool_page_0_released_reachable).
  - vm_compute. reflexivity.
  - split; [vm_compute; split; [discriminate | reflexivity] | vm_compute; intros []].
  - vm_compute. reflexivity.
Defined.

(** X13.  The pool is transparent.  A page that is in step with the disk
    (its frame is flagged dirty or equals the disk copy) reads the same,
    through its frame or from disk, after NewPage, FetchPage of any
    allocated page, UnpinPage, FlushPage and DeletePage of another page,
    whichever page gets evicted on the way, and it stays in step.  After
    FlushPage of a resident page the disk holds the bytes of its frame. *)
Theorem pool_is_transparent (p : Pool) (pid : Z) :
  pool_inv (bpm_ p) -> clock_ok (bpm_ p) ->
  allocated (bpm_ p) pid -> in_step p pid ->
  let kept (p' : Pool) := contents p' pid = contents p pid /\ in_step p' pid in
  kept (snd (NewPage p)) /\
  (forall q, allocated (bpm_ p) q -> kept (snd (FetchPage q p))) /\
  (forall q is_dirty, kept (snd (on_bpm (UnpinPage q is_dirty) p))) /\
  (forall q, kept (snd (FlushPage q p))) /\
  (forall q, page_table_ (bpm_ p) !! q <> None ->
             disk_ (snd (FlushPage q p)) q = contents p q) /\
  (forall q, q <> pid -> kept (snd (on_bpm (DeletePage q) p))).
Proof.
  intros Hinv Hc Ha Hin kept. splits; try intros q; try unfold kept.
  - destruct (NewPage_ok p Hinv Hc)
      as [[_ ->] | (fit & pit & p' & -> & _ & _ & _ & _ & Hna & _ & _ & _ & _ & _
                    & Hk)]; cbn [snd]; [auto |].
    apply Hk; [| exact Hin]. intros ->. contradiction.
  - intros Hq. destruct (page_table_ (bpm_ p) !! q) as [f|] eqn:Hp.
    + destruct (FetchPage_hit p q f Hinv Hc Hp) as (r' & -> & _). cbn [snd].
      unfold contents, in_step in *. bpm_simpl.
      destruct (page_table_ (bpm_ p) !! pid) as [g|] eqn:Hg; [| auto].
      destruct (Z.eq_dec g f) as [-> | Hne].
      * rewrite fn_lookup_insert. auto.
      * rewrite fn_lookup_insert_ne by congruence. auto.
    + destruct (FetchPage_miss p q Hinv Hc Hq Hp)
        as [[_ ->] | (fit & p' & -> & _ & _ & _ & _ & _ & _ & _ & Hk)];
        cbn [snd]; auto.
  - intros d. unfold on_bpm.
    destruct (UnpinPage_ok q d (bpm_ p) Hinv)
      as [[-> _] | (fit & r' & _ & _ & -> & _)]; cbn [snd].
    + destruct p; auto.
    + unfold contents, in_step in *. bpm_simpl.
      destruct (page_table_ (bpm_ p) !! pid) as [g|] eqn:Hg; [| auto].
      destruct (Z.eq_dec g fit) as [-> | Hne].
      * rewrite fn_lookup_insert. cbn [data_ is_dirty_]. split; [reflexivity |].
        destruct Hin as [-> | Hd]; [left; apply orb_true_r | auto].
      * rewrite fn_lookup_insert_ne by congruence. auto.
  - unfold FlushPage.
    destruct (page_table_ (bpm_ p) !! q) as [f|] eqn:Hp; cbn [snd]; [| auto].
    unfold contents, in_step in *. bpm_simpl.
    destruct (page_table_ (bpm_ p) !! pid) as [g|] eqn:Hg.
    + destruct (Z.eq_dec g f) as [-> | Hne].
      * rewrite fn_lookup_insert. cbn [data_ is_dirty_]. split; [reflexivity |].
        right. assert (q = pid) as ->.
        { destruct (pi_table _ _ Hinv _ _ Hp) as (_ & <- & _).
          now destruct (pi_table _ _ Hinv _ _ Hg) as (_ & <- & _). }
        now rewrite WritePage_same.
      * rewrite fn_lookup_insert_ne by congruence. split; [reflexivity |].
        rewrite WritePage_other; [exact Hin | intros ->; congruence].
    + split; [| exact I]. apply WritePage_other. intros ->. congruence.
  - intros Hq. unfold FlushPage, contents.
    destruct (page_table_ (bpm_ p) !! q) as [f|]; [| congruence].
    cbn [snd disk_]. apply WritePage_same.
  - intros Hq. unfold on_bpm.
    destruct (DeletePage_ok q (bpm_ p) Hinv)
      as [[_ ->] | [(fit & _ & _ & ->)
                   | (fit & s' & Hp & _ & -> & _ & Ht & Hpg & _)]]; cbn [snd].
    + destruct p; auto.
    + destruct p; auto.
    + unfold contents, in_step in *. bpm_simpl. rewrite Ht, Hpg.
      rewrite lookup_delete_ne by exact Hq.
      destruct (page_table_ (bpm_ p) !! pid) as [g|] eqn:Hg; [| auto].
      assert (Hne : g <> fit).
      { intros ->. destruct (pi_table _ _ Hinv _ _ Hp) as (_ & H1 & _).
        destruct (pi_table _ _ Hinv _ _ Hg) as (_ & H2 & _). congruence. }
      rewrite fn_lookup_insert_ne by congruence. auto.
Qed.

Lemma pool_is_transparent_witness :
  contents (snd (NewPage PoolExamples.pool_page_0_released)) 0
  = contents PoolExamples.pool_page_0_released 0.
Proof.
  refine (proj1 (proj1 (pool_is_transparent PoolExamples.pool_page_0_released 0
                          _ _ _ _))).
  - exact (pool_reachable_inv _ pool_page_0_released_reachable).
  - vm_compute. reflexivity.
  - split; [vm_compute; split; [discriminate | reflexivity] | vm_compute; intros []].
  - vm_compute. left. reflexivity.
Defined.

(** X14.  FetchPage of a resident page followed by UnpinPage(false) is a
    round trip: the fetch pins the page once more without I/O, the unpin
    returns true, and afterwards every frame, the page table, the free
    list, the disk and the evictable status of every frame are as before
    the fetch. *)
Theorem FetchPage_then_UnpinPage (p : Pool) (page_id fit : Z) :
  pool_inv (bpm_ p) -> clock_ok (bpm_ p) ->
  page_table_ (bpm_ p) !! page_id = Some fit ->
  let s := bpm_ p in
  let p1 := snd (FetchPage page_id p) in
  let r := UnpinPage page_id false (bpm_ p1) in
  fst (FetchPage page_id p) = Return (Some fit) /\
  pin_count_ (pages_ (bpm_ p1) fit) = pin_count_ (pages_ s fit) + 1 /\
  disk_ p1 = disk_ p /\
  fst r = Return true /\
  (forall g, pages_ (snd r) g = pages_ s g) /\
  page_table_ (snd r) = page_table_ s /\
  free_list_ (snd r) = free_list_ s /\
  (forall g, status (replacer_ (snd r)) g = status (replacer_ s) g).
Proof.
  intros Hinv Hc Hp. cbv zeta.
  destruct (FetchPage_hit p page_id fit Hinv Hc Hp)
    as (r' & -> & S1 & S2 & Hpin & Hi).
  cbn [fst snd bpm_ disk_].
  pose proof (mapped_frame_facts _ _ _ Hinv Hp) as (_ & _ & Hst & _).
  set (s1 := set_page (set_replacer (bpm_ p) r') fit
               (set_pin_count (pages_ (bpm_ p) fit)
                              (pin_count_ (pages_ (bpm_ p) fit) + 1))) in *.
  assert (Hp1 : page_table_ s1 !! page_id = Some fit) by exact Hp.
  assert (Hpg1 : pages_ s1 fit
                 = set_pin_count (pages_ (bpm_ p) fit)
                                 (pin_count_ (pages_ (bpm_ p) fit) + 1)).
  { subst s1. bpm_simpl. apply fn_lookup_insert. }
  destruct (UnpinPage_ok page_id false s1 Hi)
    as [[_ [Hn | (f & Hf & H0)]] | (f & r2 & Hf & _ & -> & T1 & T2 & _)].
  - congruence.
  - rewrite Hp1 in Hf. injection Hf as <-. rewrite Hpg1 in H0.
    cbn [pin_count_ set_pin_count] in H0. lia.
  - rewrite Hp1 in Hf. injection Hf as <-. rewrite Hpg1 in *.
    cbn [pin_count_ set_pin_count data_ page_id_ is_dirty_ orb] in *.
    cbn [fst snd]. subst s1. bpm_simpl. splits; auto.
    + intros g. destruct (Z.eq_dec g fit) as [-> | Hne].
      * rewrite fn_lookup_insert. destruct (pages_ (bpm_ p) fit) as [d i n b].
        cbn [data_ page_id_ pin_count_ is_dirty_]. f_equal. lia.
      * now rewrite !fn_lookup_insert_ne by congruence.
    + intros g. destruct (Z.eq_dec g fit) as [-> | Hne].
      * rewrite T1, Hst. do 2 f_equal. lia.
      * rewrite T2 by exact Hne. now apply S2.
Qed.

Lemma FetchPage_then_UnpinPage_witness :
  pages_ (snd (UnpinPage 0 false
                 (bpm_ (snd (FetchPage 0 PoolExamples.pool_page_0_released))))) 0
  = pages_ (bpm_ PoolExamples.pool_page_0_released) 0.
Proof.
  refine (proj1 (proj2 (proj2 (proj2 (proj2
            (FetchPage_then_UnpinPage PoolExamples.pool_page_0_released 0 0
               _ _ _))))) 0).
  - exact (pool_reachable_inv _ pool_page_0_released_reachable).
  - vm_compute. reflexivity.
  - vm_compute. reflexivity.
Defined.

(** X15.  DeletePage of a resident page that nobody pins returns true,
    unmaps the page, resets its frame and queues both the frame and the
    page id for reuse behind the ones already waiting: the NewPage that
    follows takes the first free frame and the first recycled page id, so
    with nothing else waiting it hands out the deleted page's frame and
    page id again. *)
Theorem DeletePage_then_NewPage_recycles (p : Pool) (page_id fit : Z) :
  pool_inv (bpm_ p) -> clock_ok (bpm_ p) ->
  page_table_ (bpm_ p) !! page_id = Some fit ->
  pin_count_ (pages_ (bpm_ p) fit) = 0 ->
  let s := bpm_ p in
  let p1 := snd (on_bpm (DeletePage page_id) p) in
  fst (on_bpm (DeletePage page_id) p) = Return true /\
  page_table_ (bpm_ p1) !! page_id = None /\
  pages_ (bpm_ p1) fit = fresh_page /\
  disk_ p1 = disk_ p /\
  fst (NewPage p1)
  = Return (Some (hd page_id (free_ids_ s), hd fit (free_list_ s))).
Proof.
  intros Hinv Hc Hp Hpin. cbv zeta. unfold on_bpm.
  destruct (DeletePage_ok page_id (bpm_ p) Hinv)
    as [[Hn _] | [(f & Hf & Hpos & _)
                 | (f & s' & Hf & _ & -> & Hi & Ht & Hpg & Hfl & Hids & Hnx & _ & _
                    & Hts)]].
  - congruence.
  - rewrite Hp in Hf. injection Hf as <-. lia.
  - rewrite Hp in Hf. injection Hf as <-. cbn [fst snd bpm_ disk_].
    splits; auto.
    + rewrite Ht. apply lookup_delete_eq.
    + rewrite Hpg. apply fn_lookup_insert.
    + set (p1 := {| bpm_ := s'; disk_ := disk_ p |}).
      assert (Hc1 : clock_ok (bpm_ p1)).
      { unfold clock_ok in *. cbn [bpm_ p1]. now rewrite Hts. }
      destruct (NewPage_ok p1 Hi Hc1) as [[HT _] | (fit' & pit & p' & HN & _)].
      * apply (take_frame_None p1 Hi) in HT. destruct HT as [HT _].
        cbn [bpm_ p1] in HT. rewrite Hfl in HT.
        now destruct (free_list_ (bpm_ p)).
      * rewrite HN. cbn [fst]. revert HN. unfold NewPage, take_frame.
        cbn [bpm_ disk_ p1]. rewrite Hfl.
        destruct (free_list_ (bpm_ p) ++ [fit]) as [|x rest] eqn:Hl.
        { now destruct (free_list_ (bpm_ p)). }
        assert (Hx : x = hd fit (free_list_ (bpm_ p))).
        { destruct (free_list_ (bpm_ p)); cbn in Hl; now injection Hl. }
        cbn [bpm_ disk_]. unfold AllocatePage. bpm_simpl. rewrite Hids.
        destruct (free_ids_ (bpm_ p) ++ [page_id]) as [|y rest'] eqn:Hl'.
        { now destruct (free_ids_ (bpm_ p)). }
        assert (Hy : y = hd page_id (free_ids_ (bpm_ p))).
        { destruct (free_ids_ (bpm_ p)); cbn in Hl'; now injection Hl'. }
        match goal with
        | |- context [touch ?a ?b] => destruct (touch a b) as [[[] | | |] s4]
        end; intros [= <- <- _]; now rewrite Hx, Hy.
Qed.

Lemma DeletePage_then_NewPage_recycles_witness :
  fst (NewPage (snd (on_bpm (DeletePage 0) PoolExamples.pool_page_0_released)))
  = Return (Some (0, 0)).
Proof.
  refine (proj2 (proj2 (proj2 (proj2
            (DeletePage_then_NewPage_recycles PoolExamples.pool_page_0_released
               0 0 _ _ _ _))))).
  - exact (pool_reachable_inv _ pool_page_0_released_reachable).
  - vm_compute. reflexivity.
  - vm_compute. reflexivity.
  - vm_compute. reflexivity.
Defined.

End PoolProofs.

(** * Laws of the page guards *)

Module GuardProofs.

Import BufferPool BufferPoolDisk PoolProofs.

Lemma Drop_inert (w : PageGuard.World) :
  PageGuard.Drop PageGuard.inert w = inr (Return tt, PageGuard.inert, w).
Proof. reflexivity. Qed.

Lemma set_bpm_same (w : PageGuard.World) (p : Pool) :
  PageGuard.pool_ w = p ->
  PageGuard.set_bpm w (bpm_ p) = w.
Proof. intros <-. destruct w as [[s d] l]. reflexivity. Qed.

(** Dropping a guard on a mapped, pinned frame. *)
Lemma Drop_pinned (g : PageGuard.BasicPageGuard) (w : PageGuard.World) (f : Z) :
  let s := bpm_ (PageGuard.pool_ w) in
  pool_inv s ->
  PageGuard.bpm_ g = true -> PageGuard.page_ g = Some f ->
  page_table_ s !! page_id_ (pages_ s f) = Some f ->
  0 < pin_count_ (pages_ s f) ->
  exists r',
    PageGuard.Drop g w
    = inr (Return tt, PageGuard.inert,
           PageGuard.set_bpm w
             (set_replacer
                (set_page s f
                   {| data_ := data_ (pages_ s f);
                      page_id_ := page_id_ (pages_ s f);
                      pin_count_ := pin_count_ (pages_ s f) - 1;
                      is_dirty_ := PageGuard.is_dirty_ g || is_dirty_ (pages_ s f) |})
                r')) /\
    status r' f = Some (pin_count_ (pages_ s f) - 1 =? 0) /\
    (forall h, h <> f -> status r' h = status (replacer_ s) h) /\
    pool_inv
      (set_replacer
         (set_page s f
            {| data_ := data_ (pages_ s f);
               page_id_ := page_id_ (pages_ s f);
               pin_count_ := pin_count_ (pages_ s f) - 1;
               is_dirty_ := PageGuard.is_dirty_ g || is_dirty_ (pages_ s f) |})
         r').
Proof.
  intros s Hinv Hb Hpg Hmap Hpin. unfold PageGuard.Drop. rewrite Hb, Hpg.
  fold s. unfold GetPageId.
  destruct (UnpinPage_ok (page_id_ (pages_ s f)) (PageGuard.is_dirty_ g) s Hinv)
    as [[_ [Hn | (f' & Hf & H0)]] | (f' & r' & Hf & _ & -> & T1 & T2 & Hi)].
  - congruence.
  - rewrite Hmap in Hf. injection Hf as <-. lia.
  - rewrite Hmap in Hf. injection Hf as <-. exists r'. auto.
Qed.

(** X16.  A basic guard releases its pin exactly once.  When
    FetchPageBasic of an allocated page returns a guard on a frame, Drop
    returns and leaves the guard inert, the page stays mapped to the frame
    with the pin count it had before the fetch (0 when it was not
    resident), the replacer holds the frame evictable exactly when that
    count is 0, and a second Drop changes nothing. *)
Theorem FetchPageBasic_then_Drop (w : PageGuard.World) (page_id f : Z)
    (g : PageGuard.BasicPageGuard) (w1 : PageGuard.World) :
  let s := bpm_ (PageGuard.pool_ w) in
  pool_inv s -> clock_ok s -> allocated s page_id ->
  PageGuard.FetchPageBasic page_id w = (Return g, w1) ->
  PageGuard.page_ g = Some f ->
  exists w2,
    PageGuard.Drop g w1 = inr (Return tt, PageGuard.inert, w2) /\
    PageGuard.Drop PageGuard.inert w2 = inr (Return tt, PageGuard.inert, w2) /\
    let s2 := bpm_ (PageGuard.pool_ w2) in
    page_table_ s2 !! page_id = Some f /\
    pin_count_ (pages_ s2 f)
    = match page_table_ s !! page_id with
      | Some f0 => pin_count_ (pages_ s f0)
      | None => 0
      end /\
    status (replacer_ s2) f = Some (pin_count_ (pages_ s2 f) =? 0) /\
    PageGuard.latches_ w2 = PageGuard.latches_ w /\
    pool_inv s2.
Proof.
  intros s Hinv Hc Ha. unfold PageGuard.FetchPageBasic. subst s.
  destruct w as [p l]. cbn [PageGuard.pool_] in *.
  destruct (page_table_ (bpm_ p) !! page_id) as [f0|] eqn:Hp.
  - destruct (FetchPage_hit p page_id f0 Hinv Hc Hp)
      as (r' & -> & S1 & S2 & Hpin & Hi).
    intros [= <- <-]. cbn [PageGuard.make_guard PageGuard.page_].
    intros [= <-].
    set (s1 := set_page (set_replacer (bpm_ p) r') f0
                 (set_pin_count (pages_ (bpm_ p) f0)
                                (pin_count_ (pages_ (bpm_ p) f0) + 1))) in *.
    assert (Hpg1 : pages_ s1 f0
                   = set_pin_count (pages_ (bpm_ p) f0)
                                   (pin_count_ (pages_ (bpm_ p) f0) + 1)).
    { subst s1. bpm_simpl. apply fn_lookup_insert. }
    destruct (pi_table _ _ Hinv _ _ Hp) as (_ & Hid & _).
    edestruct (Drop_pinned (PageGuard.make_guard (Some f0))
                 (PageGuard.set_pool {| PageGuard.pool_ := p; PageGuard.latches_ := l |}
                    {| bpm_ := s1; disk_ := disk_ p |}) f0)
      as (r2 & HD & T1 & T2 & Hi2); try reflexivity.
    + exact Hi.
    + cbn [PageGuard.pool_ PageGuard.set_pool bpm_]. rewrite Hpg1.
      cbn [page_id_ set_pin_count]. rewrite Hid. exact Hp.
    + cbn [PageGuard.pool_ PageGuard.set_pool bpm_]. rewrite Hpg1.
      cbn [pin_count_ set_pin_count]. lia.
    + eexists. split; [exact HD |]. split; [reflexivity |].
      cbn [PageGuard.pool_ PageGuard.set_pool PageGuard.set_bpm bpm_
           PageGuard.latches_] in *.
      rewrite Hpg1 in *. cbn [pin_count_ set_pin_count page_id_ data_ is_dirty_] in *.
      subst s1. bpm_simpl. rewrite fn_lookup_insert. cbn [pin_count_].
      splits; auto. lia.
  - destruct (FetchPage_miss p page_id Hinv Hc Ha Hp)
      as [[_ ->] | (fit & p' & -> & _ & Hi & Hr & Hmap & Hpg & _)].
    + intros [= <- <-]. discriminate.
    + intros [= <- <-]. cbn [PageGuard.make_guard PageGuard.page_].
      intros [= ->].
      edestruct (Drop_pinned (PageGuard.make_guard (Some f))
                   (PageGuard.set_pool
                      {| PageGuard.pool_ := p; PageGuard.latches_ := l |} p') f)
        as (r2 & HD & T1 & T2 & Hi2); try reflexivity.
      * exact Hi.
      * cbn [PageGuard.pool_ PageGuard.set_pool]. rewrite Hpg.
        cbn [page_id_]. exact Hmap.
      * cbn [PageGuard.pool_ PageGuard.set_pool]. rewrite Hpg. cbn. lia.
      * eexists. split; [exact HD |]. split; [reflexivity |].
        cbn [PageGuard.pool_ PageGuard.set_pool PageGuard.set_bpm bpm_
             PageGuard.latches_] in *.
        rewrite Hpg in *. cbn [pin_count_ page_id_ data_ is_dirty_] in *.
        bpm_simpl. rewrite fn_lookup_insert. cbn [pin_count_].
        splits; auto.
Qed.


Lemma FetchPageBasic_then_Drop_witness :
  exists w2,
    PageGuard.Drop GuardExamples.guard_0
      (snd (PageGuard.FetchPageBasic 0 GuardExamples.world_0))
    = inr (Return tt, PageGuard.inert, w2) /\
    pin_count_ (pages_ (bpm_ (PageGuard.pool_ w2)) 0) = 0.
Proof.
  destruct (FetchPageBasic_then_Drop GuardExamples.world_0 0 0
              GuardExamples.guard_0
              (snd (PageGuard.FetchPageBasic 0 GuardExamples.world_0)))
    as (w2 & H1 & _ & _ & H2 & _).
  - exact (pool_reachable_inv _ pool_page_0_released_reachable).
  - vm_compute. reflexivity.
  - split; [vm_compute; split; [discriminate | reflexivity] | vm_compute; intros []].
  - vm_compute. reflexivity.
  - reflexivity.
  - exists w2. split; [exact H1 | exact H2].
Defined.

(** X17.  Move assignment drops the guard assigned to.  When the target
    guards a mapped frame that is pinned, the assignment unpins that frame
    once (passing the target's dirty flag), the target takes over what the
    source guarded and the source is left inert; no other frame changes.
    When the target's frame is not pinned any more, Drop throws inside the
    noexcept operator and the process ends.  An inert target is only
    overwritten. *)
Theorem assign_drops_previous (this that : PageGuard.BasicPageGuard)
    (w : PageGuard.World) (f : Z) :
  let s := bpm_ (PageGuard.pool_ w) in
  pool_inv s ->
  PageGuard.bpm_ this = true -> PageGuard.page_ this = Some f ->
  page_table_ s !! page_id_ (pages_ s f) = Some f ->
  (0 < pin_count_ (pages_ s f) ->
   exists w',
     PageGuard.assign this that w = inr (Return tt, (that, PageGuard.inert), w') /\
     let s' := bpm_ (PageGuard.pool_ w') in
     pages_ s' f
     = {| data_ := data_ (pages_ s f); page_id_ := page_id_ (pages_ s f);
          pin_count_ := pin_count_ (pages_ s f) - 1;
          is_dirty_ := PageGuard.is_dirty_ this || is_dirty_ (pages_ s f) |} /\
     (forall h, h <> f -> pages_ s' h = pages_ s h) /\
     page_table_ s' = page_table_ s /\
     PageGuard.latches_ w' = PageGuard.latches_ w /\
     pool_inv s') /\
  (pin_count_ (pages_ s f) = 0 ->
   PageGuard.assign this that w = inr (AssertFailed, (this, that), w)) /\
  PageGuard.assign PageGuard.inert that w
  = inr (Return tt, (that, PageGuard.inert), w).
Proof.
  intros s Hinv Hb Hpg Hmap. subst s.
  assert (Hmove : PageGuard.move_guard that = (that, PageGuard.inert))
    by now destruct that.
  splits.
  - intros Hpin.
    destruct (Drop_pinned this w f Hinv Hb Hpg Hmap Hpin) as (r' & HD & _ & _ & Hi).
    unfold PageGuard.assign. rewrite HD, Hmove.
    eexists. split; [reflexivity |].
    cbn [PageGuard.pool_ PageGuard.set_pool PageGuard.set_bpm bpm_
         PageGuard.latches_]. bpm_simpl. rewrite fn_lookup_insert.
    splits; auto. intros h Hh. now rewrite fn_lookup_insert_ne by congruence.
  - intros Hpin. unfold PageGuard.assign, PageGuard.Drop. rewrite Hb, Hpg.
    unfold GetPageId, UnpinPage. rewrite Hmap. unfold GetPinCount.
    rewrite Hpin. cbn [Z.eqb]. now rewrite (set_bpm_same w _ eq_refl).
  - unfold PageGuard.assign. cbn. now rewrite Hmove.
Qed.

Lemma assign_drops_previous_witness :
  PageGuard.assign GuardExamples.guard_0 GuardExamples.guard_1 GuardExamples.world_0
  = inr (AssertFailed, (GuardExamples.guard_0, GuardExamples.guard_1),
         GuardExamples.world_0).
Proof.
  refine (proj1 (proj2 (assign_drops_previous GuardExamples.guard_0
                          GuardExamples.guard_1 GuardExamples.world_0 0 _ _ _ _)) _).
  - exact (pool_reachable_inv _ pool_page_0_released_reachable).
  - reflexivity.
  - reflexivity.
  - vm_compute. reflexivity.
  - vm_compute. reflexivity.
Defined.

Lemma latch_insert_same (l : Z -> PageGuard.Latch) (f : Z) (x : PageGuard.Latch) :
  <[f := x]> l f = x.
Proof. apply fn_lookup_insert. Qed.




(** X19.  Upgrading moves the pin into the typed guard and drops the dirty
    mark.  UpgradeRead (UpgradeWrite) of a basic guard on a mapped, pinned
    frame whose latch no writer (nobody) holds takes the latch, leaves the
    pool alone and the basic guard inert; the typed guard's Drop then
    gives the latch back, unpins the frame once and passes [false] as the
    dirty flag whatever flag the basic guard carried, so the frame's own
    dirty flag is as it was. *)
Theorem upgrade_then_drop (g : PageGuard.BasicPageGuard) (w : PageGuard.World)
    (f : Z) :
  let s := bpm_ (PageGuard.pool_ w) in
  let released (w2 : PageGuard.World) :=
    PageGuard.latches_ w2 f = PageGuard.latches_ w f /\
    pages_ (bpm_ (PageGuard.pool_ w2)) f
    = {| data_ := data_ (pages_ s f); page_id_ := page_id_ (pages_ s f);
         pin_count_ := pin_count_ (pages_ s f) - 1;
         is_dirty_ := is_dirty_ (pages_ s f) |} in
  pool_inv s ->
  PageGuard.bpm_ g = true -> PageGuard.page_ g = Some f ->
  page_table_ s !! page_id_ (pages_ s f) = Some f ->
  0 < pin_count_ (pages_ s f) ->
  (PageGuard.writer_ (PageGuard.latches_ w f) = false ->
   exists rg w1 w2,
     PageGuard.UpgradeRead g w = inr (rg, PageGuard.inert, w1) /\
     PageGuard.pool_ w1 = PageGuard.pool_ w /\
     PageGuard.ReadDrop rg w1
     = inr (Return tt, {| PageGuard.r_guard_ := PageGuard.inert |}, w2) /\
     released w2) /\
  (PageGuard.latches_ w f = PageGuard.free_latch ->
   exists wg w1 w2,
     PageGuard.UpgradeWrite g w = inr (wg, PageGuard.inert, w1) /\
     PageGuard.pool_ w1 = PageGuard.pool_ w /\
     PageGuard.WriteDrop wg w1
     = inr (Return tt, {| PageGuard.w_guard_ := PageGuard.inert |}, w2) /\
     released w2).
Proof.
  intros s released Hinv Hb Hpg Hmap Hpin. subst s released.
  destruct w as [p l]. cbn [PageGuard.pool_ PageGuard.latches_] in *.
  set (w0 := {| PageGuard.pool_ := p; PageGuard.latches_ := l |}).
  set (g1 := {| PageGuard.bpm_ := true; PageGuard.page_ := Some f;
                PageGuard.is_dirty_ := false |}).
  split.
  - intros Hw.
    set (w1 := PageGuard.set_latch w0 f
                 {| PageGuard.readers_ := S (PageGuard.readers_ (l f));
                    PageGuard.writer_ := false |}).
    destruct (Drop_pinned g1
                (PageGuard.set_latch w1 f
                   (PageGuard.RUnlatch (PageGuard.latches_ w1 f))) f)
      as (r3 & HD & _); try reflexivity; auto.
    exists {| PageGuard.r_guard_ := g1 |}, w1. eexists.
    split.
    { unfold PageGuard.UpgradeRead, PageGuard.RLatch.
      rewrite Hb, Hpg. cbn [PageGuard.latches_ w0]. rewrite Hw. reflexivity. }
    split; [reflexivity |]. split.
    { unfold PageGuard.ReadDrop.
      cbn [PageGuard.r_guard_ PageGuard.bpm_ PageGuard.page_ g1].
      rewrite HD. reflexivity. }
    cbn [PageGuard.pool_ PageGuard.set_pool PageGuard.set_bpm bpm_
         PageGuard.latches_ PageGuard.set_latch PageGuard.is_dirty_ orb w1 w0 g1].
    bpm_simpl. rewrite !latch_insert_same, fn_lookup_insert.
    split; [| reflexivity]. destruct (l f) as [n b]. cbn in *. now subst b.
  - intros Hl.
    set (w1 := PageGuard.set_latch w0 f
                 {| PageGuard.readers_ := 0; PageGuard.writer_ := true |}).
    destruct (Drop_pinned g1
                (PageGuard.set_latch w1 f
                   (PageGuard.WUnlatch (PageGuard.latches_ w1 f))) f)
      as (r3 & HD & _); try reflexivity; auto.
    exists {| PageGuard.w_guard_ := g1 |}, w1. eexists.
    split.
    { unfold PageGuard.UpgradeWrite, PageGuard.WLatch.
      rewrite Hb, Hpg. cbn [PageGuard.latches_ w0]. rewrite Hl. reflexivity. }
    split; [reflexivity |]. split.
    { unfold PageGuard.WriteDrop.
      cbn [PageGuard.w_guard_ PageGuard.bpm_ PageGuard.page_ g1].
      rewrite HD. reflexivity. }
    cbn [PageGuard.pool_ PageGuard.set_pool PageGuard.set_bpm bpm_
         PageGuard.latches_ PageGuard.set_latch PageGuard.is_dirty_ orb w1 w0 g1].
    bpm_simpl. rewrite !latch_insert_same, fn_lookup_insert.
    split; [| reflexivity]. now rewrite Hl.
Qed.

Lemma upgrade_then_drop_witness :
  exists wg w1 w2,
    PageGuard.UpgradeWrite GuardExamples.guard_1 GuardExamples.world_0
    = inr (wg, PageGuard.inert, w1) /\
    PageGuard.WriteDrop wg w1
    = inr (Return tt, {| PageGuard.w_guard_ := PageGuard.inert |}, w2) /\
    pin_count_ (pages_ (bpm_ (PageGuard.pool_ w2)) 1) = 0.
Proof.
  destruct (proj2 (upgrade_then_drop GuardExamples.guard_1 GuardExamples.world_0 1
                     (pool_reachable_inv _ pool_page_0_released_reachable)
                     eq_refl eq_refl eq_refl eq_refl) eq_refl)
    as (wg & w1 & w2 & H1 & _ & H2 & _ & H3).
  exists wg, w1, w2. split; [exact H1 |]. split; [exact H2 |].
  rewrite H3. reflexivity.
Defined.

End GuardProofs.

(** * Further laws of the hash table *)

Module HashTableExtras.

Import ExtendibleHash HashTableProofs HashTableInvariant.

Section Extras.

Context {K V : Type}.
Variable cmp : K -> K -> Z.
Variable hash_fn : K -> Z.

Ltac splits' := repeat match goal with |- _ /\ _ => split end.

(** *** Remove of a key that is absent *)

Lemma remove_first_None (key : K) (l : list (K * V)) :
  remove_first cmp key l = None <-> List.find (key_matches cmp key) l = None.
Proof.
  induction l as [|e l IH]; simpl; [tauto |].
  destruct (key_matches cmp key e); [split; discriminate |].
  destruct (remove_first cmp key l); split; intros H;
    try discriminate; try reflexivity.
  - apply IH in H. discriminate.
  - now apply IH.
Qed.

Lemma BucketRemove_fails_iff (b : @Bucket K V) (key : K) :
  fst (BucketRemove cmp b key) = false <-> Lookup cmp b key = None.
Proof.
  unfold BucketRemove, Lookup. pose proof (remove_first_None key (entries_ b)) as H.
  destruct (remove_first cmp key (entries_ b)) as [l|];
    destruct (List.find (key_matches cmp key) (entries_ b)) as [e|]; simpl;
    split; intros; try discriminate; try reflexivity.
  - destruct H as [_ H]. specialize (H eq_refl). discriminate.
  - destruct H as [H _]. specialize (H eq_refl). discriminate.
Qed.

(** *** Termination of Remove *)

Lemma retarget_fold_le (set_page : Z) (l : list Z) :
  forall (d : Directory) (i : Z),
  let d' := fold_left (retarget set_page) l d in
  global_depth_ d' = global_depth_ d /\
  local_depths_ d' i <= local_depths_ d i /\
  (In i l -> local_depths_ d' i <= local_depths_ d i - 1).
Proof.
  induction l as [|x l IH]; intros d i; simpl.
  - repeat split; try lia; tauto.
  - destruct (IH (retarget set_page d x) i) as (Hg & Hle & Hin).
    simpl in Hg, Hle, Hin.
    destruct (Z.eq_dec x i) as [-> | Hne].
    + rewrite fn_lookup_insert in Hle, Hin.
      split; [exact Hg | split; [lia |]]. intros _. lia.
    + rewrite fn_lookup_insert_ne in Hle, Hin by exact Hne.
      split; [exact Hg | split; [exact Hle |]].
      intros [? | ?]; [contradiction | auto].
Qed.

Lemma merge_loop_returns (n : nat) :
  forall (fuel : nat) (dir_page bucket_idx bucket_page : Z) (indexes : list Z)
         (t : @HashTable K V),
  In bucket_idx indexes ->
  GetLocalDepth (dirs_ t dir_page) bucket_idx <= Z.of_nat n ->
  (n < fuel)%nat ->
  exists t',
    merge_loop fuel dir_page bucket_idx bucket_page indexes t = (Return tt, t') /\
    global_depth_ (dirs_ t' dir_page) = global_depth_ (dirs_ t dir_page).
Proof.
  induction n as [|n IH]; intros fuel dir_page bucket_idx bucket_page indexes t
                                 Hin Hld Hfuel.
  all: destruct fuel as [|fuel]; [lia |].
  all: cbn [merge_loop].
  all: set (d := dirs_ t dir_page) in *.
  all: destruct (0 <? GetLocalDepth d bucket_idx) eqn:Hpos; [| eauto].
  all: apply Z.ltb_lt in Hpos.
  - lia.
  - destruct (negb (GetLocalDepth d bucket_idx
                    =? GetLocalDepth d (GetSplitImageIndex d bucket_idx))) eqn:Hsame;
      [eauto |].
    apply negb_false_iff, Z.eqb_eq in Hsame.
    destruct (_ && _); [eauto |].
    set (split_idx := GetSplitImageIndex d bucket_idx) in *.
    set (set_page := if IsEmpty (bkts_ t bucket_page)
                     then GetBucketPageId d split_idx else bucket_page).
    set (d' := fold_left (retarget set_page) (indexes ++ [split_idx]) d).
    assert (Hg : global_depth_ d' = global_depth_ d)
      by apply (retarget_fold_le set_page (indexes ++ [split_idx]) d 0).
    assert (Hdec : forall i, In i (indexes ++ [split_idx]) ->
                     local_depths_ d' i <= local_depths_ d i - 1).
    { intros i Hi. now apply (retarget_fold_le set_page (indexes ++ [split_idx]) d i). }
    unfold GetLocalDepth in *.
    destruct (IsEmpty _).
    + edestruct (IH fuel dir_page split_idx (GetBucketPageId d split_idx)
                   (indexes ++ [split_idx])
                   (bpm_DeletePage (set_dir t dir_page d') bucket_page))
        as (t' & HM & Hg').
      * apply in_app_iff. simpl. auto.
      * simpl. rewrite fn_lookup_insert.
        specialize (Hdec split_idx ltac:(apply in_app_iff; simpl; auto)). lia.
      * lia.
      * exists t'. split; [exact HM |]. rewrite Hg'. simpl.
        now rewrite fn_lookup_insert.
    + edestruct (IH fuel dir_page bucket_idx bucket_page (indexes ++ [split_idx])
                   (bpm_DeletePage (set_dir t dir_page d')
                      (GetBucketPageId d split_idx)))
        as (t' & HM & Hg').
      * apply in_app_iff. auto.
      * simpl. rewrite fn_lookup_insert.
        specialize (Hdec bucket_idx ltac:(apply in_app_iff; auto)). lia.
      * lia.
      * exists t'. split; [exact HM |]. rewrite Hg'. simpl.
        now rewrite fn_lookup_insert.
Qed.

Lemma shrink_loop_returns (n : nat) :
  forall (fuel : nat) (d : Directory),
  global_depth_ d <= Z.of_nat n -> (n < fuel)%nat ->
  exists d', shrink_loop fuel d = (Return tt, d').
Proof.
  induction n as [|n IH]; intros fuel d Hgd Hfuel.
  all: destruct fuel as [|fuel]; [lia |].
  all: cbn [shrink_loop].
  all: destruct (CanShrink d) eqn:Hc; [| eauto].
  all: unfold CanShrink in Hc; apply andb_prop in Hc as [Hpos _].
  all: apply Z.ltb_lt in Hpos.
  - lia.
  - apply IH; [simpl; lia | lia].
Qed.

Lemma Remove_returns (fuel : nat) (key : K) (t : @HashTable K V) :
  let d := routed_directory hash_fn t key in
  (Z.to_nat (GetLocalDepth d (routed_slot hash_fn t key)) < fuel)%nat ->
  (Z.to_nat (GetGlobalDepth d) < fuel)%nat ->
  exists b, fst (Remove cmp hash_fn fuel key t) = Return b.
Proof.
  unfold routed_slot, routed_directory. cbv zeta. intros Hld Hgd. unfold Remove.
  set (h := Hash hash_fn key) in *.
  set (dir_page := GetDirectoryPageId (header_ t) (HashToDirectoryIndex (header_ t) h))
    in *.
  destruct (dir_page =? INVALID_PAGE_ID); [eauto |].
  set (d := dirs_ t dir_page) in *.
  set (bucket_idx := HashToBucketIndex d h) in *.
  destruct (GetBucketPageId d bucket_idx =? INVALID_PAGE_ID); [eauto |].
  destruct (BucketRemove cmp (bkts_ t (GetBucketPageId d bucket_idx)) key)
    as [[|] b]; cbn [negb]; [| eauto].
  edestruct (merge_loop_returns (Z.to_nat (GetLocalDepth d bucket_idx)) fuel dir_page
               bucket_idx (GetBucketPageId d bucket_idx) [bucket_idx]
               (set_bucket t (GetBucketPageId d bucket_idx) b))
    as (t2 & HM & Hg2).
  - now left.
  - simpl. fold d. lia.
  - exact Hld.
  - rewrite HM. simpl in Hg2. fold d in Hg2.
    destruct (shrink_loop_returns (Z.to_nat (GetGlobalDepth d)) fuel (dirs_ t2 dir_page))
      as (d' & HS).
    + rewrite Hg2. unfold GetGlobalDepth. lia.
    + exact Hgd.
    + rewrite HS. eauto.
Qed.

(** *** The configured maximum depth *)

Lemma max_depth_IncrGlobalDepth (d : Directory) :
  max_depth_ (IncrGlobalDepth d) = max_depth_ d.
Proof. unfold IncrGlobalDepth. now destruct (max_depth_ d <=? global_depth_ d). Qed.

Lemma max_depth_split_directory (d : Directory) (bucket_idx split_id : Z) :
  max_depth_ (split_directory d bucket_idx split_id) = max_depth_ d.
Proof.
  unfold split_directory. cbn.
  destruct (_ =? _); [apply max_depth_IncrGlobalDepth | reflexivity].
Qed.

Lemma SplitRound_max_depth (t t' : @HashTable K V) (dir_page bucket_idx bucket_page : Z)
    (key : K) (value : V) (r : round) :
  (forall p, max_depth_ (dirs_ t p) = directory_max_depth_ t) ->
  SplitRound cmp hash_fn t dir_page bucket_idx bucket_page key value = (Return r, t') ->
  forall p, max_depth_ (dirs_ t' p) = directory_max_depth_ t'.
Proof.
  intros Hm HS p.
  pose proof (SplitRound_Return cmp hash_fn _ _ _ _ _ _ _ _ HS) as (_ & _ & Hsplit & _).
  pose proof (SplitRound_frame cmp hash_fn _ _ _ _ _ _ _ _ HS)
    as (Hm' & Hother & Hstop & _).
  rewrite Hm'. destruct (Z.eq_dec p dir_page) as [-> | Hne];
    [| rewrite Hother by exact Hne; apply Hm].
  destruct (round_eq_dec r (Finished false)) as [-> | Hr].
  - rewrite Hstop by reflexivity. rewrite max_depth_IncrGlobalDepth. apply Hm.
  - destruct (Hsplit Hr) as (-> & _). rewrite max_depth_split_directory. apply Hm.
Qed.

Lemma Insert_max_depth (fuel : nat) :
  forall (t t' : @HashTable K V) (key : K) (value : V) (b : bool),
  (forall p, max_depth_ (dirs_ t p) = directory_max_depth_ t) ->
  Insert cmp hash_fn fuel key value t = (Return b, t') ->
  forall p, max_depth_ (dirs_ t' p) = directory_max_depth_ t'.
Proof.
  induction fuel as [|fuel IH]; intros t t' key value b Hm; [discriminate |].
  cbn [Insert].
  destruct (_ =? INVALID_PAGE_ID).
  { unfold InsertToNewDirectory, InsertToNewBucket, NewPageGuarded. cbv zeta.
    destruct (BucketInsert _ _ _ _) as [ok bk]. intros [= <- <-] p. simpl.
    destruct (Z.eq_dec (next_page_id_ t) p) as [<- | Hne].
    - rewrite !fn_lookup_insert. reflexivity.
    - rewrite fn_lookup_insert_ne by exact Hne.
      rewrite fn_lookup_insert_ne by exact Hne. apply Hm. }
  destruct (_ =? INVALID_PAGE_ID).
  { unfold InsertToNewBucket, NewPageGuarded. cbv zeta.
    destruct (BucketInsert _ _ _ _) as [ok bk]. intros [= <- <-] p. simpl.
    match goal with
    | |- context [<[?q := _]> _ p] => destruct (Z.eq_dec q p) as [<- | Hne]
    end.
    - rewrite fn_lookup_insert. simpl. apply Hm.
    - rewrite fn_lookup_insert_ne by exact Hne. apply Hm. }
  destruct (BucketInsert _ _ _ _) as [[|] bk].
  - intros [= <- <-]. exact Hm.
  - destruct (Lookup _ _ _); [now intros [= <- <-] |].
    destruct (SplitRound _ _ _ _ _ _ _ _) as [o t1] eqn:HS.
    destruct o as [[fin|] | | |]; try discriminate.
    + intros [= <- <-]. eapply SplitRound_max_depth; eauto.
    + intros HI. eapply IH; [| exact HI]. eapply SplitRound_max_depth; eauto.
Qed.

Lemma merge_loop_frame (fuel : nat) (dir_page : Z) :
  forall (bucket_idx bucket_page : Z) (indexes : list Z) (t t' : @HashTable K V)
         (o : outcome unit),
  merge_loop fuel dir_page bucket_idx bucket_page indexes t = (o, t') ->
  header_ t' = header_ t /\ next_page_id_ t' = next_page_id_ t /\
  directory_max_depth_ t' = directory_max_depth_ t /\
  bucket_max_size_ t' = bucket_max_size_ t /\
  bkts_ t' = bkts_ t /\
  (forall p, p <> dir_page -> dirs_ t' p = dirs_ t p) /\
  max_depth_ (dirs_ t' dir_page) = max_depth_ (dirs_ t dir_page) /\
  global_depth_ (dirs_ t' dir_page) = global_depth_ (dirs_ t dir_page) /\
  exists deleted,
    delete_calls_ t' = delete_calls_ t ++ deleted /\
    forall p, In p deleted -> IsEmpty (bkts_ t p) = true.
Proof.
  assert (Hnil : forall t : @HashTable K V,
            exists deleted, delete_calls_ t = delete_calls_ t ++ deleted /\
              forall p, In p deleted -> IsEmpty (bkts_ t p) = true).
  { intros t. exists []. split; [now rewrite app_nil_r | intros p []]. }
  induction fuel as [|fuel IH]; intros bucket_idx bucket_page indexes t t' o.
  { intros [= <- <-]. repeat split; auto. }
  cbn [merge_loop]. set (d := dirs_ t dir_page) in *.
  destruct (0 <? GetLocalDepth d bucket_idx);
    [| intros [= <- <-]; repeat split; auto].
  destruct (negb (GetLocalDepth d bucket_idx =? _));
    [intros [= <- <-]; repeat split; auto |].
  set (split_idx := GetSplitImageIndex d bucket_idx) in *.
  destruct (negb (IsEmpty (bkts_ t bucket_page)) &&
            negb (IsEmpty (bkts_ t (GetBucketPageId d split_idx)))) eqn:Hboth;
    [intros [= <- <-]; repeat split; auto |].
  set (set_page := if IsEmpty (bkts_ t bucket_page)
                   then GetBucketPageId d split_idx else bucket_page).
  set (d' := fold_left (retarget set_page) (indexes ++ [split_idx]) d).
  destruct (retarget_fold_depths set_page (indexes ++ [split_idx]) d)
    as (Hg & Hmx & _). fold d' in Hg, Hmx.
  cbn [bkts_ set_dir].
  destruct (IsEmpty (bkts_ t bucket_page)) eqn:He; intros HM;
    apply IH in HM;
    destruct HM as (H1 & H2 & H3 & H4 & H5 & H6 & H7 & H8 & del & H9 & H10);
    cbn in H1, H2, H3, H4, H5, H6, H7, H8, H9, H10;
    rewrite ?fn_lookup_insert in *.
  - splits'.
    all: try congruence.
    + intros p Hp. rewrite H6 by exact Hp. now rewrite fn_lookup_insert_ne by congruence.
    + exists (bucket_page :: del). split; [now rewrite H9, <- app_assoc |].
      intros p [<- | Hin]; [exact He | now apply H10].
  - splits'.
    all: try congruence.
    + intros p Hp. rewrite H6 by exact Hp. now rewrite fn_lookup_insert_ne by congruence.
    + exists (GetBucketPageId d split_idx :: del).
      split; [now rewrite H9, <- app_assoc |].
      intros p [<- | Hin]; [| now apply H10].
      cbn [negb andb] in Hboth. now apply negb_false_iff in Hboth.
Qed.

Lemma shrink_loop_frame (fuel : nat) :
  forall (d d' : Directory) (o : outcome unit),
  shrink_loop fuel d = (o, d') ->
  max_depth_ d' = max_depth_ d /\ global_depth_ d' <= global_depth_ d /\
  local_depths_ d' = local_depths_ d /\ bucket_page_ids_ d' = bucket_page_ids_ d.
Proof.
  induction fuel as [|fuel IH]; intros d d' o; simpl;
    [intros [= <- <-]; repeat split; lia |].
  destruct (CanShrink d); [| intros [= <- <-]; repeat split; lia].
  intros HS. apply IH in HS. simpl in HS. destruct HS as (? & ? & ? & ?).
  repeat split; auto; lia.
Qed.

Lemma Remove_max_depth (fuel : nat) (t t' : @HashTable K V) (key : K) (b : bool) :
  (forall p, max_depth_ (dirs_ t p) = directory_max_depth_ t) ->
  Remove cmp hash_fn fuel key t = (Return b, t') ->
  forall p, max_depth_ (dirs_ t' p) = directory_max_depth_ t'.
Proof.
  intros Hm. unfold Remove.
  destruct (_ =? INVALID_PAGE_ID); [now intros [= <- <-] |].
  destruct (_ =? INVALID_PAGE_ID); [now intros [= <- <-] |].
  destruct (BucketRemove _ _ _) as [[|] bk]; cbn [negb]; [| now intros [= <- <-]].
  match goal with
  | |- context [merge_loop fuel ?p ?b ?bp ?ix ?t1] =>
      destruct (merge_loop fuel p b bp ix t1) as [om t2] eqn:HM;
      apply merge_loop_frame in HM; set (dp := p) in *
  end.
  destruct HM as (_ & _ & H3 & _ & _ & H6 & H7 & _).
  cbn in H3, H6, H7.
  destruct om as [[]| | |]; try discriminate.
  destruct (shrink_loop fuel (dirs_ t2 dp)) as [os d'] eqn:HSh.
  apply shrink_loop_frame in HSh. destruct HSh as (Hm' & _).
  destruct os as [[]| | |]; try discriminate. intros [= <- <-] p. simpl.
  rewrite H3. destruct (Z.eq_dec dp p) as [<- | Hne].
  - rewrite fn_lookup_insert, Hm', H7. apply Hm.
  - rewrite fn_lookup_insert_ne by exact Hne. rewrite H6 by congruence. apply Hm.
Qed.

Lemma reachable_max_depth (t : @HashTable K V) :
  reachable cmp hash_fn t ->
  forall p, max_depth_ (dirs_ t p) = directory_max_depth_ t.
Proof.
  induction 1 as [hmd dmd bms H | t t' fuel key value b _ IH HI
                  | t t' fuel key b _ IH HR].
  - reflexivity.
  - eapply Insert_max_depth; eauto.
  - eapply Remove_max_depth; eauto.
Qed.

(** *** What a false return of Insert means *)

Lemma fresh_bucket_rejects (m : Z) (key : K) (value : V) :
  fst (BucketInsert cmp (BucketInit m) key value) = false -> m <= 0.
Proof.
  unfold BucketInsert, IsFull, BucketSize, BucketInit, Lookup. cbn.
  change (Z.of_nat 0) with 0.
  destruct (Z.leb_spec m 0); cbn; [auto | discriminate].
Qed.

Lemma InsertToNewBucket_false (t t' : @HashTable K V) (dir_page bucket_idx : Z)
    (key : K) (value : V) :
  InsertToNewBucket cmp t dir_page bucket_idx key value = (Return false, t') ->
  bucket_max_size_ t' <= 0.
Proof.
  unfold InsertToNewBucket, NewPageGuarded. cbv zeta. cbn [bkts_ set_dir set_bucket].
  rewrite fn_lookup_insert. cbn [bucket_max_size_].
  pose proof (fresh_bucket_rejects (bucket_max_size_ t) key value) as HF.
  destruct (BucketInsert cmp (BucketInit (bucket_max_size_ t)) key value) as [ok b].
  intros [= -> <-]. cbn. now apply HF.
Qed.

Lemma SplitRound_stops (t t' : @HashTable K V) (dir_page bucket_idx bucket_page : Z)
    (key : K) (value : V) :
  dir_ok (dirs_ t dir_page) ->
  0 <= bucket_idx < 2 ^ global_depth_ (dirs_ t dir_page) ->
  SplitRound cmp hash_fn t dir_page bucket_idx bucket_page key value
  = (Return (Finished false), t') ->
  let d := dirs_ t dir_page in
  IsFull (bkts_ t bucket_page) = true /\
  GetLocalDepth d bucket_idx = GetGlobalDepth d /\
  max_depth_ d <= GetGlobalDepth d /\
  header_ t' = header_ t /\ dirs_ t' dir_page = d /\ bkts_ t' = bkts_ t /\
  bucket_max_size_ t' = bucket_max_size_ t.
Proof.
  intros [Hgd Hld] Hb. unfold SplitRound. cbv zeta.
  destruct (IsFull (bkts_ t bucket_page)) eqn:Hfull; cbn [negb]; [| discriminate].
  set (d := dirs_ t dir_page) in *.
  unfold GetLocalDepth, GetGlobalDepth.
  destruct (Z.eqb_spec (local_depths_ d bucket_idx) (global_depth_ d)) as [He | Hne].
  - cbn [andb]. rewrite dirs_set_dir.
    unfold IncrGlobalDepth.
    destruct (Z.leb_spec (max_depth_ d) (global_depth_ d)) as [Hm | Hm].
    + rewrite He, Z.eqb_refl. intros [= <-]. rewrite dirs_set_dir.
      repeat split; auto.
    + cbn [local_depths_ global_depth_]. unfold double.
      destruct (Z.leb_spec (2 ^ global_depth_ d) bucket_idx); [lia |].
      cbn [andb]. rewrite He.
      destruct (Z.eqb_spec (global_depth_ d) (global_depth_ d + 1)); [lia |].
      destruct (NewPageGuarded _) as [split_id t3]. cbv zeta.
      destruct (negb _); [discriminate |].
      destruct (redistribute _ _ _ _ _ _ _) as [[[]| | |] t7]; try discriminate.
      destruct (_ =? split_id).
      * destruct (BucketInsert _ _ _ _) as [[|] ?]; discriminate.
      * destruct (_ =? bucket_page); [| discriminate].
        destruct (BucketInsert _ _ _ _) as [[|] ?]; discriminate.
  - cbn [andb].
    destruct (NewPageGuarded _) as [split_id t3]. cbv zeta.
    destruct (negb _); [discriminate |].
    destruct (redistribute _ _ _ _ _ _ _) as [[[]| | |] t7]; try discriminate.
    destruct (_ =? split_id).
    * destruct (BucketInsert _ _ _ _) as [[|] ?]; discriminate.
    * destruct (_ =? bucket_page); [| discriminate].
      destruct (BucketInsert _ _ _ _) as [[|] ?]; discriminate.
Qed.

Lemma Insert_false_cases (fuel : nat) :
  forall (t t' : @HashTable K V) (key : K) (value : V),
  table_ok t ->
  Insert cmp hash_fn fuel key value t = (Return false, t') ->
  (exists v, GetValue cmp hash_fn key [] t' = (true, [v])) \/
  bucket_max_size_ t' <= 0 \/
  (let d := routed_directory hash_fn t' key in
   let slot := routed_slot hash_fn t' key in
   IsFull (bkts_ t' (GetBucketPageId d slot)) = true /\
   GetLocalDepth d slot = GetGlobalDepth d /\
   max_depth_ d <= GetGlobalDepth d).
Proof.
  induction fuel as [|fuel IH]; intros t t' key value Hok; [discriminate |].
  cbn [Insert].
  set (h := Hash hash_fn key).
  set (dir_page := GetDirectoryPageId (header_ t) (HashToDirectoryIndex (header_ t) h)).
  destruct (dir_page =? INVALID_PAGE_ID) eqn:Hdir.
  { unfold InsertToNewDirectory. destruct (NewPageGuarded t) as [nd t1]. cbv zeta.
    intros HI. right. left. eapply InsertToNewBucket_false; eauto. }
  set (d := dirs_ t dir_page).
  set (bucket_idx := HashToBucketIndex d h).
  set (bucket_page := GetBucketPageId d bucket_idx).
  destruct (bucket_page =? INVALID_PAGE_ID) eqn:Hbkt.
  { intros HI. right. left. eapply InsertToNewBucket_false; eauto. }
  apply Z.eqb_neq in Hdir, Hbkt.
  destruct (BucketInsert cmp (bkts_ t bucket_page) key value) as [[|] bk];
    [discriminate |].
  destruct (Lookup cmp (bkts_ t bucket_page) key) as [v|] eqn:HL.
  { intros [= <-]. left. exists v.
    apply (GetValue_found cmp hash_fn t key v [] dir_page bucket_page); auto. }
  destruct (SplitRound cmp hash_fn t dir_page bucket_idx bucket_page key value)
    as [o t1] eqn:HS.
  assert (Hlive : 0 <= bucket_idx < 2 ^ global_depth_ d)
    by (apply routed_slot_live, Hok).
  destruct o as [[[|]|] | | |]; try discriminate.
  - intros [= <-]. right. right.
    destruct (SplitRound_stops _ _ _ _ _ _ _ (proj2 (proj2 Hok) dir_page) Hlive HS)
      as (H1 & H2 & H3 & H4 & H5 & H6 & _).
    unfold routed_slot, routed_directory. cbv zeta. rewrite H4. fold h dir_page.
    rewrite H5, H6. fold d bucket_idx bucket_page. auto.
  - intros HI. eapply IH; [| exact HI].
    eapply (SplitRound_ok cmp hash_fn); [exact Hok | exact Hlive | exact HS].
Qed.

Lemma Remove_true_frame (fuel : nat) (key : K) (t t' : @HashTable K V) :
  Remove cmp hash_fn fuel key t = (Return true, t') ->
  let dir_page := GetDirectoryPageId (header_ t)
                    (HashToDirectoryIndex (header_ t) (Hash hash_fn key)) in
  let d := dirs_ t dir_page in
  let bucket_page := GetBucketPageId d (HashToBucketIndex d (Hash hash_fn key)) in
  header_ t' = header_ t /\ next_page_id_ t' = next_page_id_ t /\
  (forall p, p <> dir_page -> dirs_ t' p = dirs_ t p) /\
  global_depth_ (dirs_ t' dir_page) <= global_depth_ d /\
  (forall p, p <> bucket_page -> bkts_ t' p = bkts_ t p) /\
  BucketRemove cmp (bkts_ t bucket_page) key = (true, bkts_ t' bucket_page) /\
  exists deleted,
    delete_calls_ t' = delete_calls_ t ++ deleted /\
    forall p, In p deleted -> IsEmpty (bkts_ t' p) = true.
Proof.
  unfold Remove. cbv zeta.
  set (h := Hash hash_fn key).
  set (dir_page := GetDirectoryPageId (header_ t) (HashToDirectoryIndex (header_ t) h)).
  destruct (dir_page =? INVALID_PAGE_ID); [discriminate |].
  set (d := dirs_ t dir_page).
  set (bucket_page := GetBucketPageId d (HashToBucketIndex d h)).
  destruct (bucket_page =? INVALID_PAGE_ID); [discriminate |].
  destruct (BucketRemove cmp (bkts_ t bucket_page) key) as [[|] bk] eqn:HB;
    cbn [negb]; [| discriminate].
  destruct (merge_loop _ _ _ _ _ _) as [om t2] eqn:HM.
  apply merge_loop_frame in HM.
  destruct HM as (H1 & H2 & _ & _ & H5 & H6 & _ & H8 & del & H9 & H10).
  cbn in H1, H2, H5, H6, H8, H9, H10. fold d in H8.
  destruct om as [[]| | |]; try discriminate.
  destruct (shrink_loop fuel (dirs_ t2 dir_page)) as [os d'] eqn:HSh.
  apply shrink_loop_frame in HSh. destruct HSh as (_ & Hg & _).
  destruct os as [[]| | |]; try discriminate. intros [= <-]. cbn.
  rewrite fn_lookup_insert, H5. splits'; auto.
  - intros p Hp. rewrite fn_lookup_insert_ne by congruence. now apply H6.
  - lia.
  - intros p Hp. now rewrite fn_lookup_insert_ne by congruence.
  - now rewrite fn_lookup_insert.
  - exists del. split; [exact H9 |]. exact H10.
Qed.

End Extras.

(** X20.  Remove of a key that GetValue does not find returns false and
    leaves the table as it was, whatever the recursion budget; Remove of a
    key that GetValue finds does not return false. *)
Theorem Remove_false_iff_absent {K V : Type} (cmp : K -> K -> Z) (hash_fn : K -> Z)
    (fuel : nat) (key : K) (result : list V) (t : @HashTable K V) :
  (fst (GetValue cmp hash_fn key result t) = false ->
   Remove cmp hash_fn fuel key t = (Return false, t)) /\
  (fst (GetValue cmp hash_fn key result t) = true ->
   fst (Remove cmp hash_fn fuel key t) <> Return false).
Proof.
  unfold GetValue, Remove.
  destruct (_ =? INVALID_PAGE_ID); [split; [reflexivity | discriminate] |].
  destruct (GetBucketPageId _ _ =? INVALID_PAGE_ID);
    [split; [reflexivity | discriminate] |].
  match goal with
  | |- context [BucketRemove cmp ?b key] =>
      pose proof (BucketRemove_fails_iff cmp hash_fn b key) as HB;
      destruct (BucketRemove cmp b key) as [ok bk];
      destruct (Lookup cmp b key) as [v|]
  end; cbn [fst] in *.
  - assert (ok = true) as -> by (destruct ok; [reflexivity |];
      destruct HB as [HB _]; specialize (HB eq_refl); discriminate).
    cbn [negb]. split; [discriminate | intros _].
    destruct (merge_loop _ _ _ _ _ _) as [[[]| | |] t2]; cbn; try discriminate.
    destruct (shrink_loop _ _) as [[[]| | |] d']; cbn; discriminate.
  - assert (ok = false) as -> by now apply HB.
    split; [reflexivity | discriminate].
Qed.

Lemma Remove_false_iff_absent_witness :
  Remove Examples.IntComparator Examples.id_hash 4 5 Examples.table_0_1_2_4
  = (Return false, Examples.table_0_1_2_4).
Proof.
  refine (proj1 (Remove_false_iff_absent Examples.IntComparator Examples.id_hash
                   4 5 [] Examples.table_0_1_2_4) _).
  vm_compute. reflexivity.
Defined.

(** X21.  Remove terminates: with a recursion budget above the local depth
    of the key's slot and above the global depth of its directory, the
    coalescing loop and the shrinking loop both come to an end and Remove
    returns.  Every merge lowers the local depth of the slot the loop
    goes on with, and every shrink lowers the global depth. *)
Theorem Remove_terminates {K V : Type} (cmp : K -> K -> Z) (hash_fn : K -> Z)
    (fuel : nat) (key : K) (t : @HashTable K V) :
  let d := routed_directory hash_fn t key in
  (Z.to_nat (GetLocalDepth d (routed_slot hash_fn t key)) < fuel)%nat ->
  (Z.to_nat (GetGlobalDepth d) < fuel)%nat ->
  exists b, fst (Remove cmp hash_fn fuel key t) = Return b.
Proof. apply Remove_returns. Qed.

Lemma Remove_terminates_witness :
  exists b,
    fst (Remove Examples.IntComparator Examples.id_hash 4 4 Examples.table_0_1_2_4)
    = Return b.
Proof.
  apply (Remove_terminates Examples.IntComparator Examples.id_hash 4 4
           Examples.table_0_1_2_4); vm_compute; lia.
Defined.

Lemma table_0_reachable :
  reachable Examples.IntComparator Examples.id_hash
    (Examples.then_insert 0 0 Examples.table_1_1).
Proof.
  apply (reach_Insert Examples.IntComparator Examples.id_hash
           Examples.table_1_1 _ 16 0 0 true).
  - apply reach_new. lia.
  - vm_compute. reflexivity.
Defined.

(** X22.  On every table produced by the public operations, each directory
    page carries the configured maximum depth, its global depth lies
    between 0 and directory_max_depth, the local depth of every live slot
    lies between 0 and the global depth, and page ids are not negative. *)
Theorem reachable_table_depths {K V : Type} (cmp : K -> K -> Z) (hash_fn : K -> Z)
    (t : @HashTable K V) :
  reachable cmp hash_fn t ->
  0 <= next_page_id_ t /\
  forall p,
    let d := dirs_ t p in
    max_depth_ d = directory_max_depth_ t /\
    0 <= global_depth_ d <= directory_max_depth_ t /\
    forall i, 0 <= i < 2 ^ global_depth_ d ->
              0 <= local_depths_ d i <= global_depth_ d.
Proof.
  intros Hr. pose proof (reachable_max_depth cmp hash_fn t Hr) as Hm.
  destruct (reachable_ok cmp hash_fn t Hr) as (Hn & _ & Hd).
  split; [exact Hn |]. intros p. cbv zeta. destruct (Hd p) as [Hgd Hld].
  rewrite <- (Hm p). auto.
Qed.

Lemma reachable_table_depths_witness :
  0 <= global_depth_ (dirs_ (Examples.then_insert 0 0 Examples.table_1_1) 1) <= 1.
Proof.
  exact (proj1 (proj2 (proj2 (reachable_table_depths Examples.IntComparator
                                Examples.id_hash _ table_0_reachable) 1))).
Defined.

(** X23.  Insert returns false for one of three reasons only: the key is
    present (GetValue finds it), the buckets have no capacity
    (bucket_max_size <= 0), or the key's bucket is full while its local
    depth equals the global depth and the global depth has reached the
    directory's maximum. *)
Theorem Insert_false_means {K V : Type} (cmp : K -> K -> Z) (hash_fn : K -> Z)
    (fuel : nat) (t t' : @HashTable K V) (key : K) (value : V) :
  reachable cmp hash_fn t ->
  Insert cmp hash_fn fuel key value t = (Return false, t') ->
  (exists v, GetValue cmp hash_fn key [] t' = (true, [v])) \/
  bucket_max_size_ t' <= 0 \/
  (let d := routed_directory hash_fn t' key in
   let slot := routed_slot hash_fn t' key in
   IsFull (bkts_ t' (GetBucketPageId d slot)) = true /\
   GetLocalDepth d slot = GetGlobalDepth d /\
   max_depth_ d <= GetGlobalDepth d).
Proof.
  intros Hr. apply Insert_false_cases. now apply (reachable_ok cmp hash_fn).
Qed.

Lemma Insert_false_means_witness :
  let t := Examples.then_insert 0 0 Examples.table_1_1 in
  let t' := snd (Examples.insert_int 2 20 t) in
  (exists v, GetValue Examples.IntComparator Examples.id_hash 2 [] t' = (true, [v])) \/
  bucket_max_size_ t' <= 0 \/
  (let d := routed_directory Examples.id_hash t' 2 in
   let slot := routed_slot Examples.id_hash t' 2 in
   IsFull (bkts_ t' (GetBucketPageId d slot)) = true /\
   GetLocalDepth d slot = GetGlobalDepth d /\
   max_depth_ d <= GetGlobalDepth d).
Proof.
  apply (Insert_false_means Examples.IntComparator Examples.id_hash 16
           (Examples.then_insert 0 0 Examples.table_1_1) _ 2 20).
  - exact table_0_reachable.
  - vm_compute. reflexivity.
Defined.

(** X24.  A Remove that returns true changes one bucket and one directory
    only.  The key's bucket loses the first entry that matches the key, no
    other bucket page is written, the header and the other directory pages
    are as they were, the global depth of the key's directory does not
    grow, no page is allocated, and every page handed to DeletePage is
    empty. *)
Theorem Remove_changes_one_bucket {K V : Type} (cmp : K -> K -> Z) (hash_fn : K -> Z)
    (fuel : nat) (key : K) (t t' : @HashTable K V) :
  Remove cmp hash_fn fuel key t = (Return true, t') ->
  let dir_page := GetDirectoryPageId (header_ t)
                    (HashToDirectoryIndex (header_ t) (Hash hash_fn key)) in
  let d := dirs_ t dir_page in
  let bucket_page := GetBucketPageId d (HashToBucketIndex d (Hash hash_fn key)) in
  header_ t' = header_ t /\ next_page_id_ t' = next_page_id_ t /\
  (forall p, p <> dir_page -> dirs_ t' p = dirs_ t p) /\
  global_depth_ (dirs_ t' dir_page) <= global_depth_ d /\
  (forall p, p <> bucket_page -> bkts_ t' p = bkts_ t p) /\
  BucketRemove cmp (bkts_ t bucket_page) key = (true, bkts_ t' bucket_page) /\
  exists deleted,
    delete_calls_ t' = delete_calls_ t ++ deleted /\
    forall p, In p deleted -> IsEmpty (bkts_ t' p) = true.
Proof. apply Remove_true_frame. Qed.

Lemma Remove_changes_one_bucket_witness :
  let t := Examples.then_insert 1 10 (Examples.then_insert 0 0 Examples.table_1_1) in
  let t' := snd (Remove Examples.IntComparator Examples.id_hash 16 1 t) in
  exists deleted,
    delete_calls_ t' = delete_calls_ t ++ deleted /\
    forall p, In p deleted -> IsEmpty (bkts_ t' p) = true.
Proof.
  refine (proj2 (proj2 (proj2 (proj2 (proj2 (proj2
            (Remove_changes_one_bucket Examples.IntComparator Examples.id_hash 16 1
               (Examples.then_insert 1 10
                  (Examples.then_insert 0 0 Examples.table_1_1)) _ _))))))).
  vm_compute. reflexivity.
Defined.

End HashTableExtras.

(** * Laws of the sequential scan *)

Module SeqScanProofs.

Import SeqScan.

Section Laws.

Context {Tuple RID Iter : Type} `{TableIterator Tuple RID Iter}.
Variable filter_predicate_ : option (Tuple -> bool).

Ltac splits_and := repeat match goal with |- _ /\ _ => split end.

Lemma last_cons {A : Type} (a d : A) (l : list A) :
  List.last (a :: l) d = List.last l a.
Proof.
  revert a d. induction l as [|b l IH]; intros a d; [reflexivity |].
  change (List.last (a :: b :: l) d) with (List.last (b :: l) d).
  now rewrite !IH.
Qed.

Lemma Next_scans (n : nat) :
  forall (fuel : nat) (s : state),
  ends_within n (iter_ s) = true -> (n < fuel)%nat ->
  let rs := rows n (iter_ s) in
  let s' := snd (Next filter_predicate_ fuel s) in
  (List.find (live filter_predicate_) rs = None /\ fst (Next filter_predicate_ fuel s) = Return false /\
   IsEnd (iter_ s') = true /\
   (tuple_ s', rid_ s') = List.last (map emitted rs) (tuple_ s, rid_ s)) \/
  (exists skipped row,
     rs = skipped ++ row :: rows (n - S (length skipped)) (iter_ s') /\
     forallb (fun r => negb (live filter_predicate_ r)) skipped = true /\ live filter_predicate_ row = true /\
     fst (Next filter_predicate_ fuel s) = Return true /\
     (tuple_ s', rid_ s') = emitted row /\
     ends_within (n - S (length skipped)) (iter_ s') = true).
Proof.
  induction n as [|n IH]; intros fuel s Hend Hfuel;
    (destruct fuel as [|fuel]; [lia |]); cbn [SeqScan.Next rows ends_within] in *.
  - rewrite orb_false_r in Hend. rewrite Hend. left. cbn. auto.
  - destruct (IsEnd (iter_ s)) eqn:He; [left; cbn; auto |].
    cbn [orb] in Hend.
    set (row0 := (GetTuple (iter_ s), GetRID (iter_ s))).
    set (s1 := {| iter_ := advance (iter_ s); tuple_ := snd (GetTuple (iter_ s));
                  rid_ := GetRID (iter_ s) |}).
    assert (Hskip : live filter_predicate_ row0 = false ->
              (let rs := row0 :: rows n (advance (iter_ s)) in
               let s' := snd (Next filter_predicate_ fuel s1) in
               (List.find (live filter_predicate_) rs = None /\ fst (Next filter_predicate_ fuel s1) = Return false /\
                IsEnd (iter_ s') = true /\
                (tuple_ s', rid_ s') = List.last (map emitted rs) (tuple_ s, rid_ s)) \/
               (exists skipped row,
                  rs = skipped ++ row :: rows (S n - S (length skipped)) (iter_ s') /\
                  forallb (fun r => negb (live filter_predicate_ r)) skipped = true /\ live filter_predicate_ row = true /\
                  fst (Next filter_predicate_ fuel s1) = Return true /\
                  (tuple_ s', rid_ s') = emitted row /\
                  ends_within (S n - S (length skipped)) (iter_ s') = true))).
    { intros Hdead. cbv zeta.
      destruct (IH fuel s1 Hend ltac:(lia))
        as [(F1 & F2 & F3 & F4) | (sk & row & R1 & R2 & R3 & R4 & R5 & R6)].
      - left. cbn [List.find]. rewrite Hdead. splits_and; auto.
        cbn [map]. rewrite last_cons. exact F4.
      - right. exists (row0 :: sk), row. cbn [iter_ s1] in R1.
        cbn [length app forallb]. rewrite Hdead. cbn [negb andb].
        replace (S n - S (S (length sk)))%nat with (n - S (length sk))%nat by lia.
        splits_and; auto. now rewrite <- R1. }
    unfold SeqScan.live in Hskip. cbn [fst snd row0] in Hskip.
    destruct (is_deleted_ (fst (GetTuple (iter_ s)))) eqn:Hdel.
    + apply Hskip. reflexivity.
    + cbn [tuple_ s1]. destruct (passes filter_predicate_ (snd (GetTuple (iter_ s))))
        eqn:Hpass; cbn [negb].
      * right. exists [], row0. cbn [app length fst snd].
        replace (S n - 1)%nat with n by lia.
        unfold SeqScan.live. cbn [fst snd row0]. rewrite Hdel, Hpass.
        splits_and; auto.
      * apply Hskip. reflexivity.
Qed.

Lemma drain_filters (k : nat) :
  forall (n calls fuel : nat) (s : state),
  ends_within n (iter_ s) = true -> (n < fuel)%nat ->
  length (List.filter (live filter_predicate_) (rows n (iter_ s))) = k -> (k < calls)%nat ->
  drain filter_predicate_ calls fuel s = map emitted (List.filter (live filter_predicate_) (rows n (iter_ s))).
Proof.
  induction k as [|k IH]; intros n calls fuel s Hend Hfuel Hlen Hcalls;
    (destruct calls as [|calls]; [lia |]); cbn [SeqScan.drain].
  all: destruct (Next_scans n fuel s Hend Hfuel)
         as [(F1 & F2 & _) | (sk & row & R1 & R2 & R3 & R4 & R5 & R6)].
  all: destruct (Next filter_predicate_ fuel s) as [o s'] eqn:HN; cbn [fst snd] in *.
  - subst o. destruct (List.filter (live filter_predicate_) (rows n (iter_ s))) eqn:Hf;
      [reflexivity | discriminate].
  - exfalso. rewrite R1 in Hlen. rewrite List.filter_app in Hlen.
    cbn [List.filter] in Hlen. rewrite R3 in Hlen.
    rewrite length_app in Hlen. cbn in Hlen. lia.
  - exfalso. subst o.
    assert (Hnone : List.filter (live filter_predicate_) (rows n (iter_ s)) = []).
    { clear -F1. induction (rows n (iter_ s)) as [|r l IHl]; [reflexivity |].
      cbn in *. destruct (live filter_predicate_ r); [discriminate | auto]. }
    rewrite Hnone in Hlen. discriminate.
  - subst o. rewrite R1, List.filter_app. cbn [List.filter]. rewrite R3.
    assert (Hsk : List.filter (live filter_predicate_) sk = []).
    { clear -R2. induction sk as [|r l IHl]; [reflexivity |].
      cbn in *. apply andb_prop in R2 as [Hr Hl].
      apply negb_true_iff in Hr. rewrite Hr. auto. }
    rewrite Hsk. cbn [app map]. injection R5 as Ht Hr.
    unfold emitted at 1. rewrite <- Ht, <- Hr. f_equal.
    apply (IH (n - S (length sk))%nat); auto; try lia.
    rewrite R1, List.filter_app, Hsk in Hlen. cbn [app List.filter] in Hlen.
    rewrite R3 in Hlen. cbn in Hlen. lia.
Qed.

Lemma find_after_dead (sk rest : list (TupleMeta * Tuple * RID))
    (row : TupleMeta * Tuple * RID) :
  forallb (fun r => negb (live filter_predicate_ r)) sk = true ->
  live filter_predicate_ row = true ->
  List.find (live filter_predicate_) (sk ++ row :: rest) = Some row.
Proof.
  intros Hsk Hrow. induction sk as [|r sk IH]; cbn in *.
  - now rewrite Hrow.
  - apply andb_prop in Hsk as [Hr Hsk]. apply negb_true_iff in Hr.
    rewrite Hr. auto.
Qed.

End Laws.

(** X25.  Next stops at the first row that is neither deleted nor rejected
    by the filter.  On a cursor that reaches its end, Next returns: true
    with [*tuple] and [*rid] those of the first such row when there is
    one; false with the cursor at its end otherwise, and then [*tuple] and
    [*rid] hold the last row that was passed over (they are written before
    the row is examined), or what they held when no row was left. *)
Theorem Next_returns_first_live {Tuple RID Iter : Type}
    `{TableIterator Tuple RID Iter} (filter_predicate_ : option (Tuple -> bool))
    (n fuel : nat) (s : state) :
  ends_within n (iter_ s) = true -> (n < fuel)%nat ->
  let rs := rows n (iter_ s) in
  let r := Next filter_predicate_ fuel s in
  match List.find (live filter_predicate_) rs with
  | Some row =>
      fst r = Return true /\ (tuple_ (snd r), rid_ (snd r)) = emitted row
  | None =>
      fst r = Return false /\ IsEnd (iter_ (snd r)) = true /\
      (tuple_ (snd r), rid_ (snd r))
      = List.last (map emitted rs) (tuple_ s, rid_ s)
  end.
Proof.
  intros Hend Hfuel. cbv zeta.
  destruct (Next_scans filter_predicate_ n fuel s Hend Hfuel)
    as [(F1 & F2 & F3 & F4) | (sk & row & R1 & R2 & R3 & R4 & R5 & _)].
  - rewrite F1. auto.
  - assert (Hfind : List.find (live filter_predicate_) (rows n (iter_ s)) = Some row).
    { rewrite R1. now apply find_after_dead. }
    rewrite Hfind. auto.
Qed.

Lemma Next_returns_first_live_witness :
  let r := ScanExamples.scan_next 5 ScanExamples.start in
  fst r = Return true /\ (tuple_ (snd r), rid_ (snd r)) = (6, 102).
Proof.
  exact (Next_returns_first_live (H := list_iterator 0 0) ScanExamples.even_filter
           4 5 ScanExamples.start eq_refl ltac:(lia)).
Defined.

(** X26.  Calling Next until it returns false enumerates the table: the
    caller receives, in table order and once each, exactly the rows that
    are neither deleted nor rejected by the filter. *)
Theorem scan_enumerates_live_rows {Tuple RID Iter : Type}
    `{TableIterator Tuple RID Iter} (filter_predicate_ : option (Tuple -> bool))
    (n calls fuel : nat) (s : state) :
  ends_within n (iter_ s) = true -> (n < fuel)%nat ->
  (length (List.filter (live filter_predicate_) (rows n (iter_ s))) < calls)%nat ->
  drain filter_predicate_ calls fuel s
  = map emitted (List.filter (live filter_predicate_) (rows n (iter_ s))).
Proof.
  intros Hend Hfuel Hcalls.
  eapply (drain_filters filter_predicate_); eauto.
Qed.

Lemma scan_enumerates_live_rows_witness :
  drain (H := list_iterator 0 0) ScanExamples.even_filter 5 5 ScanExamples.start
  = [(6, 102)].
Proof.
  apply (scan_enumerates_live_rows (H := list_iterator 0 0) ScanExamples.even_filter
           4 5 5 ScanExamples.start eq_refl); vm_compute; lia.
Defined.

End SeqScanProofs.

(** * Laws of the persistent trie *)

Module TrieProofs.

Import PersistentTrie.

Section Laws.

Context {ty : Type} `{EqDecision ty}.
Variable val : ty -> Type.

(** *** The children map *)

Lemma child_set_same (l : list (Ascii.ascii * TrieNode val)) (c : Ascii.ascii)
    (n : TrieNode val) :
  find_child val (set_child val l c n) c = Some n.
Proof.
  induction l as [|[c' n'] l IH]; cbn.
  - now rewrite Ascii.eqb_refl.
  - destruct (Ascii.eqb c' c) eqn:He; cbn; now rewrite He.
Qed.

Lemma child_set_other (l : list (Ascii.ascii * TrieNode val)) (c c' : Ascii.ascii)
    (n : TrieNode val) :
  c' <> c -> find_child val (set_child val l c n) c' = find_child val l c'.
Proof.
  intros Hne. induction l as [|[c0 n0] l IH]; cbn.
  - destruct (Ascii.eqb_spec c c'); [congruence | reflexivity].
  - destruct (Ascii.eqb_spec c0 c) as [-> | Hc]; cbn.
    + destruct (Ascii.eqb_spec c c'); [congruence | reflexivity].
    + destruct (Ascii.eqb c0 c'); [reflexivity | exact IH].
Qed.

Lemma child_erase_same (l : list (Ascii.ascii * TrieNode val)) (c : Ascii.ascii) :
  find_child val (erase_child val l c) c = None.
Proof.
  induction l as [|[c' n'] l IH]; cbn; [reflexivity |].
  destruct (Ascii.eqb c' c) eqn:He; cbn; [exact IH | now rewrite He].
Qed.

Lemma child_erase_other (l : list (Ascii.ascii * TrieNode val)) (c c' : Ascii.ascii) :
  c' <> c -> find_child val (erase_child val l c) c' = find_child val l c'.
Proof.
  intros Hne. induction l as [|[c0 n0] l IH]; cbn; [reflexivity |].
  destruct (Ascii.eqb_spec c0 c) as [-> | Hc]; cbn.
  - destruct (Ascii.eqb_spec c c'); [congruence | exact IH].
  - destruct (Ascii.eqb c0 c'); [reflexivity | exact IH].
Qed.

(** *** Get reads the value stored under the key *)

Lemma cast_same (t : ty) (v : val t) : cast val t (existT t v) = Some v.
Proof.
  unfold cast. cbn. destruct (decide (t = t)) as [e | n]; [| contradiction].
  now rewrite (proof_irrel e eq_refl).
Qed.

Lemma cast_other (t t' : ty) (v : val t) : t' <> t -> cast val t' (existT t v) = None.
Proof.
  intros Hne. unfold cast. cbn.
  destruct (decide (t = t')) as [e | n]; [congruence | reflexivity].
Qed.

Lemma Get_value_at (t : ty) (key : string) (root : Trie val) :
  Get val t key root
  = match value_at val key root with
    | None => Nullptr
    | Some d =>
        match cast val t d with
        | Some v => Value v
        | None => match key with
                  | EmptyString => NullDereference
                  | _ => Nullptr
                  end
        end
    end.
Proof.
  unfold Get, value_at. destruct root as [r|]; [| reflexivity].
  destruct key as [|c rest]; [reflexivity |].
  destruct (walk val (String c rest) r) as [n|]; [| reflexivity].
  destruct (value_ val n) as [d|]; [| reflexivity].
  now destruct (cast val t d).
Qed.

Lemma value_at_children (key : string) (c : Ascii.ascii) (n n' : TrieNode val) :
  children_ val n = children_ val n' ->
  value_at val (String c key) (Some n) = value_at val (String c key) (Some n').
Proof. unfold value_at. cbn. now intros ->. Qed.

Lemma value_at_empty_node (key : string) : value_at val key (Some (empty_node val)) = None.
Proof. destruct key; reflexivity. Qed.

Lemma value_at_step (c : Ascii.ascii) (rest : string) (n : TrieNode val) :
  value_at val (String c rest) (Some n)
  = value_at val rest (find_child val (children_ val n) c).
Proof.
  unfold value_at. cbn. now destruct (find_child val (children_ val n) c).
Qed.

(** *** Put *)

Lemma put_walk_value (key : string) :
  forall (node : TrieNode val) (d : dyn val),
  key <> EmptyString ->
  value_at val key (Some (put_walk val key node d)) = Some d.
Proof.
  induction key as [|c rest IH]; intros node d Hne; [contradiction |].
  rewrite value_at_step. cbn [put_walk children_]. rewrite child_set_same.
  destruct rest as [|c' rest']; [reflexivity |].
  apply IH. discriminate.
Qed.

Lemma put_walk_other (key : string) :
  forall (key' : string) (node : TrieNode val) (d : dyn val),
  key <> EmptyString -> key' <> key ->
  value_at val key' (Some (put_walk val key node d)) = value_at val key' (Some node).
Proof.
  induction key as [|c rest IH]; intros key' node d Hne Hk; [contradiction |].
  destruct key' as [|c' rest'].
  { cbn. reflexivity. }
  rewrite !value_at_step. cbn [put_walk children_].
  destruct (Ascii.eqb_spec c' c) as [-> | Hc].
  - rewrite child_set_same.
    assert (Hrest : rest' <> rest) by congruence.
    destruct rest as [|c2 rest2].
    + destruct rest' as [|c3 rest3]; [contradiction |].
      destruct (find_child val (children_ val node) c) as [child|];
        [now apply value_at_children | reflexivity].
    + rewrite IH by (auto; discriminate).
      destruct (find_child val (children_ val node) c) as [child|];
        [reflexivity | apply value_at_empty_node].
  - now rewrite child_set_other.
Qed.

Lemma Put_value (key : string) (d : dyn val) (root : Trie val) :
  value_at val key (Put val key d root) = Some d.
Proof.
  unfold Put. destruct key as [|c rest]; [reflexivity |].
  apply put_walk_value. discriminate.
Qed.

Lemma Put_other (key key' : string) (d : dyn val) (root : Trie val) :
  key' <> key ->
  value_at val key' (Put val key d root) = value_at val key' root.
Proof.
  intros Hk. unfold Put. destruct key as [|c rest].
  - destruct key' as [|c' rest']; [contradiction |].
    destruct root as [r|]; [now apply value_at_children | reflexivity].
  - rewrite put_walk_other by (auto; discriminate).
    destruct root as [r|]; [reflexivity | apply value_at_empty_node].
Qed.

(** *** Remove *)

Lemma prunable_no_value (n : TrieNode val) (key : string) :
  prunable val n = true -> value_at val key (Some n) = None.
Proof.
  destruct n as [ch v]. unfold prunable, is_value_node_. cbn.
  destruct ch as [|x ch]; [| discriminate]. destruct v; [discriminate |].
  intros _. destruct key; reflexivity.
Qed.

Lemma remove_walk_spec (key : string) :
  forall (node : TrieNode val),
  match remove_walk val key node with
  | None => key = EmptyString \/ value_at val key (Some node) = None
  | Some n' =>
      value_at val key (Some n') = None /\
      forall key', key' <> key ->
        value_at val key' (Some n') = value_at val key' (Some node)
  end.
Proof.
  induction key as [|c rest IH]; intros node; [left; reflexivity |].
  cbn [remove_walk].
  destruct (find_child val (children_ val node) c) as [child|] eqn:Hfind.
  2:{ right. rewrite value_at_step, Hfind. reflexivity. }
  assert (Hstep : forall n : TrieNode val,
            value_at val rest (Some n) = None ->
            (forall key', key' <> rest ->
               value_at val key' (Some n) = value_at val key' (Some child)) ->
            let n' := mkTrieNode val
                        (if prunable val n then erase_child val (children_ val node) c
                         else set_child val (children_ val node) c n)
                        (value_ val node) in
            value_at val (String c rest) (Some n') = None /\
            forall key', key' <> String c rest ->
              value_at val key' (Some n') = value_at val key' (Some node)).
  { intros n Hgone Hsame. cbv zeta. split.
    - rewrite value_at_step. cbn [children_].
      destruct (prunable val n); [now rewrite child_erase_same |].
      now rewrite child_set_same.
    - intros key' Hk. destruct key' as [|c' rest']; [reflexivity |].
      rewrite !value_at_step. cbn [children_].
      destruct (Ascii.eqb_spec c' c) as [-> | Hc].
      + assert (Hrest : rest' <> rest) by congruence.
        rewrite Hfind, <- (Hsame rest' Hrest).
        destruct (prunable val n) eqn:Hp.
        * rewrite child_erase_same. symmetry. now apply prunable_no_value.
        * now rewrite child_set_same.
      + destruct (prunable val n);
          [now rewrite child_erase_other | now rewrite child_set_other]. }
  destruct rest as [|c2 rest2].
  - apply Hstep; [reflexivity |].
    intros key' Hk. destruct key' as [|c' rest']; [contradiction |].
    now apply value_at_children.
  - specialize (IH child).
    destruct (remove_walk val (String c2 rest2) child) as [n|].
    + destruct IH as [Hgone Hsame]. now apply Hstep.
    + right. rewrite value_at_step, Hfind.
      destruct IH as [? | ?]; [discriminate | assumption].
Qed.

Lemma Remove_value (key : string) (root : Trie val) :
  value_at val key (Remove val key root) = None.
Proof.
  unfold Remove. destruct root as [r|]; [| reflexivity].
  destruct key as [|c rest].
  - unfold is_value_node_. cbn. destruct (value_ val r) eqn:Hv; cbn; auto.
  - pose proof (remove_walk_spec (String c rest) r) as HR.
    destruct (remove_walk val (String c rest) r) as [n|].
    + destruct HR as [Hgone _]. destruct (prunable val n); [reflexivity | exact Hgone].
    + destruct HR as [? | ?]; [discriminate | assumption].
Qed.

Lemma Remove_other (key key' : string) (root : Trie val) :
  key' <> key ->
  value_at val key' (Remove val key root) = value_at val key' root.
Proof.
  intros Hk. unfold Remove. destruct root as [r|]; [| reflexivity].
  destruct key as [|c rest].
  - destruct (negb (is_value_node_ val r)); [reflexivity |].
    destruct key' as [|c' rest']; [contradiction |]. now apply value_at_children.
  - pose proof (remove_walk_spec (String c rest) r) as HR.
    destruct (remove_walk val (String c rest) r) as [n|]; [| reflexivity].
    destruct HR as [_ Hsame]. rewrite <- (Hsame key' Hk).
    destruct (prunable val n) eqn:Hp; [| reflexivity].
    symmetry. now apply prunable_no_value.
Qed.

(** *** Pruning *)

Lemma remove_walk_chain (key : string) :
  forall (d : dyn val),
  key <> EmptyString ->
  exists n, remove_walk val key (put_walk val key (empty_node val) d) = Some n /\
            prunable val n = true.
Proof.
  induction key as [|c rest IH]; intros d Hne; [contradiction |].
  cbn [put_walk remove_walk children_ empty_node find_child set_child value_].
  rewrite Ascii.eqb_refl.
  destruct rest as [|c2 rest2].
  - cbn. rewrite Ascii.eqb_refl. eauto.
  - destruct (IH d ltac:(discriminate)) as (n & -> & Hp). rewrite Hp.
    cbn. rewrite Ascii.eqb_refl. eauto.
Qed.

End Laws.

(** X27.  Put stores the value under the key and nowhere else.  In the
    trie Put returns, Get of the key at the value's type returns the
    value; Get of the key at another type returns nullptr, except for the
    empty key, where Get uses the result of the failed dynamic_cast
    without a test; Get of any other key returns what it returned on the
    trie Put was called on. *)
Theorem Put_then_Get {ty : Type} `{EqDecision ty} (val : ty -> Type)
    (t : ty) (v : val t) (key : string) (root : Trie val) :
  let root' := Put val key (existT t v) root in
  Get val t key root' = Value v /\
  (forall t', t' <> t ->
     Get val t' key root'
     = match key with EmptyString => NullDereference | _ => Nullptr end) /\
  (forall t' key', key' <> key -> Get val t' key' root' = Get val t' key' root).
Proof.
  cbv zeta. split; [| split].
  - rewrite Get_value_at, Put_value, cast_same. reflexivity.
  - intros t' Ht. rewrite Get_value_at, Put_value, cast_other by exact Ht.
    reflexivity.
  - intros t' key' Hk. rewrite !Get_value_at. now rewrite Put_other.
Qed.

Lemma Put_then_Get_witness :
  Get TrieExamples.val true "ab" TrieExamples.trie_ab_a = Value 1.
Proof.
  refine (eq_trans
            (proj2 (proj2 (Put_then_Get TrieExamples.val false "x"%string "a"
                             (Put TrieExamples.val "ab" (TrieExamples.number 1) None)))
               true "ab"%string _) _).
  - discriminate.
  - reflexivity.
Defined.

(** X28.  Remove takes the value away from the key and from no other key:
    in the trie Remove returns, Get of the key returns nullptr at every
    type, and Get of any other key returns what it returned before,
    whatever nodes the pruning took out. *)
Theorem Remove_then_Get {ty : Type} `{EqDecision ty} (val : ty -> Type)
    (key : string) (root : Trie val) :
  let root' := Remove val key root in
  (forall t, Get val t key root' = Nullptr) /\
  (forall t key', key' <> key -> Get val t key' root' = Get val t key' root).
Proof.
  cbv zeta. split.
  - intros t. rewrite Get_value_at, Remove_value. reflexivity.
  - intros t key' Hk. rewrite !Get_value_at. now rewrite Remove_other.
Qed.

Lemma Remove_then_Get_witness :
  Get TrieExamples.val true "ab"
    (Remove TrieExamples.val "a" TrieExamples.trie_ab_a) = Value 1.
Proof.
  refine (eq_trans
            (proj2 (Remove_then_Get TrieExamples.val "a" TrieExamples.trie_ab_a)
               true "ab"%string _) _).
  - discriminate.
  - reflexivity.
Defined.

(** X29.  Remove prunes what Put built: removing from the trie that holds
    one non-empty key gives the empty trie (null root), every node of the
    path being taken out.  For the empty key the root node stays, without
    value and without children: the path of Remove for the empty key
    returns before the pruning. *)
Theorem Remove_prunes_path {ty : Type} `{EqDecision ty} (val : ty -> Type)
    (key : string) (d : dyn val) :
  Remove val key (Put val key d None)
  = match key with
    | EmptyString => Some (mkTrieNode val [] None)
    | _ => None
    end.
Proof.
  destruct key as [|c rest]; [reflexivity |].
  unfold Put, Remove.
  destruct (remove_walk_chain val (String c rest) d ltac:(discriminate))
    as (n & -> & ->).
  reflexivity.
Qed.

End TrieProofs.

(** * Insert conserves the entries of the table *)

Module HashTableStoreProofs.

Import ExtendibleHash HashTableProofs HashTableExtras HashTableStore.

Section Conservation.

Context {K V : Type}.
Variable cmp : K -> K -> Z.
Variable hash_fn : K -> Z.

(** *** Buckets under a comparator that tells keys apart *)

Lemma find_key_None (key : K) (l : list (K * V)) :
  comparator_ok cmp ->
  List.find (key_matches cmp key) l = None <-> ~ In key (map fst l).
Proof.
  intros Hc. induction l as [|[k v] l IH]; simpl; [tauto |].
  unfold key_matches at 1. simpl.
  destruct (Z.eqb_spec (cmp k key) 0) as [He | Hne].
  - apply Hc in He. split; [discriminate | intros H; exfalso; apply H; now left].
  - rewrite IH. split.
    + intros H [Hk | Hin]; [| contradiction]. apply Hne, Hc, Hk.
    + intros H Hin. apply H. now right.
Qed.

Lemma Lookup_None_key (b : @Bucket K V) (key : K) :
  comparator_ok cmp ->
  Lookup cmp b key = None <-> ~ In key (map fst (entries_ b)).
Proof.
  intros Hc. rewrite <- find_key_None by exact Hc. unfold Lookup.
  destruct (List.find _ _); split; congruence.
Qed.

Lemma remove_first_mid (key : K) (v : V) (pre rest : list (K * V)) :
  comparator_ok cmp -> ~ In key (map fst pre) ->
  remove_first cmp key (pre ++ (key, v) :: rest) = Some (pre ++ rest).
Proof.
  intros Hc. induction pre as [|[k w] pre IH]; simpl; intros Hn.
  - unfold key_matches. simpl. now rewrite (proj2 (Hc key key) eq_refl).
  - unfold key_matches at 1. simpl.
    destruct (Z.eqb_spec (cmp k key) 0) as [He | Hne].
    + apply Hc in He. exfalso. apply Hn. now left.
    + rewrite IH; [reflexivity | intros H; apply Hn; now right].
Qed.

Lemma remove_first_Some (key : K) (l r : list (K * V)) :
  remove_first cmp key l = Some r ->
  exists pre e post, l = pre ++ e :: post /\ r = pre ++ post.
Proof.
  revert r. induction l as [|e l IH]; simpl; intros r; [discriminate |].
  destruct (key_matches cmp key e).
  - intros [= <-]. now exists [], e, l.
  - destruct (remove_first cmp key l) as [r0|]; [| discriminate].
    intros [= <-]. destruct (IH r0 eq_refl) as (pre & e0 & post & -> & ->).
    now exists (e :: pre), e0, post.
Qed.

Lemma BucketInsert_cases (b b' : @Bucket K V) (key : K) (value : V) (ok : bool) :
  comparator_ok cmp ->
  BucketInsert cmp b key value = (ok, b') ->
  (ok = false /\ b' = b) \/
  (ok = true /\ IsFull b = false /\ ~ In key (map fst (entries_ b)) /\
   b' = {| b_max_size_ := b_max_size_ b; entries_ := entries_ b ++ [(key, value)] |}).
Proof.
  intros Hc. unfold BucketInsert. destruct (IsFull b); [intros [= <- <-]; now left |].
  destruct (Lookup cmp b key) eqn:HL; [intros [= <- <-]; now left |].
  intros [= <- <-]. right. repeat split. now apply Lookup_None_key.
Qed.

Lemma BucketInsert_room (b : @Bucket K V) (key : K) (value : V) :
  comparator_ok cmp ->
  IsFull b = false -> ~ In key (map fst (entries_ b)) ->
  BucketInsert cmp b key value
  = (true, {| b_max_size_ := b_max_size_ b;
              entries_ := entries_ b ++ [(key, value)] |}).
Proof.
  intros Hc Hf Hn. unfold BucketInsert. rewrite Hf.
  now rewrite (proj2 (Lookup_None_key b key Hc) Hn).
Qed.

Lemma NoDup_keys_snoc (l : list (K * V)) (key : K) (value : V) :
  List.NoDup (map fst l) -> ~ In key (map fst l) ->
  List.NoDup (map fst (l ++ [(key, value)])).
Proof.
  intros Hn Hk. rewrite map_app. simpl. apply List.NoDup_app. repeat split.
  - exact Hn.
  - constructor; [intros [] | constructor].
  - intros x Hx [<- | []]. contradiction.
Qed.

Lemma NoDup_keys_filter (f : K * V -> bool) (l : list (K * V)) :
  List.NoDup (map fst l) -> List.NoDup (map fst (List.filter f l)).
Proof.
  induction l as [|e l IH]; simpl; intros Hn; [constructor |].
  inversion Hn as [|x xs Hx Hxs]; subst.
  destruct (f e); simpl; [constructor |]; auto.
  intros Hin. apply Hx. apply in_map_iff in Hin. destruct Hin as (e' & He & Hin).
  apply List.filter_In in Hin. apply in_map_iff. exists e'. tauto.
Qed.

Lemma filter_length_bound (f : K * V -> bool) (l : list (K * V)) :
  (length (List.filter f l) <= length l)%nat.
Proof. induction l as [|e l IH]; simpl; [lia |]. destruct (f e); simpl; lia. Qed.

Lemma bucket_ok_Init (m : Z) : bucket_ok m (@BucketInit K V m).
Proof. unfold bucket_ok, BucketInit, BucketSize. simpl. repeat split; [lia | constructor]. Qed.

Lemma bucket_ok_Insert (m : Z) (b b' : @Bucket K V) (key : K) (value : V) (ok : bool) :
  comparator_ok cmp -> bucket_ok m b ->
  BucketInsert cmp b key value = (ok, b') -> bucket_ok m b'.
Proof.
  intros Hc (Hm & Hs & Hn) HB.
  destruct (BucketInsert_cases _ _ _ _ _ Hc HB) as [[_ ->] | (_ & Hf & Hk & ->)].
  - now repeat split.
  - unfold bucket_ok. simpl. repeat split; [exact Hm | | now apply NoDup_keys_snoc].
    unfold IsFull in Hf. apply Z.leb_gt in Hf. unfold BucketSize in *. simpl.
    rewrite length_app. simpl. lia.
Qed.

Lemma bucket_ok_Remove (m : Z) (b : @Bucket K V) (key : K) :
  bucket_ok m b -> bucket_ok m (snd (BucketRemove cmp b key)).
Proof.
  intros (Hm & Hs & Hn). unfold BucketRemove.
  destruct (remove_first cmp key (entries_ b)) as [r|] eqn:HR; [| now repeat split].
  apply remove_first_Some in HR. destruct HR as (pre & e & post & He & ->).
  unfold bucket_ok, BucketSize in *. simpl. rewrite He in Hs, Hn.
  rewrite length_app in *. simpl in Hs. rewrite map_app in *. simpl in Hn.
  repeat split; [exact Hm | lia | eapply List.NoDup_remove_1; exact Hn].
Qed.

Lemma entries_Insert (b b' : @Bucket K V) (key : K) (value : V) (ok : bool) :
  comparator_ok cmp ->
  BucketInsert cmp b key value = (ok, b') ->
  forall e, In e (entries_ b') <-> In e (entries_ b) \/ (ok = true /\ e = (key, value)).
Proof.
  intros Hc HB e.
  destruct (BucketInsert_cases _ _ _ _ _ Hc HB) as [[-> ->] | (-> & _ & _ & ->)].
  - split; [now left | intros [H | [H _]]; [exact H | discriminate]].
  - simpl. rewrite in_app_iff. simpl. split.
    + intros [H | [H | []]]; [now left | right; split; congruence].
    + intros [H | [_ ->]]; [now left | right; now left].
Qed.

(** *** The second loop of a split *)

Lemma redistribute_spec (dir_page split_id bucket_page : Z) (d : Directory) :
  comparator_ok cmp -> split_id <> bucket_page ->
  forall (arr pre : list (K * V)) (t t' : @HashTable K V),
  dirs_ t dir_page = d ->
  entries_ (bkts_ t bucket_page) = pre ++ arr ->
  List.NoDup (map fst (pre ++ arr)) ->
  (forall e, In e (entries_ (bkts_ t split_id)) -> ~ In (fst e) (map fst arr)) ->
  (arr = [] \/
   BucketSize (bkts_ t split_id) + Z.of_nat (length arr)
   <= b_max_size_ (bkts_ t split_id)) ->
  redistribute cmp hash_fn arr dir_page split_id bucket_page t = (Return tt, t') ->
  entries_ (bkts_ t' bucket_page)
  = pre ++ List.filter (fun e => negb (moves hash_fn d split_id e)) arr /\
  entries_ (bkts_ t' split_id)
  = entries_ (bkts_ t split_id) ++ List.filter (moves hash_fn d split_id) arr /\
  b_max_size_ (bkts_ t' bucket_page) = b_max_size_ (bkts_ t bucket_page) /\
  b_max_size_ (bkts_ t' split_id) = b_max_size_ (bkts_ t split_id) /\
  (forall p, p <> bucket_page -> p <> split_id -> bkts_ t' p = bkts_ t p) /\
  dirs_ t' = dirs_ t /\ next_page_id_ t' = next_page_id_ t /\
  bucket_max_size_ t' = bucket_max_size_ t.
Proof.
  intros Hc Hne arr.
  induction arr as [|[k v] rest IH]; intros pre t t' Hd He Hn Hdis Hsz; simpl.
  - intros [= <-]. rewrite !app_nil_r. rewrite app_nil_r in He. now repeat split.
  - rewrite Hd.
    assert (Hmv : moves hash_fn d split_id (k, v)
                  = (GetBucketPageId d (HashToBucketIndex d (Hash hash_fn k))
                     =? split_id)) by reflexivity.
    rewrite !Hmv. clear Hmv.
    destruct Hsz as [Hsz | Hsz]; [discriminate |].
    destruct (GetBucketPageId d (HashToBucketIndex d (Hash hash_fn k)) =? split_id)
      eqn:Hm; cbn [negb].
    + assert (Hroom : IsFull (bkts_ t split_id) = false).
      { unfold IsFull. apply Z.leb_gt. simpl in Hsz. lia. }
      assert (Hfresh : ~ In k (map fst (entries_ (bkts_ t split_id)))).
      { intros Hin. apply in_map_iff in Hin. destruct Hin as (e & Hk & Hin).
        apply (Hdis e Hin). rewrite Hk. simpl. now left. }
      rewrite (BucketInsert_room _ k v Hc Hroom Hfresh). cbn [snd].
      assert (Hpre : ~ In k (map fst pre)).
      { rewrite map_app in Hn. simpl in Hn. apply List.NoDup_remove_2 in Hn.
        intros Hin. apply Hn. apply in_or_app. now left. }
      rewrite fn_lookup_insert_ne by exact Hne. unfold BucketRemove. rewrite He.
      rewrite (remove_first_mid k v pre rest Hc Hpre). cbn [snd].
      intros HR. apply (IH pre) in HR.
      * simpl in HR. rewrite fn_lookup_insert in HR.
        rewrite fn_lookup_insert_ne, fn_lookup_insert in HR by congruence.
        simpl in HR. destruct HR as (H1 & H2 & H3 & H4 & H5 & H6 & H7 & H8).
        repeat split; try assumption.
        -- rewrite H2, <- app_assoc. reflexivity.
        -- intros p Hp1 Hp2. rewrite H5 by assumption.
           rewrite fn_lookup_insert_ne by congruence.
           now rewrite fn_lookup_insert_ne by congruence.
      * simpl. exact Hd.
      * simpl. now rewrite fn_lookup_insert.
      * rewrite map_app in *. simpl in Hn. eapply List.NoDup_remove_1. exact Hn.
      * simpl. rewrite fn_lookup_insert_ne, fn_lookup_insert by congruence. simpl.
        intros e Hin. apply in_app_iff in Hin. destruct Hin as [Hin | [<- | []]].
        -- intros Hr. apply (Hdis e Hin). simpl. now right.
        -- simpl. rewrite map_app in Hn. simpl in Hn. apply List.NoDup_remove_2 in Hn.
           intros Hr. apply Hn. apply in_or_app. now right.
      * right. simpl. rewrite fn_lookup_insert_ne, fn_lookup_insert by congruence.
        unfold BucketSize in *. simpl. rewrite length_app. simpl in *. lia.
    + destruct (GetBucketPageId d (HashToBucketIndex d (Hash hash_fn k)) =? bucket_page);
        [| discriminate].
      intros HR. apply (IH (pre ++ [(k, v)])) in HR.
      * destruct HR as (H1 & H2 & H3 & H4 & H5 & H6 & H7 & H8).
        repeat split; try assumption. rewrite H1, <- app_assoc. reflexivity.
      * exact Hd.
      * rewrite He, <- app_assoc. reflexivity.
      * rewrite <- app_assoc. exact Hn.
      * intros e Hin Hr. apply (Hdis e Hin). simpl. now right.
      * destruct rest; [now left | right]. simpl in *. lia.
Qed.

(** *** Page ids held by a directory *)

Lemma double_ids (gd n : Z) (a : Z -> Z) :
  (forall i, a i < n) -> forall i, double gd a i < n.
Proof. intros H i. unfold double. destruct (_ && _); apply H. Qed.

Lemma IncrGlobalDepth_ids (d : Directory) (n : Z) :
  (forall i, bucket_page_ids_ d i < n) ->
  forall i, bucket_page_ids_ (IncrGlobalDepth d) i < n.
Proof.
  intros H i. unfold IncrGlobalDepth. destruct (_ <=? _); [apply H |].
  simpl. now apply double_ids.
Qed.

Lemma SetBucketPageId_ids (d : Directory) (idx page_id n : Z) :
  (forall i, bucket_page_ids_ d i < n) -> page_id < n ->
  forall i, bucket_page_ids_ (SetBucketPageId d idx page_id) i < n.
Proof.
  intros H Hp i. simpl. destruct (decide (i = idx)) as [-> | Hi].
  - now rewrite fn_lookup_insert.
  - rewrite fn_lookup_insert_ne by congruence. apply H.
Qed.

Lemma split_directory_ids (d : Directory) (bucket_idx n : Z) :
  (forall i, bucket_page_ids_ d i < n) ->
  forall i, bucket_page_ids_ (split_directory d bucket_idx n) i < n + 1.
Proof.
  intros H. unfold split_directory. apply SetBucketPageId_ids; [| lia].
  intros i. simpl.
  destruct (_ =? _); [pose proof (IncrGlobalDepth_ids d n H i) | pose proof (H i)]; lia.
Qed.

Lemma retarget_fold_ids (set_page n : Z) (l : list Z) :
  set_page < n ->
  forall d, (forall i, bucket_page_ids_ d i < n) ->
  forall i, bucket_page_ids_ (fold_left (retarget set_page) l d) i < n.
Proof.
  intros Hs. induction l as [|idx l IH]; intros d H; simpl; [exact H |].
  apply IH. unfold retarget. now apply SetBucketPageId_ids.
Qed.

(** *** One bucket written after an insertion *)

Lemma stored_set_bucket_Insert (t : @HashTable K V) (p : Z) (key : K) (value : V)
    (ok : bool) (b : Bucket) :
  comparator_ok cmp ->
  BucketInsert cmp (bkts_ t p) key value = (ok, b) ->
  forall e, stored (set_bucket t p b) e
            <-> stored t e \/ (ok = true /\ e = (key, value)).
Proof.
  intros Hc HB e. pose proof (entries_Insert _ _ _ _ _ Hc HB e) as HI.
  unfold stored. simpl. split.
  - intros [q Hq]. destruct (decide (q = p)) as [-> | Hne].
    + rewrite fn_lookup_insert in Hq. apply HI in Hq.
      destruct Hq as [Hq | Hq]; [left; now exists p | now right].
    + rewrite fn_lookup_insert_ne in Hq by congruence. left. now exists q.
  - intros [[q Hq] | Hq].
    + destruct (decide (q = p)) as [-> | Hne].
      * exists p. rewrite fn_lookup_insert. apply HI. now left.
      * exists q. now rewrite fn_lookup_insert_ne by congruence.
    + exists p. rewrite fn_lookup_insert. apply HI. now right.
Qed.

Lemma store_ok_set_bucket_Insert (t : @HashTable K V) (p : Z) (key : K) (value : V)
    (ok : bool) (b : Bucket) :
  comparator_ok cmp -> store_ok t -> p < next_page_id_ t ->
  BucketInsert cmp (bkts_ t p) key value = (ok, b) ->
  store_ok (set_bucket t p b).
Proof.
  intros Hc [H1 H2 H3 H4] Hp HB. constructor; simpl; auto.
  - intros q Hq. rewrite fn_lookup_insert_ne by lia. now apply H3.
  - intros q. destruct (decide (q = p)) as [-> | Hne].
    + rewrite fn_lookup_insert. eapply bucket_ok_Insert; [exact Hc | apply H4 | exact HB].
    + rewrite fn_lookup_insert_ne by congruence. apply H4.
Qed.

(** *** A key with no bucket or no directory yet *)

Lemma InsertToNewBucket_store (t t' : @HashTable K V) (dir_page bucket_idx : Z)
    (key : K) (value : V) (o : outcome bool) :
  comparator_ok cmp -> store_ok t ->
  InsertToNewBucket cmp t dir_page bucket_idx key value = (o, t') ->
  exists ok, o = Return ok /\ store_ok t' /\
    forall e, stored t' e <-> stored t e \/ (ok = true /\ e = (key, value)).
Proof.
  intros Hc Hok. unfold InsertToNewBucket, NewPageGuarded.
  set (t3 := set_dir _ _ _).
  destruct (BucketInsert cmp (bkts_ t3 (next_page_id_ t)) key value) as [ok b] eqn:HB.
  intros [= <- <-]. exists ok. split; [reflexivity |].
  destruct Hok as [H1 H2 H3 H4].
  assert (Hok3 : store_ok t3).
  { constructor; simpl.
    - lia.
    - intros dp idx. destruct (decide (dp = dir_page)) as [-> | Hne].
      + rewrite fn_lookup_insert. apply SetBucketPageId_ids; [| lia].
        intros i. pose proof (H2 dir_page i). lia.
      + rewrite fn_lookup_insert_ne by congruence. pose proof (H2 dp idx). lia.
    - intros p Hp. rewrite fn_lookup_insert_ne by lia. apply H3. lia.
    - intros p. destruct (decide (p = next_page_id_ t)) as [-> | Hne].
      + rewrite fn_lookup_insert. apply bucket_ok_Init.
      + rewrite fn_lookup_insert_ne by congruence. apply H4. }
  split.
  - apply (store_ok_set_bucket_Insert t3 _ key value ok b Hc Hok3); [simpl; lia | exact HB].
  - intros e. rewrite (stored_set_bucket_Insert t3 _ key value ok b Hc HB e).
    assert (Hsame : stored t3 e <-> stored t e).
    { unfold stored. simpl. split; intros [q Hq].
      - destruct (decide (q = next_page_id_ t)) as [-> | Hne].
        + rewrite fn_lookup_insert in Hq. destruct Hq.
        + rewrite fn_lookup_insert_ne in Hq by congruence. now exists q.
      - destruct (decide (q = next_page_id_ t)) as [-> | Hne].
        + rewrite H3 in Hq by lia. destruct Hq.
        + exists q. now rewrite fn_lookup_insert_ne by congruence. }
    now rewrite Hsame.
Qed.

Lemma InsertToNewDirectory_store (t t' : @HashTable K V) (directory_idx hash : Z)
    (key : K) (value : V) (o : outcome bool) :
  comparator_ok cmp -> store_ok t ->
  InsertToNewDirectory cmp t directory_idx hash key value = (o, t') ->
  exists ok, o = Return ok /\ store_ok t' /\
    forall e, stored t' e <-> stored t e \/ (ok = true /\ e = (key, value)).
Proof.
  intros Hc Hok. unfold InsertToNewDirectory, NewPageGuarded.
  set (t3 := set_header _ _). intros HI.
  assert (Hok3 : store_ok t3).
  { destruct Hok as [H1 H2 H3 H4]. constructor; simpl.
    - lia.
    - intros dp idx. destruct (decide (dp = next_page_id_ t)) as [-> | Hne].
      + rewrite fn_lookup_insert. simpl. unfold INVALID_PAGE_ID. lia.
      + rewrite fn_lookup_insert_ne by congruence. pose proof (H2 dp idx). lia.
    - intros p Hp. apply H3. lia.
    - exact H4. }
  destruct (InsertToNewBucket_store _ _ _ _ _ _ _ Hc Hok3 HI) as (ok & -> & Hok' & Hst).
  exists ok. split; [reflexivity | split; [exact Hok' | exact Hst]].
Qed.

(** *** A split round *)

Lemma NewPageGuarded_size (t t3 : @HashTable K V) (id : Z) :
  NewPageGuarded t = (id, t3) -> bucket_max_size_ t3 = bucket_max_size_ t.
Proof. unfold NewPageGuarded. now intros [= <- <-]. Qed.

(** The steps of a split round that returns: it gives up after a failed
    growth of the directory, or sets up the sibling page, runs the second
    loop and inserts the pair into one of the two pages. *)
Lemma SplitRound_steps (t t' : @HashTable K V) (dir_page bucket_idx bucket_page : Z)
    (key : K) (value : V) (r : round) :
  SplitRound cmp hash_fn t dir_page bucket_idx bucket_page key value = (Return r, t') ->
  (r = Finished false /\ bkts_ t' = bkts_ t /\ next_page_id_ t' = next_page_id_ t /\
   bucket_max_size_ t' = bucket_max_size_ t /\
   (forall q, q <> dir_page -> dirs_ t' q = dirs_ t q) /\
   dirs_ t' dir_page = IncrGlobalDepth (dirs_ t dir_page)) \/
  exists (t6 t7 : @HashTable K V) (p : Z) (ok : bool) (b : Bucket),
    bkts_ t6 = <[next_page_id_ t := BucketInit (bucket_max_size_ t)]> (bkts_ t) /\
    next_page_id_ t6 = next_page_id_ t + 1 /\
    bucket_max_size_ t6 = bucket_max_size_ t /\
    (forall q, q <> dir_page -> dirs_ t6 q = dirs_ t q) /\
    dirs_ t6 dir_page
    = split_directory (dirs_ t dir_page) bucket_idx (next_page_id_ t) /\
    redistribute cmp hash_fn (entries_ (bkts_ t6 bucket_page)) dir_page
      (next_page_id_ t) bucket_page t6 = (Return tt, t7) /\
    (p = next_page_id_ t \/ p = bucket_page) /\
    BucketInsert cmp (bkts_ t7 p) key value = (ok, b) /\
    t' = set_bucket t7 p b /\
    r = (if ok then Finished true else Again).
Proof.
  unfold SplitRound.
  destruct (negb (IsFull _)); [discriminate |].
  set (d := dirs_ t dir_page).
  set (grow := GetLocalDepth d bucket_idx =? GetGlobalDepth d).
  set (t1 := if grow then set_dir t dir_page (IncrGlobalDepth d) else t).
  assert (Hn1 : next_page_id_ t1 = next_page_id_ t) by (unfold t1; now destruct grow).
  assert (Hb1 : bkts_ t1 = bkts_ t) by (unfold t1; now destruct grow).
  assert (Hm1 : bucket_max_size_ t1 = bucket_max_size_ t)
    by (unfold t1; now destruct grow).
  assert (Hd1 : dirs_ t1 dir_page = if grow then IncrGlobalDepth d else d).
  { unfold t1; destruct grow; [apply dirs_set_dir | reflexivity]. }
  assert (Hq1 : forall q, q <> dir_page -> dirs_ t1 q = dirs_ t q).
  { intros q Hq. unfold t1. destruct grow; [| reflexivity].
    simpl. now rewrite fn_lookup_insert_ne by congruence. }
  destruct (grow && _) eqn:Hstop.
  - intros [= <- <-]. left. apply andb_prop in Hstop. destruct Hstop as [Hg _].
    rewrite Hg in Hd1. now repeat split.
  - set (t2 := set_dir t1 dir_page (IncrLocalDepth (dirs_ t1 dir_page) bucket_idx)).
    destruct (NewPageGuarded t2) as [split_id t3] eqn:HN.
    pose proof (NewPageGuarded_size _ _ _ HN) as Hm3.
    apply NewPageGuarded_spec in HN. destruct HN as (Hs & Hh3 & Hd3 & Hb3 & Hn3).
    cbv zeta.
    set (t4 := set_bucket t3 split_id (BucketInit (bucket_max_size_ t3))).
    set (split_idx := GetSplitImageIndex (dirs_ t4 dir_page) bucket_idx).
    set (t5 := set_dir t4 dir_page (IncrLocalDepth (dirs_ t4 dir_page) split_idx)).
    destruct (negb _); [discriminate |].
    set (t6 := set_dir t5 dir_page _).
    assert (Hsid : split_id = next_page_id_ t).
    { rewrite Hs. unfold t2. simpl. exact Hn1. }
    assert (HD2 : dirs_ t4 dir_page = IncrLocalDepth (dirs_ t1 dir_page) bucket_idx).
    { unfold t4. simpl. rewrite Hd3. unfold t2. apply dirs_set_dir. }
    assert (HD6 : dirs_ t6 dir_page = split_directory d bucket_idx (next_page_id_ t)).
    { unfold t6. rewrite dirs_set_dir. unfold t5 at 1.
      rewrite dirs_set_dir. unfold UpdateDirectoryMapping, split_idx.
      rewrite HD2, Hd1, Hs. unfold split_directory. fold grow.
      unfold t2. simpl. now rewrite Hn1. }
    assert (HQ6 : forall q, q <> dir_page -> dirs_ t6 q = dirs_ t q).
    { intros q Hq. unfold t6. simpl. rewrite fn_lookup_insert_ne by congruence.
      rewrite fn_lookup_insert_ne by congruence. rewrite Hd3. unfold t2. simpl.
      rewrite fn_lookup_insert_ne by congruence. now apply Hq1. }
    assert (HB6 : bkts_ t6
                  = <[next_page_id_ t := BucketInit (bucket_max_size_ t)]> (bkts_ t)).
    { unfold t6. simpl. rewrite Hb3, Hm3, Hsid. unfold t2. simpl.
      now rewrite Hb1, Hm1. }
    assert (HN6 : next_page_id_ t6 = next_page_id_ t + 1).
    { unfold t6. simpl. rewrite Hn3. unfold t2. simpl. lia. }
    assert (HM6 : bucket_max_size_ t6 = bucket_max_size_ t).
    { unfold t6. simpl. rewrite Hm3. unfold t2. simpl. exact Hm1. }
    rewrite Hsid.
    destruct (redistribute _ _ _ _ _ _ _) as [o t7] eqn:HR.
    destruct o as [[] | | |]; try discriminate.
    destruct (_ =? next_page_id_ t) eqn:Hp1.
    + destruct (BucketInsert cmp (bkts_ t7 (next_page_id_ t)) key value)
        as [ok b] eqn:HB.
      intros [= <- <-]. right. exists t6, t7, (next_page_id_ t), ok, b.
      repeat split; auto.
    + destruct (_ =? bucket_page) eqn:Hp2; [| discriminate].
      destruct (BucketInsert cmp (bkts_ t7 bucket_page) key value) as [ok b] eqn:HB.
      intros [= <- <-]. right. exists t6, t7, bucket_page, ok, b.
      repeat split; auto.
Qed.

Lemma filter_partition_In (f : K * V -> bool) (l : list (K * V)) (e : K * V) :
  In e l <-> In e (List.filter f l) \/ In e (List.filter (fun x => negb (f x)) l).
Proof.
  rewrite !List.filter_In. destruct (f e); simpl; intuition congruence.
Qed.

Lemma SplitRound_store (t t' : @HashTable K V) (dir_page bucket_idx bucket_page : Z)
    (key : K) (value : V) (r : round) :
  comparator_ok cmp -> store_ok t ->
  bucket_page = GetBucketPageId (dirs_ t dir_page) bucket_idx ->
  SplitRound cmp hash_fn t dir_page bucket_idx bucket_page key value = (Return r, t') ->
  store_ok t' /\
  forall e, stored t' e <-> stored t e \/ (r = Finished true /\ e = (key, value)).
Proof.
  intros Hc Hok Hbp HS. pose proof Hok as [H1 H2 H3 H4].
  assert (Hlt : bucket_page < next_page_id_ t) by (rewrite Hbp; apply H2).
  apply SplitRound_steps in HS.
  destruct HS as [(-> & Hb & Hn & Hm & Hq & Hd)
                 | (t6 & t7 & p & ok & b & Hb6 & Hn6 & Hm6 & Hq6 & Hd6 & HR & Hp & HB
                    & -> & ->)].
  - split.
    + constructor.
      * lia.
      * intros dp idx. rewrite Hn. destruct (decide (dp = dir_page)) as [-> | Hne].
        -- rewrite Hd. apply IncrGlobalDepth_ids. apply H2.
        -- rewrite Hq by exact Hne. apply H2.
      * intros q Hge. rewrite Hb. apply H3. lia.
      * intros q. rewrite Hb, Hm. apply H4.
    + intros e. unfold stored. rewrite Hb. split; [now left |].
      intros [H | [H _]]; [exact H | discriminate].
  - set (n := next_page_id_ t) in *. set (m := bucket_max_size_ t) in *.
    set (d := split_directory (dirs_ t dir_page) bucket_idx n) in *.
    set (old := entries_ (bkts_ t bucket_page)).
    assert (Hold6 : bkts_ t6 bucket_page = bkts_ t bucket_page).
    { rewrite Hb6. apply fn_lookup_insert_ne. lia. }
    assert (Hnew6 : bkts_ t6 n = BucketInit m).
    { rewrite Hb6. apply fn_lookup_insert. }
    destruct (H4 bucket_page) as (Hmax & Hsize & Hnodup). fold m in Hmax, Hsize.
    fold old in Hnodup.
    rewrite Hold6 in HR. fold old in HR.
    apply (redistribute_spec dir_page n bucket_page d Hc ltac:(lia) old []) in HR.
    2: exact Hd6.
    2: now rewrite Hold6.
    2: exact Hnodup.
    2: { rewrite Hnew6. intros e []. }
    2: { rewrite Hnew6. unfold BucketSize in *. simpl. fold old in Hsize.
         destruct old; [now left | right]. simpl in *. lia. }
    rewrite Hnew6, Hold6 in HR. simpl in HR.
    destruct HR as (E1 & E2 & M1 & M2 & Hoth & Hd7 & Hn7 & Hm7).
    assert (Hok7 : store_ok t7).
    { constructor.
      - lia.
      - intros dp idx. rewrite Hd7, Hn7, Hn6.
        destruct (decide (dp = dir_page)) as [-> | Hne].
        + rewrite Hd6. apply split_directory_ids. apply H2.
        + rewrite Hq6 by exact Hne. pose proof (H2 dp idx). lia.
      - intros q Hge. rewrite Hoth by lia. rewrite Hb6.
        rewrite fn_lookup_insert_ne by lia. apply H3. lia.
      - intros q. rewrite Hm7, Hm6.
        destruct (decide (q = bucket_page)) as [-> | Hq1];
          [| destruct (decide (q = n)) as [-> | Hq2]].
        + unfold bucket_ok, BucketSize in *. rewrite E1, M1.
          repeat split; [exact Hmax | | now apply NoDup_keys_filter].
          pose proof (filter_length_bound
                        (fun e => negb (moves hash_fn d n e)) old).
          fold old in Hsize. lia.
        + unfold bucket_ok, BucketSize in *. rewrite E2, M2.
          repeat split; [| now apply NoDup_keys_filter].
          pose proof (filter_length_bound (moves hash_fn d n) old).
          fold old in Hsize. lia.
        + rewrite Hoth by assumption. rewrite Hb6.
          rewrite fn_lookup_insert_ne by congruence. apply H4. }
    assert (Hst7 : forall e, stored t7 e <-> stored t e).
    { intros e. unfold stored. split; intros [q Hq].
      - destruct (decide (q = bucket_page)) as [-> | Hq1];
          [| destruct (decide (q = n)) as [-> | Hq2]].
        + rewrite E1 in Hq. apply List.filter_In in Hq. exists bucket_page. tauto.
        + rewrite E2 in Hq. apply List.filter_In in Hq. exists bucket_page. tauto.
        + rewrite Hoth, Hb6 in Hq by assumption.
          rewrite fn_lookup_insert_ne in Hq by congruence. now exists q.
      - destruct (decide (q = bucket_page)) as [-> | Hq1];
          [| destruct (decide (q = n)) as [-> | Hq2]].
        + apply (filter_partition_In (moves hash_fn d n)) in Hq.
          destruct Hq as [Hq | Hq].
          * exists n. now rewrite E2.
          * exists bucket_page. now rewrite E1.
        + unfold n in Hq. rewrite H3 in Hq by lia. destruct Hq.
        + exists q. rewrite Hoth, Hb6 by assumption.
          now rewrite fn_lookup_insert_ne by congruence. }
    split.
    + apply (store_ok_set_bucket_Insert t7 p key value ok b Hc Hok7); [| exact HB].
      rewrite Hn7, Hn6. destruct Hp; lia.
    + intros e. rewrite (stored_set_bucket_Insert t7 p key value ok b Hc HB e), Hst7.
      destruct ok; split; intros [H | [H ->]]; auto; discriminate.
Qed.

(** *** Insert *)

Lemma Insert_store (fuel : nat) :
  comparator_ok cmp ->
  forall (t t' : @HashTable K V) (key : K) (value : V) (b : bool),
  store_ok t ->
  Insert cmp hash_fn fuel key value t = (Return b, t') ->
  store_ok t' /\
  forall e, stored t' e <-> stored t e \/ (b = true /\ e = (key, value)).
Proof.
  intros Hc. induction fuel as [|fuel IH]; intros t t' key value b Hok; simpl;
    [discriminate |].
  destruct (_ =? INVALID_PAGE_ID).
  { intros HI.
    destruct (InsertToNewDirectory_store _ _ _ _ _ _ _ Hc Hok HI) as (ok & [= ->] & H).
    exact H. }
  set (dir_page := GetDirectoryPageId _ _).
  set (bucket_idx := HashToBucketIndex _ _).
  set (bucket_page := GetBucketPageId _ _).
  destruct (bucket_page =? INVALID_PAGE_ID).
  { intros HI.
    destruct (InsertToNewBucket_store _ _ _ _ _ _ _ Hc Hok HI) as (ok & [= ->] & H).
    exact H. }
  destruct (BucketInsert cmp (bkts_ t bucket_page) key value) as [[|] b0] eqn:HB.
  - intros [= <- <-]. split.
    + apply (store_ok_set_bucket_Insert t bucket_page key value true b0 Hc Hok);
        [apply (so_ids _ Hok) | exact HB].
    + apply (stored_set_bucket_Insert t bucket_page key value true b0 Hc HB).
  - destruct (Lookup cmp (bkts_ t bucket_page) key).
    + intros [= <- <-]. split; [exact Hok |].
      intros e. split; [now left | intros [H | [H _]]; [exact H | discriminate]].
    + destruct (SplitRound cmp hash_fn t dir_page bucket_idx bucket_page key value)
        as [o t1] eqn:HS.
      destruct o as [[b1|] | | |]; try discriminate.
      * intros [= <- <-].
        destruct (SplitRound_store _ _ _ _ _ _ _ _ Hc Hok eq_refl HS) as [Hok1 Hst].
        split; [exact Hok1 |]. intros e. rewrite Hst.
        split; intros [H | [H ->]]; auto; right; split; congruence.
      * intros HI.
        destruct (SplitRound_store _ _ _ _ _ _ _ _ Hc Hok eq_refl HS) as [Hok1 Hst].
        destruct (IH _ _ _ _ _ Hok1 HI) as [Hok' Hst'].
        split; [exact Hok' |]. intros e. rewrite Hst', Hst.
        split; [intros [[H | [H _]] | H]; auto; discriminate | intros [H | H]; auto].
Qed.

(** *** Remove *)

Lemma merge_loop_ids (fuel : nat) (dir_page n : Z) :
  forall (bucket_idx bucket_page : Z) (indexes : list Z) (t t' : @HashTable K V)
         (o : outcome unit),
  bucket_page < n ->
  (forall dp idx, bucket_page_ids_ (dirs_ t dp) idx < n) ->
  merge_loop fuel dir_page bucket_idx bucket_page indexes t = (o, t') ->
  forall dp idx, bucket_page_ids_ (dirs_ t' dp) idx < n.
Proof.
  induction fuel as [|fuel IH]; intros bucket_idx bucket_page indexes t t' o Hb Hids;
    simpl; [now intros [= <- <-] |].
  destruct (0 <? _); [| now intros [= <- <-]].
  destruct (negb (_ =? _)); [now intros [= <- <-] |].
  destruct (negb _ && negb _); [now intros [= <- <-] |].
  set (split_page := GetBucketPageId _ _).
  set (set_page := if IsEmpty _ then split_page else bucket_page).
  assert (Hsp : split_page < n) by apply Hids.
  assert (Hset : set_page < n) by (unfold set_page; now destruct (IsEmpty _)).
  set (t1 := set_dir t dir_page _).
  assert (Hids1 : forall dp idx, bucket_page_ids_ (dirs_ t1 dp) idx < n).
  { intros dp idx. unfold t1. simpl. destruct (decide (dp = dir_page)) as [-> | Hne].
    - rewrite fn_lookup_insert. apply retarget_fold_ids; [exact Hset | apply Hids].
    - rewrite fn_lookup_insert_ne by congruence. apply Hids. }
  match goal with
  | |- (if ?c then _ else _) = _ -> _ => destruct c
  end; intros HM.
  - exact (IH _ _ _ (bpm_DeletePage t1 bucket_page) _ _ Hsp Hids1 HM).
  - exact (IH _ _ _ (bpm_DeletePage t1 split_page) _ _ Hb Hids1 HM).
Qed.

Lemma Remove_store (fuel : nat) (key : K) (t t' : @HashTable K V) (b : bool) :
  store_ok t ->
  Remove cmp hash_fn fuel key t = (Return b, t') ->
  store_ok t'.
Proof.
  intros Hok. pose proof Hok as [H1 H2 H3 H4]. unfold Remove.
  destruct (_ =? INVALID_PAGE_ID); [now intros [= <- <-] |].
  set (dir_page := GetDirectoryPageId _ _).
  set (bucket_idx := HashToBucketIndex _ _).
  set (bucket_page := GetBucketPageId _ _).
  destruct (bucket_page =? INVALID_PAGE_ID); [now intros [= <- <-] |].
  pose proof (bucket_ok_Remove _ _ key (H4 bucket_page)) as Hrem.
  destruct (BucketRemove cmp (bkts_ t bucket_page) key) as [is_succ b0]. cbn [snd] in Hrem.
  destruct (negb is_succ); [now intros [= <- <-] |].
  set (t1 := set_bucket t bucket_page b0).
  destruct (merge_loop fuel dir_page bucket_idx bucket_page [bucket_idx] t1)
    as [o t2] eqn:HM.
  pose proof (merge_loop_frame _ _ _ _ _ _ _ _ HM)
    as (_ & Hn2 & _ & Hm2 & Hb2 & _).
  pose proof (merge_loop_ids _ _ (next_page_id_ t) _ _ _ t1 _ _
                (H2 dir_page bucket_idx) H2 HM) as Hids2.
  destruct o as [[] | | |]; try discriminate.
  destruct (shrink_loop fuel (dirs_ t2 dir_page)) as [o d] eqn:HSh.
  pose proof (shrink_loop_frame _ _ _ _ HSh) as (_ & _ & _ & Hbd).
  destruct o as [[] | | |]; try discriminate.
  intros [= <- <-]. constructor; simpl.
  - now rewrite Hn2.
  - intros dp idx. rewrite Hn2. simpl. destruct (decide (dp = dir_page)) as [-> | Hne].
    + rewrite fn_lookup_insert, Hbd. apply Hids2.
    + rewrite fn_lookup_insert_ne by congruence. apply Hids2.
  - intros p Hp. rewrite Hn2 in Hp. simpl in Hp. rewrite Hb2. simpl.
    assert (bucket_page < next_page_id_ t) by apply H2.
    rewrite fn_lookup_insert_ne by lia. now apply H3.
  - intros p. rewrite Hm2, Hb2. simpl. destruct (decide (p = bucket_page)) as [-> | Hne].
    + rewrite fn_lookup_insert. exact Hrem.
    + rewrite fn_lookup_insert_ne by congruence. apply H4.
Qed.

Lemma new_table_store (header_max_depth directory_max_depth bucket_max_size : Z) :
  store_ok (@new_table K V header_max_depth directory_max_depth bucket_max_size).
Proof.
  constructor; simpl; try lia; auto.
  - intros _ _. unfold INVALID_PAGE_ID. lia.
  - intros _. apply bucket_ok_Init.
Qed.

Lemma reachable_store_ok (t : @HashTable K V) :
  comparator_ok cmp -> reachable cmp hash_fn t -> store_ok t.
Proof.
  intros Hc. induction 1 as [| t t' fuel key value b _ IH HI | t t' fuel key b _ IH HR].
  - apply new_table_store.
  - now apply (Insert_store fuel Hc t t' key value b IH).
  - exact (Remove_store fuel key t t' b IH HR).
Qed.

End Conservation.

Lemma IntComparator_ok : comparator_ok Examples.IntComparator.
Proof.
  intros a b. unfold Examples.IntComparator.
  destruct (Z.ltb_spec a b); [split; [discriminate | lia] |].
  destruct (Z.ltb_spec b a); [split; [discriminate | lia] |].
  split; [lia | reflexivity].
Qed.

Lemma table_0_1_reachable :
  reachable Examples.IntComparator Examples.id_hash
    (Examples.then_insert 1 10 (Examples.then_insert 0 0 Examples.empty_table)).
Proof.
  apply (reach_Insert Examples.IntComparator Examples.id_hash
           (Examples.then_insert 0 0 Examples.empty_table) _ 16 1 10 true).
  - apply (reach_Insert Examples.IntComparator Examples.id_hash
             Examples.empty_table _ 16 0 0 true).
    + apply reach_new. lia.
    + vm_compute. reflexivity.
  - vm_compute. reflexivity.
Defined.

(** X30.  Insert moves entries between bucket pages but neither loses nor
    invents one: on a table built by Insert and Remove calls with a
    comparator that answers 0 on equal keys only, the entries held by the
    bucket pages after an Insert that returns are those held before,
    together with the new pair when Insert returned true; this covers the
    calls that split a full bucket, any number of times. *)
Theorem Insert_conserves_entries {K V : Type} (cmp : K -> K -> Z) (hash_fn : K -> Z)
    (fuel : nat) (key : K) (value : V) (t t' : @HashTable K V) (b : bool) :
  comparator_ok cmp ->
  reachable cmp hash_fn t ->
  Insert cmp hash_fn fuel key value t = (Return b, t') ->
  forall e, stored t' e <-> stored t e \/ (b = true /\ e = (key, value)).
Proof.
  intros Hc Hreach HI.
  exact (proj2 (Insert_store cmp hash_fn fuel Hc t t' key value b
                  (reachable_store_ok cmp hash_fn t Hc Hreach) HI)).
Qed.

Lemma Insert_conserves_entries_witness :
  stored (Examples.then_insert 2 20
            (Examples.then_insert 1 10 (Examples.then_insert 0 0 Examples.empty_table)))
         (0, 0).
Proof.
  refine (proj2 (Insert_conserves_entries Examples.IntComparator Examples.id_hash
                   16 2 20
                   (Examples.then_insert 1 10
                      (Examples.then_insert 0 0 Examples.empty_table))
                   (Examples.then_insert 2 20
                      (Examples.then_insert 1 10
                         (Examples.then_insert 0 0 Examples.empty_table)))
                   true IntComparator_ok table_0_1_reachable _ (0, 0)) _).
  - vm_compute. reflexivity.
  - left. exists 2. vm_compute. now left.
Defined.

End HashTableStoreProofs.
